(** * Flow feature extraction: a shallow embedding

    The development follows the two extraction scripts
    [attack/extraction/extract_attack_features.py] and
    [benign/extraction/extract_benign_features.py].

    Numbers.  Python floats (timestamps, durations, statistics) are
    modelled by the rationals [Q] with exact arithmetic; rounding of IEEE
    doubles is outside the model.  Python integers (lengths, header
    sizes, flag values) are [Z]; counters that only ever grow from zero
    (packet counts, subflow indices) are [nat]. *)

From Stdlib Require Import String.
From Stdlib Require Import List Bool Arith ZArith QArith Qminmax Lia Lqa.
Import ListNotations.

Local Open Scope Q_scope.

(* ------------------------------------------------------------------ *)
(** ** Numeric helpers *)

Definition Qge_bool (a b : Q) : bool := Qle_bool b a.
Definition Qgt_bool (a b : Q) : bool := negb (Qle_bool a b).

(** [sum(l)] on floats and on integers. *)
Definition Qsum (l : list Q) : Q := fold_right Qplus 0 l.
Definition Zsum (l : list Z) : Z := fold_right Z.add 0%Z l.

(** Python's [sorted] on floats: a stable ascending sort. *)
Fixpoint insert_sorted (x : Q) (l : list Q) : list Q :=
  match l with
  | [] => [x]
  | y :: t => if Qle_bool y x then y :: insert_sorted x t else x :: l
  end.

Definition sorted (l : list Q) : list Q :=
  fold_left (fun acc x => insert_sorted x acc) l [].

(* ------------------------------------------------------------------ *)
(** ** The numpy fragment used by the scripts *)

(** [np.diff]: differences of consecutive elements. *)
Fixpoint np_diff (l : list Q) : list Q :=
  match l with
  | a :: (b :: _) as t => (b - a) :: np_diff t
  | _ => []
  end.

(** The reductions handed to [safe_stat].  [None] stands for a call that
    raises, or that yields a value which is not a number ([np.mean] of an
    empty sample). *)
Definition np_mean (l : list Q) : option Q :=
  match l with
  | [] => None
  | _ => Some (Qsum l / inject_Z (Z.of_nat (length l)))
  end.

Definition np_max (l : list Q) : option Q :=
  match l with
  | [] => None
  | x :: t => Some (fold_left Qmax t x)
  end.

Definition np_min (l : list Q) : option Q :=
  match l with
  | [] => None
  | x :: t => Some (fold_left Qmin t x)
  end.

(** [np.var]: the population variance. *)
Definition np_var (l : list Q) : option Q :=
  match np_mean l with
  | None => None
  | Some m => np_mean (map (fun x => (x - m) * (x - m)) l)
  end.

(** A sample handed to [safe_stat] is either a Python list or a numpy
    array; the two differ in what [if arr] does. *)
Inductive PySeq : Type :=
| PyList (l : list Q)
| NdArray (l : list Q).

Definition items (a : PySeq) : list Q :=
  match a with PyList l | NdArray l => l end.

(** Truth value of a sample, [None] when taking it raises.  A list is
    true when it is not empty.  An array of one element has the truth
    value of that element; an array of several elements raises
    [ValueError]; an empty array is false (or raises, depending on the
    numpy release: [safe_stat] answers the default in both cases). *)
Definition truth (a : PySeq) : option bool :=
  match a with
  | PyList [] => Some false
  | PyList (_ :: _) => Some true
  | NdArray [] => Some false
  | NdArray [x] => Some (negb (Qeq_bool x 0))
  | NdArray (_ :: _ :: _) => None
  end.

(** [safe_stat(arr, func, default=0.0)]:
    [try: return float(func(arr)) if arr else default
     except Exception: return default]. *)
Definition safe_stat (arr : PySeq) (func : list Q -> option Q) (default : Q) : Q :=
  match truth arr with
  | Some true =>
      match func (items arr) with
      | Some v => v
      | None => default
      end
  | Some false => default
  | None => default
  end.

(* ------------------------------------------------------------------ *)
(** ** Active / idle analysis *)

Definition IDLE_THRESHOLD : Q := 1.

(** The loop [for i, dt in enumerate(deltas)] of [compute_active_idle],
    as a recursion over the remaining deltas with the running index [i]
    and the loop variables [active], [idle] and [start].  The indices
    [i] and [start] stay below [len(times)], so [times[i]] never raises
    here. *)
Fixpoint active_idle_loop (times : list Q) (threshold : Q)
    (deltas : list Q) (i : nat)
    (active idle : list Q) (start : nat) : list Q * list Q * nat :=
  match deltas with
  | [] => (active, idle, start)
  | dt :: rest =>
      if Qge_bool dt threshold
      then active_idle_loop times threshold rest (S i)
             (active ++ [nth i times 0 - nth start times 0])
             (idle ++ [dt]) (S i)
      else active_idle_loop times threshold rest (S i) active idle start
  end.

Definition compute_active_idle (times : list Q) (threshold : Q)
  : list Q * list Q :=
  if (length times <? 2)%nat then ([], [])
  else
    let '(active, idle, start) :=
      active_idle_loop times threshold (np_diff times) 0 [] [] 0 in
    (active ++ [last times 0 - nth start times 0], idle).

(* ------------------------------------------------------------------ *)
(** ** Bulk transfer detection *)

Definition BULK_MIN_PKTS : Z := 4.
Definition BULK_MIN_BYTES : Z := 500.

(** A recorded bulk: [(count, bsum, bsum / dur)]. *)
Definition Bulk : Type := Z * Z * Q.

Definition bulk_count_of (b : Bulk) : Z := fst (fst b).
Definition bulk_bytes_of (b : Bulk) : Z := snd (fst b).
Definition bulk_rate_of (b : Bulk) : Q := snd b.

(** The slice [l[a:b]] for [0 <= a]. *)
Definition slice {A : Type} (l : list A) (a b : nat) : list A :=
  firstn (b - a) (skipn a l).

(** [count >= min_pkts and bsum >= min_bytes]. *)
Definition qualifies (min_pkts min_bytes count bsum : Z) : bool :=
  (min_pkts <=? count)%Z && (min_bytes <=? bsum)%Z.

(** [dur = max(t_end - t_start, 1e-4)] and the appended triple. *)
Definition mk_bulk (count bsum : Z) (t_end t_start : Q) : Bulk :=
  let dur := Qmax (t_end - t_start) (1 # 10000) in
  (count, bsum, inject_Z bsum / dur).

(** The loop of [compute_bulk_metrics] over [enumerate(deltas)], with the
    loop variables [bulks] and [start]. *)
Fixpoint bulk_loop (times : list Q) (lengths : list Z)
    (min_pkts min_bytes : Z) (threshold : Q)
    (deltas : list Q) (i : nat)
    (bulks : list Bulk) (start : nat) : list Bulk * nat :=
  match deltas with
  | [] => (bulks, start)
  | dt :: rest =>
      if Qge_bool dt threshold
      then
        let count := (Z.of_nat i - Z.of_nat start + 1)%Z in
        let bsum := Zsum (slice lengths start (i + 1)) in
        let bulks' :=
          if qualifies min_pkts min_bytes count bsum
          then bulks ++ [mk_bulk count bsum (nth i times 0) (nth start times 0)]
          else bulks in
        bulk_loop times lengths min_pkts min_bytes threshold rest (S i)
          bulks' (S i)
      else
        bulk_loop times lengths min_pkts min_bytes threshold rest (S i)
          bulks start
  end.

(** The body of [compute_bulk_metrics] after the early return: the loop,
    then the final segment.  [None] is the [IndexError] of [times[-1]] on
    an empty [times]. *)
Definition collect_bulks (times : list Q) (lengths : list Z)
    (min_pkts min_bytes : Z) (threshold : Q) : option (list Bulk) :=
  let '(bulks, start) :=
    bulk_loop times lengths min_pkts min_bytes threshold
      (np_diff times) 0 [] 0 in
  let count := (Z.of_nat (length times) - Z.of_nat start)%Z in
  let bsum := Zsum (skipn start lengths) in
  if qualifies min_pkts min_bytes count bsum
  then
    match times with
    | [] => None
    | _ :: _ =>
        Some (bulks ++ [mk_bulk count bsum (last times 0) (nth start times 0)])
    end
  else Some bulks.

Record BulkMetrics : Type := mkBulkMetrics {
  avg_bytes : Q;
  avg_packets : Q;
  avg_rate : Q
}.

Definition no_bulk : BulkMetrics := mkBulkMetrics 0 0 0.

Definition compute_bulk_metrics (times : list Q) (lengths : list Z)
    (min_pkts min_bytes : Z) (threshold : Q) : option BulkMetrics :=
  if (Z.of_nat (length times) <? min_pkts)%Z then Some no_bulk
  else
    match collect_bulks times lengths min_pkts min_bytes threshold with
    | None => None
    | Some [] => Some no_bulk
    | Some bulks =>
        let pkts := map (fun b => inject_Z (bulk_count_of b)) bulks in
        let bts := map (fun b => inject_Z (bulk_bytes_of b)) bulks in
        let rts := map bulk_rate_of bulks in
        Some (mkBulkMetrics (safe_stat (PyList bts) np_mean 0)
                            (safe_stat (PyList pkts) np_mean 0)
                            (safe_stat (PyList rts) np_mean 0))
    end.

(** The number of runs the detector records as bulks; the early return
    records none. *)
Definition qualifying_bulks (times : list Q) (lengths : list Z)
    (min_pkts min_bytes : Z) (threshold : Q) : option nat :=
  if (Z.of_nat (length times) <? min_pkts)%Z then Some 0%nat
  else option_map (@length Bulk)
         (collect_bulks times lengths min_pkts min_bytes threshold).

(** *** The detector as the specification words it

    The stream of one direction is the list of its (time, length)
    samples.  It is cut into contiguous runs at every gap that reaches
    the threshold; a run qualifies when it has enough packets and enough
    bytes; the outputs are arithmetic means over the qualifying runs. *)

Fixpoint runs_from (threshold : Q) (cur : list (Q * Z)) (prev : Q)
    (rest : list (Q * Z)) : list (list (Q * Z)) :=
  match rest with
  | [] => [cur]
  | p :: rest' =>
      if Qge_bool (fst p - prev) threshold
      then cur :: runs_from threshold [p] (fst p) rest'
      else runs_from threshold (cur ++ [p]) (fst p) rest'
  end.

Definition split_runs (threshold : Q) (stream : list (Q * Z))
  : list (list (Q * Z)) :=
  match stream with
  | [] => []
  | p :: rest => runs_from threshold [p] (fst p) rest
  end.

Definition run_packets (r : list (Q * Z)) : Z := Z.of_nat (length r).
Definition run_bytes (r : list (Q * Z)) : Z := Zsum (map snd r).
Definition run_first (r : list (Q * Z)) : Q := hd 0 (map fst r).
Definition run_last (r : list (Q * Z)) : Q := last (map fst r) 0.
Definition run_duration (r : list (Q * Z)) : Q := run_last r - run_first r.
Definition run_rate (r : list (Q * Z)) : Q :=
  inject_Z (run_bytes r) / Qmax (run_duration r) (1 # 10000).

Definition run_qualifies (min_pkts min_bytes : Z) (r : list (Q * Z)) : bool :=
  (min_pkts <=? run_packets r)%Z && (min_bytes <=? run_bytes r)%Z.

Definition qualifying_runs (min_pkts min_bytes : Z) (threshold : Q)
    (stream : list (Q * Z)) : list (list (Q * Z)) :=
  filter (run_qualifies min_pkts min_bytes) (split_runs threshold stream).

Definition arithmetic_mean (l : list Q) : Q :=
  Qsum l / inject_Z (Z.of_nat (length l)).

Definition spec_bulk_metrics (times : list Q) (lengths : list Z)
    (min_pkts min_bytes : Z) (threshold : Q) : BulkMetrics :=
  match qualifying_runs min_pkts min_bytes threshold (combine times lengths) with
  | [] => no_bulk
  | q =>
      mkBulkMetrics
        (arithmetic_mean (map (fun r => inject_Z (run_bytes r)) q))
        (arithmetic_mean (map (fun r => inject_Z (run_packets r)) q))
        (arithmetic_mean (map run_rate q))
  end.

(* ------------------------------------------------------------------ *)
(** ** Packets as the decoder hands them over *)

(** A packet attribute the scripts convert with [float] or [int]: it may
    be missing, present with a text the conversion rejects, or present
    with a value. *)
Inductive field (A : Type) : Type :=
| Absent
| Garbled
| Value (a : A).

Arguments Absent {A}.
Arguments Garbled {A}.
Arguments Value {A} a.

Record Packet : Type := mkPacket {
  sniff_timestamp : field Q;          (* pkt.sniff_timestamp *)
  ip_src : option string;             (* pkt.ip.src *)
  ip_dst : option string;             (* pkt.ip.dst *)
  tcp_srcport : option string;        (* pkt.tcp.srcport *)
  tcp_dstport : option string;        (* pkt.tcp.dstport *)
  transport_layer : string;           (* pkt.transport_layer *)
  pkt_length : field Z;               (* pkt.length *)
  tcp_hdr_len : field Z;              (* pkt.tcp.hdr_len *)
  tcp_window_size_value : field Z;    (* pkt.tcp.window_size_value *)
  tcp_flags : field Z                 (* pkt.tcp.flags, read by int(flags, 0) *)
}.

(** Every attribute is there and converts. *)
Definition has_value {A : Type} (x : field A) : bool :=
  match x with Value _ => true | _ => false end.

Definition not_garbled {A : Type} (x : field A) : bool :=
  match x with Garbled => false | _ => true end.

Definition is_some {A : Type} (x : option A) : bool :=
  match x with Some _ => true | None => false end.

Definition well_formed (pkt : Packet) : bool :=
  has_value (sniff_timestamp pkt)
  && is_some (ip_src pkt) && is_some (ip_dst pkt)
  && is_some (tcp_srcport pkt) && is_some (tcp_dstport pkt)
  && has_value (pkt_length pkt)
  && not_garbled (tcp_hdr_len pkt)
  && not_garbled (tcp_window_size_value pkt)
  && has_value (tcp_flags pkt).

(* ------------------------------------------------------------------ *)
(** ** Flow accumulators *)

(** The dictionary created for a new flow.  [start] and [end] are kept
    as timestamps.  An entry of [flags_hex] is the raw flag text, known
    here by what [int(hx, 0)] makes of it ([None] when it raises). *)
Record Flow : Type := mkFlow {
  start : Q;
  end_ : Q;
  times : list Q;
  lengths : list Z;
  fwd_times : list Q;
  bwd_times : list Q;
  fwd_lengths : list Z;
  bwd_lengths : list Z;
  fwd_hdrs : list Z;
  bwd_hdrs : list Z;
  flags_hex : list (option Z);
  fwd_psh : Z;
  bwd_psh : Z;
  fwd_urg : Z;
  bwd_urg : Z;
  init_win_fwd : option Z;
  init_win_bwd : option Z
}.

Definition new_flow (tutc : Q) : Flow :=
  mkFlow tutc tutc [] [] [] [] [] [] [] [] [] 0 0 0 0 None None.

Definition set_end (t : Q) (f : Flow) : Flow :=
  mkFlow (start f) t (times f) (lengths f) (fwd_times f) (bwd_times f)
    (fwd_lengths f) (bwd_lengths f) (fwd_hdrs f) (bwd_hdrs f) (flags_hex f)
    (fwd_psh f) (bwd_psh f) (fwd_urg f) (bwd_urg f)
    (init_win_fwd f) (init_win_bwd f).

Definition app_times (t : Q) (f : Flow) : Flow :=
  mkFlow (start f) (end_ f) (times f ++ [t]) (lengths f) (fwd_times f)
    (bwd_times f) (fwd_lengths f) (bwd_lengths f) (fwd_hdrs f) (bwd_hdrs f)
    (flags_hex f) (fwd_psh f) (bwd_psh f) (fwd_urg f) (bwd_urg f)
    (init_win_fwd f) (init_win_bwd f).

Definition app_lengths (n : Z) (f : Flow) : Flow :=
  mkFlow (start f) (end_ f) (times f) (lengths f ++ [n]) (fwd_times f)
    (bwd_times f) (fwd_lengths f) (bwd_lengths f) (fwd_hdrs f) (bwd_hdrs f)
    (flags_hex f) (fwd_psh f) (bwd_psh f) (fwd_urg f) (bwd_urg f)
    (init_win_fwd f) (init_win_bwd f).

Definition app_fwd_times (t : Q) (f : Flow) : Flow :=
  mkFlow (start f) (end_ f) (times f) (lengths f) (fwd_times f ++ [t])
    (bwd_times f) (fwd_lengths f) (bwd_lengths f) (fwd_hdrs f) (bwd_hdrs f)
    (flags_hex f) (fwd_psh f) (bwd_psh f) (fwd_urg f) (bwd_urg f)
    (init_win_fwd f) (init_win_bwd f).

Definition app_bwd_times (t : Q) (f : Flow) : Flow :=
  mkFlow (start f) (end_ f) (times f) (lengths f) (fwd_times f)
    (bwd_times f ++ [t]) (fwd_lengths f) (bwd_lengths f) (fwd_hdrs f)
    (bwd_hdrs f) (flags_hex f) (fwd_psh f) (bwd_psh f) (fwd_urg f)
    (bwd_urg f) (init_win_fwd f) (init_win_bwd f).

Definition app_fwd_lengths (n : Z) (f : Flow) : Flow :=
  mkFlow (start f) (end_ f) (times f) (lengths f) (fwd_times f)
    (bwd_times f) (fwd_lengths f ++ [n]) (bwd_lengths f) (fwd_hdrs f)
    (bwd_hdrs f) (flags_hex f) (fwd_psh f) (bwd_psh f) (fwd_urg f)
    (bwd_urg f) (init_win_fwd f) (init_win_bwd f).

Definition app_bwd_lengths (n : Z) (f : Flow) : Flow :=
  mkFlow (start f) (end_ f) (times f) (lengths f) (fwd_times f)
    (bwd_times f) (fwd_lengths f) (bwd_lengths f ++ [n]) (fwd_hdrs f)
    (bwd_hdrs f) (flags_hex f) (fwd_psh f) (bwd_psh f) (fwd_urg f)
    (bwd_urg f) (init_win_fwd f) (init_win_bwd f).

Definition app_fwd_hdrs (n : Z) (f : Flow) : Flow :=
  mkFlow (start f) (end_ f) (times f) (lengths f) (fwd_times f)
    (bwd_times f) (fwd_lengths f) (bwd_lengths f) (fwd_hdrs f ++ [n])
    (bwd_hdrs f) (flags_hex f) (fwd_psh f) (bwd_psh f) (fwd_urg f)
    (bwd_urg f) (init_win_fwd f) (init_win_bwd f).

Definition app_bwd_hdrs (n : Z) (f : Flow) : Flow :=
  mkFlow (start f) (end_ f) (times f) (lengths f) (fwd_times f)
    (bwd_times f) (fwd_lengths f) (bwd_lengths f) (fwd_hdrs f)
    (bwd_hdrs f ++ [n]) (flags_hex f) (fwd_psh f) (bwd_psh f) (fwd_urg f)
    (bwd_urg f) (init_win_fwd f) (init_win_bwd f).

Definition app_flags_hex (x : option Z) (f : Flow) : Flow :=
  mkFlow (start f) (end_ f) (times f) (lengths f) (fwd_times f)
    (bwd_times f) (fwd_lengths f) (bwd_lengths f) (fwd_hdrs f)
    (bwd_hdrs f) (flags_hex f ++ [x]) (fwd_psh f) (bwd_psh f) (fwd_urg f)
    (bwd_urg f) (init_win_fwd f) (init_win_bwd f).

Definition add_fwd_psh (n : Z) (f : Flow) : Flow :=
  mkFlow (start f) (end_ f) (times f) (lengths f) (fwd_times f)
    (bwd_times f) (fwd_lengths f) (bwd_lengths f) (fwd_hdrs f)
    (bwd_hdrs f) (flags_hex f) (fwd_psh f + n)%Z (bwd_psh f) (fwd_urg f)
    (bwd_urg f) (init_win_fwd f) (init_win_bwd f).

Definition add_bwd_psh (n : Z) (f : Flow) : Flow :=
  mkFlow (start f) (end_ f) (times f) (lengths f) (fwd_times f)
    (bwd_times f) (fwd_lengths f) (bwd_lengths f) (fwd_hdrs f)
    (bwd_hdrs f) (flags_hex f) (fwd_psh f) (bwd_psh f + n)%Z (fwd_urg f)
    (bwd_urg f) (init_win_fwd f) (init_win_bwd f).

Definition add_fwd_urg (n : Z) (f : Flow) : Flow :=
  mkFlow (start f) (end_ f) (times f) (lengths f) (fwd_times f)
    (bwd_times f) (fwd_lengths f) (bwd_lengths f) (fwd_hdrs f)
    (bwd_hdrs f) (flags_hex f) (fwd_psh f) (bwd_psh f) (fwd_urg f + n)%Z
    (bwd_urg f) (init_win_fwd f) (init_win_bwd f).

Definition add_bwd_urg (n : Z) (f : Flow) : Flow :=
  mkFlow (start f) (end_ f) (times f) (lengths f) (fwd_times f)
    (bwd_times f) (fwd_lengths f) (bwd_lengths f) (fwd_hdrs f)
    (bwd_hdrs f) (flags_hex f) (fwd_psh f) (bwd_psh f) (fwd_urg f)
    (bwd_urg f + n)%Z (init_win_fwd f) (init_win_bwd f).

Definition set_init_win_fwd (w : Z) (f : Flow) : Flow :=
  mkFlow (start f) (end_ f) (times f) (lengths f) (fwd_times f)
    (bwd_times f) (fwd_lengths f) (bwd_lengths f) (fwd_hdrs f)
    (bwd_hdrs f) (flags_hex f) (fwd_psh f) (bwd_psh f) (fwd_urg f)
    (bwd_urg f) (Some w) (init_win_bwd f).

Definition set_init_win_bwd (w : Z) (f : Flow) : Flow :=
  mkFlow (start f) (end_ f) (times f) (lengths f) (fwd_times f)
    (bwd_times f) (fwd_lengths f) (bwd_lengths f) (fwd_hdrs f)
    (bwd_hdrs f) (flags_hex f) (fwd_psh f) (bwd_psh f) (fwd_urg f)
    (bwd_urg f) (init_win_fwd f) (Some w).

(* ------------------------------------------------------------------ *)
(** ** Mutating one accumulator inside [try]

    After [f = flows[key]] the loop body works on the accumulator [f]
    through that reference.  A computation on [f] either finishes or
    raises; whatever it wrote to [f] before raising stays written, since
    [except Exception: continue] undoes nothing. *)

Definition FlowM (A : Type) : Type := Flow -> option A * Flow.

Definition ret {A : Type} (a : A) : FlowM A := fun f => (Some a, f).

Definition raise {A : Type} : FlowM A := fun f => (None, f).

Definition bind {A B : Type} (m : FlowM A) (k : A -> FlowM B) : FlowM B :=
  fun f =>
    match m f with
    | (Some a, f') => k a f'
    | (None, f') => (None, f')
    end.

Definition update (g : Flow -> Flow) : FlowM unit :=
  fun f => (Some tt, g f).

Definition read {A : Type} (g : Flow -> A) : FlowM A :=
  fun f => (Some (g f), f).

Notation "x <- m ;; k" := (bind m (fun x => k))
  (at level 61, m at next level, right associativity).
Notation "m ;;; k" := (bind m (fun _ => k))
  (at level 61, right associativity).

(** [int(pkt.x)] on an attribute that has to be there. *)
Definition int_of (x : field Z) : FlowM Z :=
  match x with
  | Value v => ret v
  | Absent | Garbled => raise
  end.

(** [int(pkt.tcp.x) if hasattr(pkt.tcp, "x") else 0], and likewise
    [int(getattr(pkt.tcp, "x", 0))]. *)
Definition int_or_zero (x : field Z) : FlowM Z :=
  match x with
  | Value v => ret v
  | Absent => ret 0%Z
  | Garbled => raise
  end.

(** [(val >> k) & 1]. *)
Definition flag_bit (val : Z) (k : Z) : Z := Z.land (Z.shiftr val k) 1.

(** The part of the loop body from [f["end"] = tutc] to its end.  It is
    the same text in both scripts but for the direction test, whose
    outcome is the argument [forward]. *)
Definition accumulate (pkt : Packet) (ts : Q) (forward : bool) : FlowM unit :=
  update (set_end ts) ;;;
  length <- int_of (pkt_length pkt) ;;
  update (app_times ts) ;;;
  update (app_lengths length) ;;;
  hdr <- int_or_zero (tcp_hdr_len pkt) ;;
  (if forward
   then
     update (app_fwd_times ts) ;;;
     update (app_fwd_lengths length) ;;;
     update (app_fwd_hdrs hdr) ;;;
     w0 <- read init_win_fwd ;;
     match w0 with
     | None =>
         w <- int_or_zero (tcp_window_size_value pkt) ;;
         update (set_init_win_fwd w)
     | Some _ => ret tt
     end
   else
     update (app_bwd_times ts) ;;;
     update (app_bwd_lengths length) ;;;
     update (app_bwd_hdrs hdr) ;;;
     w0 <- read init_win_bwd ;;
     match w0 with
     | None =>
         w <- int_or_zero (tcp_window_size_value pkt) ;;
         update (set_init_win_bwd w)
     | Some _ => ret tt
     end) ;;;
  match tcp_flags pkt with
  | Absent => raise
  | Garbled => update (app_flags_hex None) ;;; raise
  | Value val =>
      update (app_flags_hex (Some val)) ;;;
      if forward
      then
        update (add_fwd_psh (flag_bit val 3)) ;;;
        update (add_fwd_urg (flag_bit val 5))
      else
        update (add_bwd_psh (flag_bit val 3)) ;;;
        update (add_bwd_urg (flag_bit val 5))
  end.

(* ------------------------------------------------------------------ *)
(** ** Dictionaries

    A Python [dict] keeps its keys in insertion order and the scripts
    iterate over [flows.values()], so a dictionary is an association
    list: assigning to a key that is present replaces the value where it
    stands, assigning to a new key appends. *)

Section Dict.
Context {K V : Type}.
Variable eqb : K -> K -> bool.

Fixpoint dict_get (d : list (K * V)) (k : K) : option V :=
  match d with
  | [] => None
  | (k', v) :: rest => if eqb k k' then Some v else dict_get rest k
  end.

Definition dict_mem (d : list (K * V)) (k : K) : bool :=
  is_some (dict_get d k).

Fixpoint dict_set (d : list (K * V)) (k : K) (v : V) : list (K * V) :=
  match d with
  | [] => [(k, v)]
  | (k', v') :: rest =>
      if eqb k k' then (k, v) :: rest else (k', v') :: dict_set rest k v
  end.
End Dict.

(** Flow keys. *)
Definition BaseKey : Type := string * string * string * string * string.

Definition BaseKey_eqb (a b : BaseKey) : bool :=
  let '(a1, a2, a3, a4, a5) := a in
  let '(b1, b2, b3, b4, b5) := b in
  String.eqb a1 b1 && String.eqb a2 b2 && String.eqb a3 b3
  && String.eqb a4 b4 && String.eqb a5 b5.

Inductive Direction : Type := Fwd | Bwd.

Definition is_fwd (d : Direction) : bool :=
  match d with Fwd => true | Bwd => false end.

Definition other (d : Direction) : Direction :=
  match d with Fwd => Bwd | Bwd => Fwd end.

(** [float(pkt.sniff_timestamp)] and the four endpoint attributes; the
    loop body reads them before it touches any dictionary. *)
Definition endpoints (pkt : Packet) : option (Q * (string * string * string * string)) :=
  match sniff_timestamp pkt, ip_src pkt, tcp_srcport pkt,
        ip_dst pkt, tcp_dstport pkt with
  | Value ts, Some src, Some sport, Some dst, Some dport =>
      Some (ts, (src, sport, dst, dport))
  | _, _, _, _, _ => None
  end.

(* ------------------------------------------------------------------ *)
(** ** Whole-flow assembly: [extract_attack_features.py] *)

Module Attack.

Definition Flows : Type := list (BaseKey * Flow).

(** [base], [rev] and the choice of [key] and [direction]:
    [direction = "fwd"; key = base;
     if rev in flows: key, direction = rev, "bwd"]. *)
Definition assign (flows : Flows) (ep : string * string * string * string)
  : BaseKey * Direction :=
  let '(src, sport, dst, dport) := ep in
  let base : BaseKey := (src, sport, dst, dport, "TCP"%string) in
  let rev : BaseKey := (dst, dport, src, sport, "TCP"%string) in
  if dict_mem BaseKey_eqb flows rev then (rev, Bwd) else (base, Fwd).

(** One iteration of [for pkt in cap] with its [try ... except
    Exception: continue]. *)
Definition process_packet (flows : Flows) (pkt : Packet) : Flows :=
  match endpoints pkt with
  | None => flows
  | Some (ts, ep) =>
      let '(key, direction) := assign flows ep in
      let flows1 :=
        if dict_mem BaseKey_eqb flows key then flows
        else dict_set BaseKey_eqb flows key (new_flow ts) in
      match dict_get BaseKey_eqb flows1 key with
      | Some f =>
          dict_set BaseKey_eqb flows1 key
            (snd (accumulate pkt ts (is_fwd direction) f))
      | None => flows1
      end
  end.

Definition ingest (cap : list Packet) : Flows :=
  fold_left process_packet cap [].

End Attack.

(* ------------------------------------------------------------------ *)
(** ** Subflow-bounded assembly: [extract_benign_features.py] *)

Module Benign.

Definition MAX_FLOW_DURATION : Q := 30.
Definition MAX_PKTS_PER_SUBFLOW : nat := 20.

Record Meta : Type := mkMeta {
  idx : nat;
  start_ts : Q;
  pkt_count : nat
}.

(** [base + (meta["idx"],)]. *)
Definition Key : Type := BaseKey * nat.

Definition Key_eqb (a b : Key) : bool :=
  BaseKey_eqb (fst a) (fst b) && Nat.eqb (snd a) (snd b).

Record State : Type := mkState {
  flow_meta : list (BaseKey * Meta);
  flows : list (Key * Flow)
}.

Definition init : State := mkState [] [].

(** [ts - meta["start_ts"] > MAX_FLOW_DURATION
     or meta["pkt_count"] >= MAX_PKTS_PER_SUBFLOW]. *)
Definition must_rotate (meta : Meta) (ts : Q) : bool :=
  Qgt_bool (ts - start_ts meta) MAX_FLOW_DURATION
  || (MAX_PKTS_PER_SUBFLOW <=? pkt_count meta)%nat.

Definition rotate (meta : Meta) (ts : Q) : Meta :=
  if must_rotate meta ts then mkMeta (S (idx meta)) ts 0 else meta.

(** [base[:2]]. *)
Definition base_prefix (base : BaseKey) : string * string :=
  let '(a, pa, _, _, _) := base in (a, pa).

Definition endpoint_eqb (a b : string * string) : bool :=
  String.eqb (fst a) (fst b) && String.eqb (snd a) (snd b).

(** [flows.setdefault(key, v)]: the dictionary afterwards. *)
Definition setdefault (d : list (Key * Flow)) (key : Key) (v : Flow)
  : list (Key * Flow) :=
  if dict_mem Key_eqb d key then d else dict_set Key_eqb d key v.

(** One iteration of [for pkt in cap].  [meta] is the dictionary stored
    in [flow_meta[base]] and is changed in place, so what is written
    back under [base] is the changed [meta]. *)
Definition process_packet (st : State) (pkt : Packet) : State :=
  match endpoints pkt with
  | None => st
  | Some (ts, (src, sport, dst, dport)) =>
      let base : BaseKey := (src, sport, dst, dport, transport_layer pkt) in
      let meta :=
        match dict_get BaseKey_eqb (flow_meta st) base with
        | Some m => m
        | None => mkMeta 0 ts 0
        end in
      let meta := rotate meta ts in
      let key : Key := (base, idx meta) in
      let meta := mkMeta (idx meta) (start_ts meta) (S (pkt_count meta)) in
      let flow_meta1 := dict_set BaseKey_eqb (flow_meta st) base meta in
      let flows1 := setdefault (flows st) key (new_flow ts) in
      let forward := endpoint_eqb (src, sport) (base_prefix base) in
      match dict_get Key_eqb flows1 key with
      | Some f =>
          mkState flow_meta1
            (dict_set Key_eqb flows1 key (snd (accumulate pkt ts forward f)))
      | None => mkState flow_meta1 flows1
      end
  end.

Definition ingest (cap : list Packet) : State :=
  fold_left process_packet cap init.

End Benign.

(* ------------------------------------------------------------------ *)
(** ** Feature rows: the inter-arrival columns *)

(** The inter-arrival sequence of a scope as the specification words
    it: the differences between consecutive sorted timestamps, and the
    single value 0.0 when the scope has fewer than two timestamps. *)
Definition inter_arrival (ts : list Q) : list Q :=
  if (length ts <? 2)%nat then [0] else np_diff (sorted ts).

Module Row.
Section Columns.
(** [np.std] takes a square root, which [Q] does not have: the
    reduction is a parameter of the columns that use it. *)
Variable np_std : list Q -> option Q.

Definition M (a : PySeq) : Q := safe_stat a np_mean 0.
Definition S (a : PySeq) : Q := safe_stat a np_std 0.
Definition X (a : PySeq) : Q := safe_stat a np_max 0.
Definition N (a : PySeq) : Q := safe_stat a np_min 0.

(** [ts_sorted = sorted(f["times"])];
    [iats = np.diff(ts_sorted) if len(ts_sorted) > 1 else np.array([0.0])]. *)
Definition iats (f : Flow) : PySeq :=
  let ts_sorted := sorted (times f) in
  if (1 <? length ts_sorted)%nat then NdArray (np_diff ts_sorted)
  else NdArray [0].

(** [np.diff(sorted(f["fwd_times"])) if len(f["fwd_times"]) > 1
     else np.array([0.0])], and the same for the backward side. *)
Definition f_iats (f : Flow) : PySeq :=
  if (1 <? length (fwd_times f))%nat
  then NdArray (np_diff (sorted (fwd_times f)))
  else NdArray [0].

Definition b_iats (f : Flow) : PySeq :=
  if (1 <? length (bwd_times f))%nat
  then NdArray (np_diff (sorted (bwd_times f)))
  else NdArray [0].

Definition flow_iat_mean (f : Flow) : Q := M (iats f).
Definition flow_iat_std (f : Flow) : Q := S (iats f).
Definition flow_iat_max (f : Flow) : Q := X (iats f).
Definition flow_iat_min (f : Flow) : Q := N (iats f).
Definition fwd_iat_mean (f : Flow) : Q := M (f_iats f).
Definition fwd_iat_std (f : Flow) : Q := S (f_iats f).
Definition fwd_iat_max (f : Flow) : Q := X (f_iats f).
Definition fwd_iat_min (f : Flow) : Q := N (f_iats f).
Definition bwd_iat_mean (f : Flow) : Q := M (b_iats f).
Definition bwd_iat_std (f : Flow) : Q := S (b_iats f).
Definition bwd_iat_max (f : Flow) : Q := X (b_iats f).
Definition bwd_iat_min (f : Flow) : Q := N (b_iats f).

End Columns.
End Row.

(** [total fwd packets] and [total backward packets] of a row. *)
Definition total_fwd_packets (f : Flow) : nat := length (fwd_lengths f).
Definition total_backward_packets (f : Flow) : nat := length (bwd_lengths f).

(** Packets an accumulator holds on one side, and on both. *)
Definition side_packets (d : Direction) (f : Flow) : nat :=
  match d with
  | Fwd => total_fwd_packets f
  | Bwd => total_backward_packets f
  end.

Definition flow_packets (f : Flow) : nat :=
  (total_fwd_packets f + total_backward_packets f)%nat.

(** The sum of [flow_packets] over [flows.values()]. *)
Definition total_packets {K : Type} (flows : list (K * Flow)) : nat :=
  fold_right (fun kf acc => (flow_packets (snd kf) + acc)%nat) 0%nat flows.

(** Packets filed under one (key, direction) pair; none when the key has
    no accumulator. *)
Definition packets_at {K : Type} (eqb : K -> K -> bool)
    (flows : list (K * Flow)) (key : K) (d : Direction) : nat :=
  match dict_get eqb flows key with
  | Some f => side_packets d f
  | None => 0%nat
  end.

(* ------------------------------------------------------------------ *)
(** ** Stated laws and sample inputs *)

(** The timestamps of the idle-gap scenario: 0, 0.2, 0.4, 2.0, 2.2. *)
Definition scenario_times : list Q := [0; 2 # 10; 4 # 10; 2; 22 # 10].

(** The round-trip law of the analyzer on one input. *)
Definition active_idle_law (ts : list Q) (threshold : Q) : Prop :=
  let '(active, idle) := compute_active_idle ts threshold in
  Qsum active + Qsum idle == last ts 0 - hd 0 ts
  /\ length active = (length idle + 1)%nat.

(** A TCP segment of 100 bytes with a 20-byte header and window 512. *)
Definition tcp_packet (ts : Q) (src sport dst dport : string)
    (flags : field Z) : Packet :=
  mkPacket (Value ts) (Some src) (Some dst) (Some sport) (Some dport)
    "TCP"%string (Value 100%Z) (Value 20%Z) (Value 512%Z) flags.

Definition client : string := "10.0.0.1"%string.
Definition server : string := "10.0.0.2"%string.

(** Client to server, flags PSH+ACK. *)
Definition request (ts : Q) : Packet :=
  tcp_packet ts client "40000"%string server "80"%string (Value 24%Z).

(** Server to client, flags ACK. *)
Definition reply (ts : Q) : Packet :=
  tcp_packet ts server "80"%string client "40000"%string (Value 16%Z).

Definition request_key : BaseKey :=
  (client, "40000"%string, server, "80"%string, "TCP"%string).
Definition reply_key : BaseKey :=
  (server, "80"%string, client, "40000"%string, "TCP"%string).

(** Three requests of one flow at seconds 0, 1 and 3. *)
Definition three_requests : list Packet := [request 0; request 1; request 3].

(** A request answered by a reply. *)
Definition exchange : list Packet := [request 0; reply 1].

(** A request whose flag text does not parse, and one whose length text
    does not parse. *)
Definition garbled_flags : Packet :=
  tcp_packet 3 client "40000"%string server "80"%string Garbled.

Definition garbled_length : Packet :=
  mkPacket (Value 3) (Some client) (Some server) (Some "40000"%string)
    (Some "80"%string) "TCP"%string Garbled (Value 20%Z) (Value 512%Z)
    (Value 24%Z).

(** An accumulator that has seen no backward packet. *)
Definition no_backward (f : Flow) : Prop :=
  bwd_times f = [] /\ bwd_lengths f = [] /\ bwd_hdrs f = []
  /\ bwd_psh f = 0%Z /\ bwd_urg f = 0%Z /\ init_win_bwd f = None.

(** A computation on an accumulator keeps a property of it, whether it
    finishes or raises. *)
Definition preserves {A : Type} (P : Flow -> Prop) (m : FlowM A) : Prop :=
  forall f, P f -> P (snd (m f)).

(** Between two states of the flow table exactly the pair [kd] gained a
    packet: its count went up by one and no other count moved. *)
Definition filed_under {K : Type} (eqb : K -> K -> bool)
    (before after : list (K * Flow)) (kd : K * Direction) : Prop :=
  packets_at eqb after (fst kd) (snd kd)
    = S (packets_at eqb before (fst kd) (snd kd))
  /\ forall kd' : K * Direction,
       kd' <> kd ->
       packets_at eqb after (fst kd') (snd kd')
         = packets_at eqb before (fst kd') (snd kd').

(** A packet of the conversation [base]: its endpoints and transport
    layer read as that key. *)
Definition carries (base : BaseKey) (pkt : Packet) : Prop :=
  exists ts src sport dst dport,
    endpoints pkt = Some (ts, (src, sport, dst, dport))
    /\ base = (src, sport, dst, dport, transport_layer pkt).

(** The timestamp of a packet that has one. *)
Definition timestamp (pkt : Packet) : Q :=
  match sniff_timestamp pkt with
  | Value ts => ts
  | Absent | Garbled => 0
  end.

(** The state of the subflow-bounded script after the first [n] packets
    (one at least) of a single conversation [base] whose timestamps, in
    arrival order, are [stamps]: subflows [0 .. i-1] are full, subflow
    [i] started with packet number [20 * i] and holds the remaining [c]
    packets. *)
Definition subflow_inv (base : BaseKey) (stamps : list Q) (n : nat)
    (st : Benign.State) : Prop :=
  exists (i c : nat) (full : list (Benign.Key * Flow)) (f : Flow),
    n = (Benign.MAX_PKTS_PER_SUBFLOW * i + c)%nat
    /\ (1 <= c <= Benign.MAX_PKTS_PER_SUBFLOW)%nat
    /\ Benign.flow_meta st
       = [(base, Benign.mkMeta i
                   (nth (Benign.MAX_PKTS_PER_SUBFLOW * i) stamps 0) c)]
    /\ Benign.flows st = full ++ [((base, i), f)]
    /\ map fst full = map (fun j => (base, j)) (seq 0 i)
    /\ Forall (fun kf => length (times (snd kf)) = Benign.MAX_PKTS_PER_SUBFLOW
                         /\ flow_packets (snd kf) = Benign.MAX_PKTS_PER_SUBFLOW)
              full
    /\ length (times f) = c
    /\ flow_packets f = c.

(** Rotation by duration never fires in a conversation with these
    timestamps: no packet comes more than the maximum duration after
    the packet that started its block of 20. *)
Definition within_duration (stamps : list Q) : Prop :=
  forall i c : nat,
    (c < Benign.MAX_PKTS_PER_SUBFLOW)%nat ->
    (Benign.MAX_PKTS_PER_SUBFLOW * i + c < length stamps)%nat ->
    nth (Benign.MAX_PKTS_PER_SUBFLOW * i + c) stamps 0
    - nth (Benign.MAX_PKTS_PER_SUBFLOW * i) stamps 0
    <= Benign.MAX_FLOW_DURATION.

(** A conversation of 45 requests, one every tenth of a second. *)
Definition conversation45 : list Packet :=
  map (fun k => request (inject_Z (Z.of_nat k) / 10)) (seq 0 45).

(** The final segment of [collect_bulks], after the loop. *)
Definition final_segment (ts : list Q) (ls : list Z) (min_pkts min_bytes : Z)
    (state : list Bulk * nat) : option (list Bulk) :=
  let '(bulks, s) := state in
  let count := (Z.of_nat (length ts) - Z.of_nat s)%Z in
  let bsum := Zsum (skipn s ls) in
  if qualifies min_pkts min_bytes count bsum
  then
    match ts with
    | [] => None
    | _ :: _ => Some (bulks ++ [mk_bulk count bsum (last ts 0) (nth s ts 0)])
    end
  else Some bulks.

(** What the detector records for a run. *)
Definition bulk_of_run (r : list (Q * Z)) : Bulk :=
  (run_packets r, run_bytes r, run_rate r).

(** Inside a run every gap stays below the threshold. *)
Fixpoint gaps_below (threshold prev : Q) (l : list (Q * Z)) : Prop :=
  match l with
  | [] => True
  | p :: t => fst p - prev < threshold /\ gaps_below threshold (fst p) t
  end.

Definition run_tight (threshold : Q) (r : list (Q * Z)) : Prop :=
  match r with
  | [] => False
  | p :: t => gaps_below threshold (fst p) t
  end.

(** From one run to the next the gap reaches the threshold. *)
Fixpoint runs_separated (threshold : Q) (rs : list (list (Q * Z))) : Prop :=
  match rs with
  | r1 :: ((r2 :: _) as t) =>
      threshold <= run_first r2 - run_last r1 /\ runs_separated threshold t
  | _ => True
  end.

(** The bulk scenario: four packets of 600 bytes, a tenth of a second
    apart. *)
Definition bulk_times : list Q := [0; 1 # 10; 2 # 10; 3 # 10].
Definition bulk_lengths : list Z := [600; 600; 600; 600]%Z.

(* ------------------------------------------------------------------ *)
(** ** Feature rows: counts, ratios and flag totals *)

(** Timestamps in arrival order that never go back. *)
Fixpoint ascending (l : list Q) : Prop :=
  match l with
  | a :: (b :: _) as t => a <= b /\ ascending t
  | _ => True
  end.

Module Aggregate.

(** [cnts = dict(fin=0, syn=0, rst=0, psh=0, ack=0, urg=0, ece=0, cwr=0)]. *)
Record Cnts : Type := mkCnts {
  fin : Z;
  syn : Z;
  rst : Z;
  psh : Z;
  ack : Z;
  urg : Z;
  ece : Z;
  cwr : Z
}.

Definition no_flags : Cnts := mkCnts 0 0 0 0 0 0 0 0.

(** The body of [for hx in f["flags_hex"]]: an entry that [int(hx, 0)]
    rejects is skipped, the others add their eight bits. *)
Definition count_step (cnts : Cnts) (hx : option Z) : Cnts :=
  match hx with
  | None => cnts
  | Some v =>
      mkCnts (fin cnts + Z.land v 1) (syn cnts + flag_bit v 1)
             (rst cnts + flag_bit v 2) (psh cnts + flag_bit v 3)
             (ack cnts + flag_bit v 4) (urg cnts + flag_bit v 5)
             (ece cnts + flag_bit v 6) (cwr cnts + flag_bit v 7)
  end%Z.

Definition count_flags (flags : list (option Z)) : Cnts :=
  fold_left count_step flags no_flags.

(** [dur = max((f["end"] - f["start"]).total_seconds(), 1e-4)]. *)
Definition dur (f : Flow) : Q := Qmax (end_ f - start f) (1 # 10000).

Definition tfp (f : Flow) : Z := Z.of_nat (length (fwd_lengths f)).
Definition tbp (f : Flow) : Z := Z.of_nat (length (bwd_lengths f)).
Definition tp (f : Flow) : Z := Z.of_nat (length (lengths f)).
Definition tb (f : Flow) : Z := Zsum (lengths f).
Definition tfb (f : Flow) : Z := Zsum (fwd_lengths f).
Definition tbb (f : Flow) : Z := Zsum (bwd_lengths f).

(** A list of integers as the sample [safe_stat] receives. *)
Definition int_list (l : list Z) : PySeq := PyList (map inject_Z l).

(** ["packet length mean"], ["fwd packet length mean"],
    ["bwd packet length mean"] and the matching max and min columns. *)
Definition packet_length_mean (f : Flow) : Q := Row.M (int_list (lengths f)).
Definition fwd_packet_length_mean (f : Flow) : Q :=
  Row.M (int_list (fwd_lengths f)).
Definition bwd_packet_length_mean (f : Flow) : Q :=
  Row.M (int_list (bwd_lengths f)).
Definition bwd_packet_length_max (f : Flow) : Q :=
  Row.X (int_list (bwd_lengths f)).
Definition bwd_packet_length_min (f : Flow) : Q :=
  Row.N (int_list (bwd_lengths f)).
Definition bwd_header_length (f : Flow) : Q := Row.M (int_list (bwd_hdrs f)).

(** ["down/up ratio"]: [tbp / tfp if tfp > 0 else 0]. *)
Definition down_up_ratio (f : Flow) : Q :=
  if (0 <? tfp f)%Z then inject_Z (tbp f) / inject_Z (tfp f) else 0.

(** ["average packet size"]: [tb / max(tp, 1)], and the two segment
    sizes [tfb / max(tfp, 1)], [tbb / max(tbp, 1)]. *)
Definition average_packet_size (f : Flow) : Q :=
  inject_Z (tb f) / inject_Z (Z.max (tp f) 1).
Definition avg_fwd_segment_size (f : Flow) : Q :=
  inject_Z (tfb f) / inject_Z (Z.max (tfp f) 1).
Definition avg_bwd_segment_size (f : Flow) : Q :=
  inject_Z (tbb f) / inject_Z (Z.max (tbp f) 1).

(** ["fwd iat total"] and ["bwd iat total"]: [sum(f_iats)], [sum(b_iats)]. *)
Definition fwd_iat_total (f : Flow) : Q := Qsum (items (Row.f_iats f)).
Definition bwd_iat_total (f : Flow) : Q := Qsum (items (Row.b_iats f)).

(** ["init_win_bytes_forward"]: [f["init_win_fwd"] or 0], and the
    backward one. *)
Definition or_zero (w : option Z) : Z :=
  match w with
  | Some v => if (v =? 0)%Z then 0%Z else v
  | None => 0%Z
  end.
Definition init_win_bytes_forward (f : Flow) : Z := or_zero (init_win_fwd f).
Definition init_win_bytes_backward (f : Flow) : Z := or_zero (init_win_bwd f).

(** [active, idle = compute_active_idle(ts_sorted, IDLE_THRESHOLD)]. *)
Definition active_idle (f : Flow) : list Q * list Q :=
  compute_active_idle (sorted (times f)) IDLE_THRESHOLD.

(** [bulk_f] and [bulk_b]. *)
Definition bulk_f (f : Flow) : option BulkMetrics :=
  compute_bulk_metrics (sorted (fwd_times f)) (fwd_lengths f)
    BULK_MIN_PKTS BULK_MIN_BYTES IDLE_THRESHOLD.
Definition bulk_b (f : Flow) : option BulkMetrics :=
  compute_bulk_metrics (sorted (bwd_times f)) (bwd_lengths f)
    BULK_MIN_PKTS BULK_MIN_BYTES IDLE_THRESHOLD.

End Aggregate.

(** The accumulator the loop body works on: the one stored under [key],
    or the one it has just created. *)
Definition flow_or_new {K : Type} (eqb : K -> K -> bool)
    (flows : list (K * Flow)) (key : K) (ts : Q) : Flow :=
  match dict_get eqb flows key with
  | Some f => f
  | None => new_flow ts
  end.

(** The lists of an accumulator that are appended together have the
    same length; flags and per-direction entries never outnumber the
    timestamps. *)
Definition aligned (f : Flow) : Prop :=
  length (lengths f) = length (times f)
  /\ length (fwd_lengths f) = length (fwd_times f)
  /\ length (fwd_hdrs f) = length (fwd_times f)
  /\ length (bwd_lengths f) = length (bwd_times f)
  /\ length (bwd_hdrs f) = length (bwd_times f)
  /\ (length (fwd_times f) + length (bwd_times f) <= length (times f))%nat
  /\ (length (flags_hex f) <= length (fwd_times f) + length (bwd_times f))%nat.

(** The reversed orientation of a flow key. *)
Definition reverse_key (k : BaseKey) : BaseKey :=
  let '(a, pa, b, pb, proto) := k in (b, pb, a, pa, proto).

(** The timestamps of the packets of a capture whose timestamp and
    endpoints can be read, in arrival order. *)
Definition readable_stamps (cap : list Packet) : list Q :=
  flat_map (fun pkt => match endpoints pkt with
                       | Some (ts, _) => [ts]
                       | None => []
                       end) cap.

Definition readable (pkt : Packet) : bool := is_some (endpoints pkt).

(** The subflow record the subflow-bounded script settles on for a
    packet of [base] at [ts], before it counts the packet. *)
Definition meta_for (st : Benign.State) (base : BaseKey) (ts : Q)
  : Benign.Meta :=
  Benign.rotate
    match dict_get BaseKey_eqb (Benign.flow_meta st) base with
    | Some m => m
    | None => Benign.mkMeta 0 ts 0
    end ts.

(** The per-direction PSH and URG counters add up to the PSH and URG
    totals decoded from the recorded flag entries. *)
Definition flags_agree (f : Flow) : Prop :=
  Aggregate.psh (Aggregate.count_flags (flags_hex f))
    = (fwd_psh f + bwd_psh f)%Z
  /\ Aggregate.urg (Aggregate.count_flags (flags_hex f))
     = (fwd_urg f + bwd_urg f)%Z.

(** The flow key the whole-flow script builds from a packet's
    endpoints. *)
Definition attack_key (ep : string * string * string * string) : BaseKey :=
  let '(src, sport, dst, dport) := ep in (src, sport, dst, dport, "TCP"%string).

Definition reverse_endpoints (ep : string * string * string * string)
  : string * string * string * string :=
  let '(src, sport, dst, dport) := ep in (dst, dport, src, sport).

(** Every accumulator of a table starts no later than it ends, and ends
    no later than [T]. *)
Definition ends_by {K : Type} (T : Q) (flows : list (K * Flow)) : Prop :=
  Forall (fun kf => start (snd kf) <= end_ (snd kf) /\ end_ (snd kf) <= T)
         flows.

(** A table of the whole-flow script never holds a key together with
    its reverse. *)
Definition one_orientation (flows : Attack.Flows) : Prop :=
  forall k : BaseKey,
    dict_mem BaseKey_eqb flows k = true ->
    dict_mem BaseKey_eqb flows (reverse_key k) = true ->
    k = reverse_key k.

(** What holds of one entry of the subflows table, given the records
    in [flow_meta]: its base has a record, its index is not ahead of
    the record's, it holds at most the maximum number of timestamps and
    spans at most the maximum duration, and when it is the current
    subflow of its base it holds no more timestamps than were counted
    and started when the record says. *)
Definition subflow_entry_ok (metas : list (BaseKey * Benign.Meta))
    (kf : Benign.Key * Flow) : Prop :=
  exists m : Benign.Meta,
    dict_get BaseKey_eqb metas (fst (fst kf)) = Some m
    /\ (snd (fst kf) <= Benign.idx m)%nat
    /\ (length (times (snd kf)) <= Benign.MAX_PKTS_PER_SUBFLOW)%nat
    /\ end_ (snd kf) - start (snd kf) <= Benign.MAX_FLOW_DURATION
    /\ (snd (fst kf) = Benign.idx m ->
        (length (times (snd kf)) <= Benign.pkt_count m)%nat
        /\ start (snd kf) = Benign.start_ts m).

Definition subflow_bounds (st : Benign.State) : Prop :=
  (forall b m,
      dict_get BaseKey_eqb (Benign.flow_meta st) b = Some m ->
      (Benign.pkt_count m <= Benign.MAX_PKTS_PER_SUBFLOW)%nat
      /\ dict_mem Benign.Key_eqb (Benign.flows st) (b, Benign.idx m) = true)
  /\ Forall (subflow_entry_ok (Benign.flow_meta st)) (Benign.flows st).

(** The backward columns of a row that are all zero when the flow has
    no backward packet. *)
Definition backward_columns_zero (f : Flow) : Prop :=
  Aggregate.tbp f = 0%Z
  /\ Aggregate.tbb f = 0%Z
  /\ Aggregate.down_up_ratio f == 0
  /\ Aggregate.bwd_packet_length_mean f = 0
  /\ Aggregate.bwd_packet_length_max f = 0
  /\ Aggregate.bwd_packet_length_min f = 0
  /\ Aggregate.bwd_header_length f = 0
  /\ Aggregate.avg_bwd_segment_size f == 0
  /\ Aggregate.bwd_iat_total f == 0
  /\ (forall func, safe_stat (Row.b_iats f) func 0 = 0)
  /\ Aggregate.bulk_b f = Some no_bulk
  /\ Aggregate.init_win_bytes_backward f = 0%Z
  /\ bwd_psh f = 0%Z
  /\ bwd_urg f = 0%Z.

(** The subflows of every conversation are numbered from 0 to the
    index in its record, without a gap. *)
Definition subflows_consecutive (st : Benign.State) : Prop :=
  forall (b : BaseKey) (j : nat),
    dict_mem Benign.Key_eqb (Benign.flows st) (b, j) = true
    <-> exists m, dict_get BaseKey_eqb (Benign.flow_meta st) b = Some m
                  /\ (j <= Benign.idx m)%nat.

(** An accumulator that has only seen packets the loop body processed
    to the end: [start] and [end] are its first and last timestamps,
    every timestamp is on one side, and every packet left a flag
    entry. *)
Definition complete (f : Flow) : Prop :=
  times f <> []
  /\ start f = hd 0 (times f)
  /\ end_ f = last (times f) 0
  /\ length (times f) = (length (fwd_times f) + length (bwd_times f))%nat
  /\ length (flags_hex f) = length (times f).

(** The timestamps of an accumulator are in ascending order and none is
    later than [T]. *)
Definition times_by (T : Q) (f : Flow) : Prop :=
  ascending (times f) /\ Forall (fun t => t <= T) (times f).

(* ================================================================== *)
(** * Properties *)

(** ** Comparisons and sums *)

Lemma Qge_bool_iff (a b : Q) : Qge_bool a b = true <-> b <= a.
Proof. unfold Qge_bool. apply Qle_bool_iff. Qed.

Lemma Qgt_bool_iff (a b : Q) : Qgt_bool a b = true <-> b < a.
Proof.
  unfold Qgt_bool. rewrite negb_true_iff.
  split; intro H.
  - apply Qnot_le_lt. intro Hle. apply Qle_bool_iff in Hle. congruence.
  - destruct (Qle_bool a b) eqn:E; [|reflexivity].
    apply Qle_bool_iff in E. exfalso. apply (Qlt_not_le _ _ H E).
Qed.

Lemma Qsum_snoc (l : list Q) (x : Q) : Qsum (l ++ [x]) == Qsum l + x.
Proof.
  induction l as [|a l IH]; simpl.
  - ring.
  - rewrite IH. ring.
Qed.

Lemma Zsum_app (l1 l2 : list Z) : Zsum (l1 ++ l2) = (Zsum l1 + Zsum l2)%Z.
Proof.
  induction l1 as [|a l1 IH]; simpl; [reflexivity|]. rewrite IH. lia.
Qed.

(** ** [np.diff] against indexing *)

Lemma np_diff_skipn_cons (ts : list Q) :
  forall (i : nat) (dt : Q) (rest : list Q),
    np_diff (skipn i ts) = dt :: rest ->
    dt = nth (S i) ts 0 - nth i ts 0 /\ rest = np_diff (skipn (S i) ts).
Proof.
  induction ts as [|a t IH]; intros i dt rest H.
  - destruct i; discriminate H.
  - destruct i as [|i].
    + destruct t as [|b t']; [discriminate H|].
      simpl in H. injection H as Hdt Hrest. split; [now subst|].
      now subst.
    + simpl in H. apply IH in H. exact H.
Qed.

(** ** The safe statistic on numpy arrays *)

Lemma safe_stat_array_default (l : list Q) (func : list Q -> option Q)
    (default : Q) :
  (2 <= length l)%nat -> safe_stat (NdArray l) func default = default.
Proof.
  intro H. destruct l as [|a [|b t]]; simpl in H; try lia. reflexivity.
Qed.

(** C9: on a numpy array of two or more elements [safe_stat] returns the
    default, whatever the elements and whatever the reduction: taking
    the truth value of such an array raises, and the handler answers
    the default. *)
Theorem safe_stat_ndarray_default :
  forall (l : list Q) (func : list Q -> option Q) (default : Q),
    (2 <= length l)%nat ->
    truth (NdArray l) = None /\ safe_stat (NdArray l) func default = default.
Proof.
  intros l func default Hlen.
  destruct l as [|a [|b t]]; simpl in Hlen; try lia.
  split; reflexivity.
Qed.

Lemma safe_stat_ndarray_default_witness :
  (2 <= length [1%Q; 2%Q])%nat
  /\ truth (NdArray [1; 2]) = None
  /\ safe_stat (NdArray [1; 2]) np_mean 0 = 0.
Proof.
  split; [simpl; lia|].
  apply (safe_stat_ndarray_default [1; 2] np_mean 0). simpl. lia.
Defined.

(** ** Active and idle periods *)

Lemma active_idle_loop_inv (ts : list Q) (threshold : Q) :
  forall (deltas : list Q) (i : nat) (active idle : list Q) (s : nat),
    deltas = np_diff (skipn i ts) ->
    Qsum active + Qsum idle == nth s ts 0 - nth 0 ts 0 ->
    length active = length idle ->
    let '(active', idle', s') :=
      active_idle_loop ts threshold deltas i active idle s in
    Qsum active' + Qsum idle' == nth s' ts 0 - nth 0 ts 0
    /\ length active' = length idle'.
Proof.
  induction deltas as [|dt rest IH]; intros i active idle s Hd Hsum Hlen.
  - simpl. split; assumption.
  - simpl. symmetry in Hd. apply np_diff_skipn_cons in Hd.
    destruct Hd as [Hdt Hrest].
    destruct (Qge_bool dt threshold).
    + apply IH; [exact Hrest| |].
      * rewrite !Qsum_snoc, Hdt. lra.
      * rewrite !length_app. simpl. lia.
    + apply IH; assumption.
Qed.

Lemma last_nth_hd (ts : list Q) : hd 0 ts = nth 0 ts 0.
Proof. destruct ts; reflexivity. Qed.

(** C4 (amended): with two or more timestamps the active spans and the
    idle gaps add up to the last timestamp minus the first, and there is
    one more active span than idle gaps; with fewer than two timestamps
    both sequences are empty, so their lengths are equal. *)
Theorem active_idle_round_trip :
  forall (ts : list Q) (threshold : Q),
    ((length ts < 2)%nat -> compute_active_idle ts threshold = ([], []))
    /\ ((2 <= length ts)%nat -> active_idle_law ts threshold).
Proof.
  intros ts threshold. split; intro Hlen.
  - unfold compute_active_idle.
    apply Nat.ltb_lt in Hlen. now rewrite Hlen.
  - unfold active_idle_law, compute_active_idle.
    assert (Hge : (length ts <? 2)%nat = false) by (apply Nat.ltb_ge; exact Hlen).
    rewrite Hge.
    pose proof (active_idle_loop_inv ts threshold (np_diff ts) 0 [] [] 0) as H.
    destruct (active_idle_loop ts threshold (np_diff ts) 0 [] [] 0)
      as [[active idle] s].
    destruct H as [Hsum Hl]; [reflexivity|simpl; ring|reflexivity|].
    split.
    + rewrite Qsum_snoc, last_nth_hd. lra.
    + rewrite length_app. simpl. lia.
Qed.

Lemma active_idle_round_trip_witness :
  (2 <= length scenario_times)%nat
  /\ active_idle_law scenario_times IDLE_THRESHOLD.
Proof.
  split; [simpl; lia|].
  apply (active_idle_round_trip scenario_times IDLE_THRESHOLD).
  simpl. lia.
Defined.

(** C4 as stated fails on a sequence of one timestamp: the analyzer
    returns no active span at all, not one more than the idle gaps. *)
Lemma active_idle_singleton_counterexample :
  ~ active_idle_law [5] IDLE_THRESHOLD.
Proof.
  unfold active_idle_law. simpl. intros [_ H]. discriminate H.
Qed.

(** ** The inter-arrival columns *)

Lemma insert_sorted_length (x : Q) (l : list Q) :
  length (insert_sorted x l) = S (length l).
Proof.
  induction l as [|y t IH]; simpl; [reflexivity|].
  destruct (Qle_bool y x); simpl; [now rewrite IH|reflexivity].
Qed.

Lemma sorted_length (l : list Q) : length (sorted l) = length l.
Proof.
  unfold sorted.
  enough (H : forall acc, length (fold_left (fun a x => insert_sorted x a) l acc)
                          = (length acc + length l)%nat) by apply (H []).
  induction l as [|x t IH]; intro acc; simpl.
  - lia.
  - rewrite IH, insert_sorted_length. lia.
Qed.

Lemma np_diff_length (l : list Q) : length (np_diff l) = (length l - 1)%nat.
Proof.
  induction l as [|a t IH]; [reflexivity|].
  destruct t as [|b t']; [reflexivity|].
  change (np_diff (a :: b :: t')) with ((b - a) :: np_diff (b :: t')).
  simpl length in *. rewrite IH. lia.
Qed.

(** Every column computed by [safe_stat] from the inter-arrival array of
    three or more timestamps is the default. *)
Lemma iat_column_default (ts : list Q) (func : list Q -> option Q) :
  (3 <= length ts)%nat ->
  safe_stat (NdArray (np_diff (sorted ts))) func 0 = 0.
Proof.
  intro H. apply safe_stat_array_default.
  rewrite np_diff_length, sorted_length. lia.
Qed.

(** C1 (the code departs from it): for the flow assembled from three
    requests at seconds 0, 1 and 3 the inter-arrival sequence is 1, 2,
    with mean 3/2, maximum 2 and minimum 1, but the row carries 0.0 in
    'flow iat mean/std/max/min' and in 'fwd iat mean/std/max/min'. *)
Theorem iat_columns_of_three_requests :
  exists f : Flow,
    Attack.ingest three_requests = [(request_key, f)]
    /\ inter_arrival (times f) = [1 - 0; 3 - 1]
    /\ inter_arrival (fwd_times f) = [1 - 0; 3 - 1]
    /\ (exists m, np_mean (inter_arrival (times f)) = Some m /\ m == 3 # 2)
    /\ (exists m, np_max (inter_arrival (times f)) = Some m /\ m == 2)
    /\ (exists m, np_min (inter_arrival (times f)) = Some m /\ m == 1)
    /\ Row.flow_iat_mean f = 0 /\ Row.flow_iat_max f = 0 /\ Row.flow_iat_min f = 0
    /\ Row.fwd_iat_mean f = 0 /\ Row.fwd_iat_max f = 0 /\ Row.fwd_iat_min f = 0
    /\ (forall np_std, Row.flow_iat_std np_std f = 0 /\ Row.fwd_iat_std np_std f = 0).
Proof.
  eexists. split; [vm_compute; reflexivity|].
  repeat split; try reflexivity.
  - eexists. split; [reflexivity|]. vm_compute. reflexivity.
  - eexists. split; [reflexivity|]. vm_compute. reflexivity.
  - eexists. split; [reflexivity|]. vm_compute. reflexivity.
Qed.

(** ** Direction in the subflow-bounded script *)

(** C2 (the code departs from it): a request at second 0 answered by a
    reply at second 1.  The whole-flow script files the reply under the
    request's flow as a backward packet.  The subflow-bounded script
    files it under a key of its own, as a forward packet, and the
    request's subflow receives no backward packet. *)
Theorem reply_opens_its_own_subflow :
  (exists f,
      Attack.ingest exchange = [(request_key, f)]
      /\ fwd_times f = [0] /\ bwd_times f = [1])
  /\ (exists f g,
      Benign.flows (Benign.ingest exchange)
        = [((request_key, 0%nat), f); ((reply_key, 0%nat), g)]
      /\ fwd_times f = [0] /\ bwd_times f = []
      /\ fwd_times g = [1] /\ bwd_times g = []
      /\ bwd_lengths f = [] /\ bwd_hdrs f = []
      /\ bwd_psh f = 0%Z /\ bwd_urg f = 0%Z).
Proof.
  split.
  - eexists. split; [vm_compute; reflexivity|]. split; reflexivity.
  - do 2 eexists. split; [vm_compute; reflexivity|].
    repeat split; reflexivity.
Qed.

(** ** Packets that fail to decode *)

(** A packet whose timestamp or endpoints cannot be read is skipped
    before anything is written. *)
Lemma attack_skips_without_endpoints (flows : Attack.Flows) (pkt : Packet) :
  endpoints pkt = None -> Attack.process_packet flows pkt = flows.
Proof. intro H. unfold Attack.process_packet. now rewrite H. Qed.

Lemma benign_skips_without_endpoints (st : Benign.State) (pkt : Packet) :
  endpoints pkt = None -> Benign.process_packet st pkt = st.
Proof. intro H. unfold Benign.process_packet. now rewrite H. Qed.

(** C3 (the code departs from it): a packet that fails later in the loop
    body has already been written to an accumulator.  After one request,
    a second one with an unreadable flag text adds its timestamp, length
    and header to the flow and moves [end]; on an empty table a packet
    with an unreadable length leaves a new, empty accumulator behind.
    Both scripts behave alike, and the subflow-bounded one has also
    counted the packet in [pkt_count]. *)
Theorem malformed_packet_is_partly_recorded :
  well_formed garbled_flags = false
  /\ well_formed garbled_length = false
  /\ (exists f f',
        Attack.ingest [request 0] = [(request_key, f)]
        /\ Attack.process_packet (Attack.ingest [request 0]) garbled_flags
           = [(request_key, f')]
        /\ times f = [0] /\ times f' = [0; 3]
        /\ end_ f = 0 /\ end_ f' = 3
        /\ lengths f' = [100; 100]%Z /\ fwd_hdrs f' = [20; 20]%Z
        /\ flags_hex f' = [Some 24%Z; None])
  /\ Attack.process_packet [] garbled_length = [(request_key, new_flow 3)]
  /\ (exists f f',
        Benign.flows (Benign.ingest [request 0]) = [((request_key, 0%nat), f)]
        /\ Benign.flows
             (Benign.process_packet (Benign.ingest [request 0]) garbled_flags)
           = [((request_key, 0%nat), f')]
        /\ times f = [0] /\ times f' = [0; 3]
        /\ end_ f = 0 /\ end_ f' = 3)
  /\ Benign.process_packet Benign.init garbled_length
     = Benign.mkState [(request_key, Benign.mkMeta 0 3 1)]
                      [((request_key, 0%nat), new_flow 3)].
Proof.
  split; [reflexivity|]. split; [reflexivity|].
  split.
  { do 2 eexists. split; [vm_compute; reflexivity|].
    split; [vm_compute; reflexivity|]. repeat split; reflexivity. }
  split; [vm_compute; reflexivity|].
  split.
  { do 2 eexists. split; [vm_compute; reflexivity|].
    split; [vm_compute; reflexivity|]. repeat split; reflexivity. }
  vm_compute. reflexivity.
Qed.

(** ** Reasoning about a loop body that may raise *)

Section Preserves.
Variable P : Flow -> Prop.

Lemma preserves_ret {A : Type} (a : A) : preserves P (ret a).
Proof. intros f H. exact H. Qed.

Lemma preserves_raise {A : Type} : preserves P (@raise A).
Proof. intros f H. exact H. Qed.

Lemma preserves_read {A : Type} (g : Flow -> A) : preserves P (read g).
Proof. intros f H. exact H. Qed.

Lemma preserves_update (g : Flow -> Flow) :
  (forall f, P f -> P (g f)) -> preserves P (update g).
Proof. intros Hg f H. apply Hg, H. Qed.

Lemma preserves_bind {A B : Type} (m : FlowM A) (k : A -> FlowM B) :
  preserves P m -> (forall a, preserves P (k a)) -> preserves P (bind m k).
Proof.
  intros Hm Hk f H. unfold bind.
  specialize (Hm f H).
  destruct (m f) as [[a|] f']; simpl in *.
  - apply Hk, Hm.
  - exact Hm.
Qed.

Lemma preserves_int_of (x : field Z) : preserves P (int_of x).
Proof. destruct x; intros f H; exact H. Qed.

Lemma preserves_int_or_zero (x : field Z) : preserves P (int_or_zero x).
Proof. destruct x; intros f H; exact H. Qed.
End Preserves.

Ltac preserves_step :=
  lazymatch goal with
  | |- preserves _ (bind _ _) => apply preserves_bind; [|intro]
  | |- preserves _ (update _) => apply preserves_update
  | |- preserves _ (ret _) => apply preserves_ret
  | |- preserves _ raise => apply preserves_raise
  | |- preserves _ (read _) => apply preserves_read
  | |- preserves _ (int_of _) => apply preserves_int_of
  | |- preserves _ (int_or_zero _) => apply preserves_int_or_zero
  | |- preserves _ (match ?x with _ => _ end) => destruct x
  end;
  cbv beta iota.

(** The forward branch never writes a backward entry. *)
Lemma accumulate_forward_no_backward (pkt : Packet) (ts : Q) :
  preserves no_backward (accumulate pkt ts true).
Proof.
  unfold accumulate. cbv beta iota.
  repeat preserves_step;
    intros f H; destruct f; exact H.
Qed.

(** ** Dictionaries *)

Section DictFacts.
Context {K V : Type}.
Variable eqb : K -> K -> bool.
Hypothesis eqb_eq : forall a b, eqb a b = true <-> a = b.

Lemma eqb_refl_of (a : K) : eqb a a = true.
Proof. now apply eqb_eq. Qed.

Lemma dict_get_set_same (d : list (K * V)) (k : K) (v : V) :
  dict_get eqb (dict_set eqb d k v) k = Some v.
Proof.
  induction d as [|[k' v'] d IH]; simpl.
  - now rewrite eqb_refl_of.
  - destruct (eqb k k') eqn:E; simpl.
    + now rewrite eqb_refl_of.
    + now rewrite E.
Qed.

Lemma dict_get_set_other (d : list (K * V)) (k k' : K) (v : V) :
  k' <> k -> dict_get eqb (dict_set eqb d k v) k' = dict_get eqb d k'.
Proof.
  intro Hne.
  assert (Hkk : eqb k' k = false).
  { destruct (eqb k' k) eqn:E; [|reflexivity]. apply eqb_eq in E. contradiction. }
  induction d as [|[k0 v0] d IH]; simpl.
  - now rewrite Hkk.
  - destruct (eqb k k0) eqn:E; simpl.
    + apply eqb_eq in E. subst k0. now rewrite Hkk.
    + destruct (eqb k' k0); [reflexivity|exact IH].
Qed.

Lemma dict_set_Forall (P : K * V -> Prop) (d : list (K * V)) (k : K) (v : V) :
  Forall P d -> P (k, v) -> Forall P (dict_set eqb d k v).
Proof.
  intros Hd Hv. induction Hd as [|[k' v'] d Hx Hd IH]; simpl.
  - constructor; [exact Hv|constructor].
  - destruct (eqb k k'); constructor; assumption.
Qed.

Lemma dict_get_Forall (P : K * V -> Prop) (d : list (K * V)) (k : K) (v : V) :
  Forall P d -> dict_get eqb d k = Some v -> P (k, v).
Proof.
  intros Hd. induction Hd as [|[k' v'] d Hx Hd IH]; simpl; [discriminate|].
  destruct (eqb k k') eqn:E.
  - intro H. injection H as <-. apply eqb_eq in E. now subst.
  - exact IH.
Qed.
End DictFacts.

Lemma BaseKey_eqb_eq (a b : BaseKey) : BaseKey_eqb a b = true <-> a = b.
Proof.
  destruct a as [[[[a1 a2] a3] a4] a5], b as [[[[b1 b2] b3] b4] b5].
  unfold BaseKey_eqb. rewrite !andb_true_iff, !String.eqb_eq.
  split.
  - intros [[[[-> ->] ->] ->] ->]. reflexivity.
  - intro H. injection H as -> -> -> -> ->. repeat split.
Qed.

Lemma Key_eqb_eq (a b : Benign.Key) : Benign.Key_eqb a b = true <-> a = b.
Proof.
  destruct a as [ka na], b as [kb nb]. unfold Benign.Key_eqb. simpl.
  rewrite andb_true_iff, BaseKey_eqb_eq, Nat.eqb_eq.
  split.
  - intros [-> ->]. reflexivity.
  - intro H. injection H as -> ->. split; reflexivity.
Qed.

(** ** The subflow-bounded script files every packet as forward *)

Lemma direction_test_true (src sport dst dport layer : string) :
  Benign.endpoint_eqb (src, sport)
    (Benign.base_prefix (src, sport, dst, dport, layer)) = true.
Proof.
  unfold Benign.endpoint_eqb. simpl. now rewrite !String.eqb_refl.
Qed.

Lemma new_flow_no_backward (ts : Q) : no_backward (new_flow ts).
Proof. repeat split. Qed.

Lemma benign_step_no_backward (st : Benign.State) (pkt : Packet) :
  Forall (fun kf => no_backward (snd kf)) (Benign.flows st) ->
  Forall (fun kf => no_backward (snd kf))
         (Benign.flows (Benign.process_packet st pkt)).
Proof.
  intro Hst. unfold Benign.process_packet.
  destruct (endpoints pkt) as [[ts [[[src sport] dst] dport]]|]; [|exact Hst].
  rewrite direction_test_true.
  set (meta := Benign.rotate _ ts).
  set (key := (_, Benign.idx meta)).
  assert (H1 : Forall (fun kf => no_backward (snd kf))
                 (Benign.setdefault (Benign.flows st) key (new_flow ts))).
  { unfold Benign.setdefault.
    destruct (dict_mem Benign.Key_eqb (Benign.flows st) key); [exact Hst|].
    apply dict_set_Forall; [exact Hst|apply new_flow_no_backward]. }
  destruct (dict_get Benign.Key_eqb _ key) as [f|] eqn:Hget; simpl; [|exact H1].
  apply dict_set_Forall; [exact H1|]. simpl.
  apply accumulate_forward_no_backward.
  apply (dict_get_Forall Benign.Key_eqb Key_eqb_eq
           (fun kf => no_backward (snd kf)) _ _ _ H1 Hget).
Qed.

(** C10: in the subflow-bounded script the direction test compares the
    packet's source endpoint with the first two components of a key built
    from that very packet, so it always holds; after ingesting any
    capture, every accumulator has empty backward timestamp, length and
    header lists, backward PSH and URG counters at 0, and no backward
    initial window. *)
Theorem benign_flows_have_no_backward :
  (forall src sport dst dport layer : string,
      Benign.endpoint_eqb (src, sport)
        (Benign.base_prefix (src, sport, dst, dport, layer)) = true)
  /\ (forall cap : list Packet,
        Forall (fun kf => no_backward (snd kf))
               (Benign.flows (Benign.ingest cap))).
Proof.
  split; [exact direction_test_true|].
  intro cap. unfold Benign.ingest.
  assert (H0 : Forall (fun kf : Benign.Key * Flow => no_backward (snd kf))
                      (Benign.flows Benign.init)) by constructor.
  revert H0. generalize Benign.init.
  induction cap as [|pkt cap IH]; intros st Hst; simpl.
  - exact Hst.
  - apply IH, benign_step_no_backward, Hst.
Qed.

(** ** Every well-formed packet is counted once *)

(** On a well-formed packet the loop body runs to its end and adds one
    packet to the side it was given, none to the other side. *)
Lemma accumulate_well_formed (pkt : Packet) (ts : Q) (d : Direction) (f : Flow) :
  well_formed pkt = true ->
  fst (accumulate pkt ts (is_fwd d) f) = Some tt
  /\ side_packets d (snd (accumulate pkt ts (is_fwd d) f))
     = S (side_packets d f)
  /\ side_packets (other d) (snd (accumulate pkt ts (is_fwd d) f))
     = side_packets (other d) f
  /\ length (times (snd (accumulate pkt ts (is_fwd d) f)))
     = S (length (times f)).
Proof.
  intro Hwf.
  destruct pkt as [t0 s0 d0 sp dp tl len hdr win fl].
  unfold well_formed in Hwf. simpl in Hwf.
  rewrite !andb_true_iff in Hwf.
  destruct Hwf as [[[[[[[[_ _] _] _] _] Hlen] Hhdr] Hwin] Hfl].
  destruct len as [| |len]; try discriminate Hlen.
  destruct fl as [| |fl]; try discriminate Hfl.
  destruct f as [a b c e g h i j k l m n o p q iwf iwb].
  unfold side_packets, total_fwd_packets, total_backward_packets.
  destruct d, hdr as [| |hdr]; try discriminate Hhdr;
    destruct iwf as [iwf|], iwb as [iwb|], win as [| |win];
    try discriminate Hwin;
    cbn; rewrite ?length_app; cbn; repeat split; lia.
Qed.

Section Filing.
Context {K : Type}.
Variable eqb : K -> K -> bool.
Hypothesis eqb_eq : forall a b, eqb a b = true <-> a = b.

Lemma total_packets_set (d : list (K * Flow)) (k : K) (v : Flow) :
  (total_packets (dict_set eqb d k v)
   + match dict_get eqb d k with
     | Some old => flow_packets old
     | None => 0
     end
   = total_packets d + flow_packets v)%nat.
Proof.
  induction d as [|[k' v'] d IH]; simpl.
  - lia.
  - destruct (eqb k k'); simpl; lia.
Qed.

Lemma flow_packets_sides (d : Direction) (f : Flow) :
  flow_packets f = (side_packets d f + side_packets (other d) f)%nat.
Proof. destruct d; unfold flow_packets; simpl; lia. Qed.

(** The text shared by both scripts: create the accumulator under
    [key] when it is not there, then run the loop body on it. *)
Lemma file_packet (flows : list (K * Flow)) (key : K) (dir : Direction)
    (pkt : Packet) (ts : Q) :
  well_formed pkt = true ->
  exists f,
    dict_get eqb
      (if dict_mem eqb flows key then flows
       else dict_set eqb flows key (new_flow ts)) key = Some f
    /\ let after :=
         dict_set eqb
           (if dict_mem eqb flows key then flows
            else dict_set eqb flows key (new_flow ts)) key
           (snd (accumulate pkt ts (is_fwd dir) f)) in
       filed_under eqb flows after (key, dir)
       /\ total_packets after = S (total_packets flows).
Proof.
  intro Hwf. unfold dict_mem.
  destruct (dict_get eqb flows key) as [f0|] eqn:Hget; simpl.
  - exists f0. split; [exact Hget|].
    destruct (accumulate_well_formed pkt ts dir f0 Hwf) as (_ & Hs & Ho & _).
    split; [split|].
    + unfold packets_at. simpl.
      rewrite (dict_get_set_same eqb eqb_eq), Hget. exact Hs.
    + intros [k' d'] Hne. unfold packets_at. simpl.
      destruct (eqb k' key) eqn:E.
      * apply eqb_eq in E. subst k'.
        rewrite (dict_get_set_same eqb eqb_eq), Hget.
        destruct dir, d'; try (exfalso; apply Hne; reflexivity);
          exact Ho.
      * rewrite (dict_get_set_other eqb eqb_eq); [reflexivity|].
        intro Heq. apply eqb_eq in Heq. congruence.
    + pose proof (total_packets_set flows key
                    (snd (accumulate pkt ts (is_fwd dir) f0))) as Ht.
      rewrite Hget in Ht.
      rewrite (flow_packets_sides dir f0) in Ht.
      rewrite (flow_packets_sides dir (snd _)) in Ht. lia.
  - exists (new_flow ts).
    split; [apply (dict_get_set_same eqb eqb_eq)|].
    destruct (accumulate_well_formed pkt ts dir (new_flow ts) Hwf)
      as (_ & Hs & Ho & _).
    split; [split|].
    + unfold packets_at. simpl.
      rewrite (dict_get_set_same eqb eqb_eq), Hget, Hs.
      destruct dir; reflexivity.
    + intros [k' d'] Hne. unfold packets_at. simpl.
      destruct (eqb k' key) eqn:E.
      * apply eqb_eq in E. subst k'.
        rewrite (dict_get_set_same eqb eqb_eq), Hget.
        destruct dir, d'; try (exfalso; apply Hne; reflexivity);
          exact Ho.
      * rewrite !(dict_get_set_other eqb eqb_eq); [reflexivity| |];
          intro Heq; apply eqb_eq in Heq; congruence.
    + pose proof (total_packets_set (dict_set eqb flows key (new_flow ts)) key
                    (snd (accumulate pkt ts (is_fwd dir) (new_flow ts)))) as Ht.
      rewrite (dict_get_set_same eqb eqb_eq) in Ht.
      pose proof (total_packets_set flows key (new_flow ts)) as Ht0.
      rewrite Hget in Ht0.
      rewrite (flow_packets_sides dir (snd _)) in Ht.
      rewrite (flow_packets_sides dir (new_flow ts)) in Ht, Ht0.
      assert (Hn : side_packets dir (new_flow ts) = 0%nat)
        by (destruct dir; reflexivity).
      assert (Hn' : side_packets (other dir) (new_flow ts) = 0%nat)
        by (destruct dir; reflexivity).
      lia.
Qed.

Lemma filed_under_unique (before after : list (K * Flow))
    (kd kd' : K * Direction) :
  filed_under eqb before after kd -> filed_under eqb before after kd' ->
  kd = kd'.
Proof.
  intros [H1 H2] [H1' _].
  destruct kd as [k d], kd' as [k' d'].
  destruct (eqb k' k) eqn:E.
  - apply eqb_eq in E. subst k'.
    destruct d, d'; try reflexivity;
      match goal with
      | |- (_, _) = (_, ?b) =>
          assert (Hne : (k, b) <> (k, other b))
            by (intro Hc; discriminate Hc);
          specialize (H2 (k, b) Hne); simpl in *; lia
      end.
  - assert (Hne : (k', d') <> (k, d)).
    { intro Hc. injection Hc as -> ->.
      rewrite (proj2 (eqb_eq k k) eq_refl) in E. discriminate E. }
    specialize (H2 (k', d') Hne). simpl in *. lia.
Qed.
End Filing.

Lemma endpoints_well_formed (pkt : Packet) :
  well_formed pkt = true -> exists ts ep, endpoints pkt = Some (ts, ep).
Proof.
  intro Hwf. unfold well_formed in Hwf. rewrite !andb_true_iff in Hwf.
  destruct Hwf as [[[[[[[[Ht Hs] Hd] Hsp] Hdp] _] _] _] _].
  unfold endpoints.
  destruct (sniff_timestamp pkt) as [| |ts]; try discriminate Ht.
  destruct (ip_src pkt) as [s|]; try discriminate Hs.
  destruct (ip_dst pkt) as [d|]; try discriminate Hd.
  destruct (tcp_srcport pkt) as [sp|]; try discriminate Hsp.
  destruct (tcp_dstport pkt) as [dp|]; try discriminate Hdp.
  now eexists; eexists.
Qed.

Lemma attack_step_files_once (flows : Attack.Flows) (pkt : Packet) :
  well_formed pkt = true ->
  (exists kd, filed_under BaseKey_eqb flows (Attack.process_packet flows pkt) kd)
  /\ total_packets (Attack.process_packet flows pkt) = S (total_packets flows).
Proof.
  intro Hwf.
  destruct (endpoints_well_formed pkt Hwf) as (ts & ep & Hep).
  unfold Attack.process_packet. rewrite Hep.
  destruct (Attack.assign flows ep) as [key dir]. cbv beta iota.
  unfold Attack.Flows in *.
  destruct (file_packet BaseKey_eqb BaseKey_eqb_eq flows key dir pkt ts Hwf)
    as (f & Hget & Hfiled & Htot).
  rewrite Hget. split; [exists (key, dir); exact Hfiled|exact Htot].
Qed.

Lemma benign_step_files_once (st : Benign.State) (pkt : Packet) :
  well_formed pkt = true ->
  (exists kd, filed_under Benign.Key_eqb (Benign.flows st)
                (Benign.flows (Benign.process_packet st pkt)) kd)
  /\ total_packets (Benign.flows (Benign.process_packet st pkt))
     = S (total_packets (Benign.flows st)).
Proof.
  intro Hwf.
  destruct (endpoints_well_formed pkt Hwf)
    as (ts & [[[src sport] dst] dport] & Hep).
  unfold Benign.process_packet. rewrite Hep.
  rewrite direction_test_true. unfold Benign.setdefault.
  set (meta := Benign.rotate _ ts).
  set (key := (_, Benign.idx meta)).
  destruct (file_packet Benign.Key_eqb Key_eqb_eq (Benign.flows st) key Fwd
              pkt ts Hwf) as (f & Hget & Hfiled & Htot).
  rewrite Hget. simpl. split; [exists (key, Fwd); exact Hfiled|exact Htot].
Qed.

Lemma attack_total_fold (cap : list Packet) :
  forallb well_formed cap = true ->
  forall flows : Attack.Flows,
    total_packets (fold_left Attack.process_packet cap flows)
    = (total_packets flows + length cap)%nat.
Proof.
  induction cap as [|pkt cap IH]; intros Hwf flows; simpl.
  - lia.
  - simpl in Hwf. apply andb_true_iff in Hwf. destruct Hwf as [Hp Hc].
    rewrite (IH Hc). rewrite (proj2 (attack_step_files_once flows pkt Hp)). lia.
Qed.

Lemma benign_total_fold (cap : list Packet) :
  forallb well_formed cap = true ->
  forall st : Benign.State,
    total_packets (Benign.flows (fold_left Benign.process_packet cap st))
    = (total_packets (Benign.flows st) + length cap)%nat.
Proof.
  induction cap as [|pkt cap IH]; intros Hwf st; simpl.
  - lia.
  - simpl in Hwf. apply andb_true_iff in Hwf. destruct Hwf as [Hp Hc].
    rewrite (IH Hc). rewrite (proj2 (benign_step_files_once st pkt Hp)). lia.
Qed.

Lemma forallb_middle (pre post : list Packet) (pkt : Packet) :
  forallb well_formed (pre ++ pkt :: post) = true -> well_formed pkt = true.
Proof.
  rewrite forallb_app. simpl. rewrite !andb_true_iff. tauto.
Qed.

(** C7: in a capture of well-formed packets, each packet is filed under
    exactly one (flow key, direction) pair of the table it meets, in the
    whole-flow script and in the subflow-bounded one; after ingestion the
    forward and backward packet counts of all accumulators add up to the
    number of packets. *)
Theorem every_packet_counted_once :
  forall cap : list Packet,
    forallb well_formed cap = true ->
    total_packets (Attack.ingest cap) = length cap
    /\ total_packets (Benign.flows (Benign.ingest cap)) = length cap
    /\ (forall pre pkt post,
          cap = pre ++ pkt :: post ->
          exists! kd,
            filed_under BaseKey_eqb
              (Attack.ingest pre) (Attack.ingest (pre ++ [pkt])) kd)
    /\ (forall pre pkt post,
          cap = pre ++ pkt :: post ->
          exists! kd,
            filed_under Benign.Key_eqb
              (Benign.flows (Benign.ingest pre))
              (Benign.flows (Benign.ingest (pre ++ [pkt]))) kd).
Proof.
  intros cap Hwf. repeat split.
  - unfold Attack.ingest. now rewrite attack_total_fold.
  - unfold Benign.ingest. now rewrite benign_total_fold.
  - intros pre pkt post ->. apply forallb_middle in Hwf.
    unfold Attack.ingest. rewrite fold_left_app. simpl.
    destruct (attack_step_files_once (fold_left Attack.process_packet pre [])
                pkt Hwf) as [[kd Hkd] _].
    exists kd. split; [exact Hkd|].
    intros kd' Hkd'.
    apply (filed_under_unique BaseKey_eqb BaseKey_eqb_eq _ _ _ _ Hkd Hkd').
  - intros pre pkt post ->. apply forallb_middle in Hwf.
    unfold Benign.ingest. rewrite fold_left_app. simpl.
    destruct (benign_step_files_once
                (fold_left Benign.process_packet pre Benign.init) pkt Hwf)
      as [[kd Hkd] _].
    exists kd. split; [exact Hkd|].
    intros kd' Hkd'.
    apply (filed_under_unique Benign.Key_eqb Key_eqb_eq _ _ _ _ Hkd Hkd').
Qed.

Lemma every_packet_counted_once_witness :
  forallb well_formed exchange = true
  /\ total_packets (Attack.ingest exchange) = length exchange
  /\ total_packets (Benign.flows (Benign.ingest exchange)) = length exchange.
Proof.
  split; [reflexivity|].
  destruct (every_packet_counted_once exchange eq_refl) as (Ha & Hb & _).
  split; [exact Ha|exact Hb].
Defined.

(** ** Subflow rotation *)

Section DictAppend.
Context {K V : Type}.
Variable eqb : K -> K -> bool.
Hypothesis eqb_eq : forall a b, eqb a b = true <-> a = b.

Lemma dict_get_app_fresh (d1 d2 : list (K * V)) (k : K) :
  ~ In k (map fst d1) ->
  dict_get eqb (d1 ++ d2) k = dict_get eqb d2 k.
Proof.
  induction d1 as [|[k' v'] d1 IH]; simpl; intro Hnin; [reflexivity|].
  destruct (eqb k k') eqn:E.
  - apply eqb_eq in E. exfalso. apply Hnin. left. now symmetry.
  - apply IH. intro Hin. apply Hnin. now right.
Qed.

Lemma dict_set_app_fresh (d1 d2 : list (K * V)) (k : K) (v : V) :
  ~ In k (map fst d1) ->
  dict_set eqb (d1 ++ d2) k v = d1 ++ dict_set eqb d2 k v.
Proof.
  induction d1 as [|[k' v'] d1 IH]; simpl; intro Hnin; [reflexivity|].
  destruct (eqb k k') eqn:E.
  - apply eqb_eq in E. exfalso. apply Hnin. left. now symmetry.
  - f_equal. apply IH. intro Hin. apply Hnin. now right.
Qed.
Lemma dict_get_fresh (d : list (K * V)) (k : K) :
  ~ In k (map fst d) -> dict_get eqb d k = None.
Proof.
  intro H. rewrite <- (app_nil_r d). now rewrite dict_get_app_fresh.
Qed.

Lemma dict_set_fresh (d : list (K * V)) (k : K) (v : V) :
  ~ In k (map fst d) -> dict_set eqb d k v = d ++ [(k, v)].
Proof.
  intro H. rewrite <- (app_nil_r d) at 1. now rewrite dict_set_app_fresh.
Qed.

Lemma dict_get_one (k : K) (v : V) : dict_get eqb [(k, v)] k = Some v.
Proof. simpl. now rewrite (proj2 (eqb_eq k k) eq_refl). Qed.

Lemma dict_set_one (k : K) (v v' : V) :
  dict_set eqb [(k, v)] k v' = [(k, v')].
Proof. simpl. now rewrite (proj2 (eqb_eq k k) eq_refl). Qed.
End DictAppend.

Lemma must_rotate_iff (meta : Benign.Meta) (ts : Q) :
  Benign.must_rotate meta ts = true
  <-> (Benign.MAX_FLOW_DURATION < ts - Benign.start_ts meta
       \/ (Benign.MAX_PKTS_PER_SUBFLOW <= Benign.pkt_count meta)%nat).
Proof.
  unfold Benign.must_rotate.
  rewrite orb_true_iff, Qgt_bool_iff, Nat.leb_le. reflexivity.
Qed.

Lemma subflow_key_fresh (base : BaseKey) (i j : nat)
    (full : list (Benign.Key * Flow)) :
  map fst full = map (fun j => (base, j)) (seq 0 i) ->
  (i <= j)%nat ->
  ~ In (base, j) (map fst full).
Proof.
  intros Hk Hij Hin. rewrite Hk in Hin.
  apply in_map_iff in Hin. destruct Hin as (x & Hx & Hseq).
  apply in_seq in Hseq. injection Hx as ->. lia.
Qed.

Lemma carries_timestamp (base : BaseKey) (pkt : Packet) :
  carries base pkt ->
  exists src sport dst dport,
    endpoints pkt = Some (timestamp pkt, (src, sport, dst, dport))
    /\ base = (src, sport, dst, dport, transport_layer pkt).
Proof.
  intros (ts & src & sport & dst & dport & Hep & Hb).
  exists src, sport, dst, dport. split; [|exact Hb].
  unfold endpoints, timestamp in *.
  destruct (sniff_timestamp pkt); try discriminate Hep.
  destruct (ip_src pkt), (tcp_srcport pkt), (ip_dst pkt), (tcp_dstport pkt);
    try discriminate Hep.
  injection Hep as -> -> -> -> ->. reflexivity.
Qed.

Lemma flow_packets_accumulate (pkt : Packet) (ts : Q) (f : Flow) :
  well_formed pkt = true ->
  length (times (snd (accumulate pkt ts true f))) = S (length (times f))
  /\ flow_packets (snd (accumulate pkt ts true f)) = S (flow_packets f).
Proof.
  intro Hwf.
  destruct (accumulate_well_formed pkt ts Fwd f Hwf) as (_ & Hs & Ho & Ht).
  split; [exact Ht|].
  unfold flow_packets. simpl in Hs, Ho. lia.
Qed.

(** The loop body of the subflow-bounded script on a packet of the
    conversation [base], with the direction test resolved. *)
Lemma benign_process_carries (base : BaseKey) (st : Benign.State) (pkt : Packet) :
  carries base pkt ->
  Benign.process_packet st pkt =
    let ts := timestamp pkt in
    let meta :=
      Benign.rotate
        match dict_get BaseKey_eqb (Benign.flow_meta st) base with
        | Some m => m
        | None => Benign.mkMeta 0 ts 0
        end ts in
    let key := (base, Benign.idx meta) in
    let flow_meta1 :=
      dict_set BaseKey_eqb (Benign.flow_meta st) base
        (Benign.mkMeta (Benign.idx meta) (Benign.start_ts meta)
           (S (Benign.pkt_count meta))) in
    let flows1 := Benign.setdefault (Benign.flows st) key (new_flow ts) in
    match dict_get Benign.Key_eqb flows1 key with
    | Some f =>
        Benign.mkState flow_meta1
          (dict_set Benign.Key_eqb flows1 key (snd (accumulate pkt ts true f)))
    | None => Benign.mkState flow_meta1 flows1
    end.
Proof.
  intro Hc.
  destruct (carries_timestamp base pkt Hc)
    as (src & sport & dst & dport & Hep & ->).
  unfold Benign.process_packet. rewrite Hep, direction_test_true. reflexivity.
Qed.

Lemma rotate_keeps (meta : Benign.Meta) (ts : Q) :
  ts - Benign.start_ts meta <= Benign.MAX_FLOW_DURATION ->
  (Benign.pkt_count meta < Benign.MAX_PKTS_PER_SUBFLOW)%nat ->
  Benign.rotate meta ts = meta.
Proof.
  intros Ht Hc. unfold Benign.rotate.
  destruct (Benign.must_rotate meta ts) eqn:E; [|reflexivity].
  apply must_rotate_iff in E. destruct E as [E|E]; [lra|lia].
Qed.

Lemma rotate_full (meta : Benign.Meta) (ts : Q) :
  (Benign.MAX_PKTS_PER_SUBFLOW <= Benign.pkt_count meta)%nat ->
  Benign.rotate meta ts = Benign.mkMeta (S (Benign.idx meta)) ts 0.
Proof.
  intro Hc. unfold Benign.rotate.
  destruct (Benign.must_rotate meta ts) eqn:E; [reflexivity|].
  assert (H : Benign.must_rotate meta ts = true)
    by (apply must_rotate_iff; right; exact Hc).
  congruence.
Qed.

(** The first packet of a conversation opens subflow 0. *)
Lemma subflow_inv_first (base : BaseKey) (stamps : list Q) (pkt : Packet) :
  well_formed pkt = true -> carries base pkt ->
  timestamp pkt = nth 0 stamps 0 ->
  subflow_inv base stamps 1 (Benign.process_packet Benign.init pkt).
Proof.
  intros Hwf Hc Hts.
  destruct (flow_packets_accumulate pkt (timestamp pkt)
              (new_flow (timestamp pkt)) Hwf) as [Ht Hp].
  rewrite (benign_process_carries base _ _ Hc). cbv zeta.
  change (Benign.flow_meta Benign.init) with (@nil (BaseKey * Benign.Meta)).
  change (Benign.flows Benign.init) with (@nil (Benign.Key * Flow)).
  change (dict_get BaseKey_eqb [] base) with (@None Benign.Meta).
  rewrite rotate_keeps;
    [|simpl; unfold Benign.MAX_FLOW_DURATION; lra
     |simpl; unfold Benign.MAX_PKTS_PER_SUBFLOW; lia].
  cbn [Benign.idx Benign.start_ts Benign.pkt_count].
  change (Benign.setdefault [] (base, 0%nat) (new_flow (timestamp pkt)))
    with [((base, 0%nat), new_flow (timestamp pkt))].
  change (dict_set BaseKey_eqb [] base ?m) with [(base, m)].
  rewrite (dict_get_one Benign.Key_eqb Key_eqb_eq).
  rewrite (dict_set_one Benign.Key_eqb Key_eqb_eq).
  exists 0%nat, 1%nat, [],
    (snd (accumulate pkt (timestamp pkt) true (new_flow (timestamp pkt)))).
  unfold Benign.MAX_PKTS_PER_SUBFLOW. cbn [Benign.flows Benign.flow_meta].
  rewrite Hts in Ht, Hp |- *.
  repeat split; try reflexivity; try lia; try assumption.
  constructor.
Qed.

(** Packet number [n] of the conversation (counting from 0), when
    rotation by duration does not fire: the current subflow grows, or,
    when it is full, the next one opens. *)
Lemma subflow_inv_step (base : BaseKey) (stamps : list Q) (n : nat)
    (st : Benign.State) (pkt : Packet) :
  within_duration stamps ->
  subflow_inv base stamps n st ->
  well_formed pkt = true -> carries base pkt ->
  (n < length stamps)%nat -> timestamp pkt = nth n stamps 0 ->
  subflow_inv base stamps (S n) (Benign.process_packet st pkt).
Proof.
  intros Hgap (i & c & full & f & Hn & Hc & Hmeta & Hflows
               & Hkeys & Hfull & Hlen & Hpk) Hwf Hcar Hlt Hts.
  rewrite (benign_process_carries base _ _ Hcar). cbv zeta.
  rewrite Hmeta, Hflows.
  rewrite (dict_get_one BaseKey_eqb BaseKey_eqb_eq).
  rewrite (dict_set_one BaseKey_eqb BaseKey_eqb_eq).
  destruct (Nat.eq_dec c Benign.MAX_PKTS_PER_SUBFLOW) as [Hc20|Hc20].
  - (* the subflow is full: rotate *)
    rewrite rotate_full by (simpl; lia).
    cbn [Benign.idx Benign.start_ts Benign.pkt_count].
    assert (Hfresh : ~ In (base, S i) (map fst (full ++ [((base, i), f)]))).
    { rewrite map_app. simpl. intro Hx. apply in_app_or in Hx.
      destruct Hx as [Hx|[Hx|[]]].
      - apply (subflow_key_fresh base i (S i) full Hkeys) in Hx; [exact Hx|lia].
      - injection Hx as Hx. lia. }
    unfold Benign.setdefault, dict_mem.
    rewrite (dict_get_fresh Benign.Key_eqb Key_eqb_eq _ _ Hfresh).
    cbn [is_some].
    rewrite (dict_set_fresh Benign.Key_eqb Key_eqb_eq _ _ _ Hfresh).
    rewrite (dict_get_app_fresh Benign.Key_eqb Key_eqb_eq _ _ _ Hfresh).
    rewrite (dict_get_one Benign.Key_eqb Key_eqb_eq).
    rewrite (dict_set_app_fresh Benign.Key_eqb Key_eqb_eq _ _ _ _ Hfresh).
    rewrite (dict_set_one Benign.Key_eqb Key_eqb_eq).
    destruct (flow_packets_accumulate pkt (timestamp pkt)
                (new_flow (timestamp pkt)) Hwf) as [Hl1 Hp1].
    exists (S i), 1%nat, (full ++ [((base, i), f)]),
      (snd (accumulate pkt (timestamp pkt) true (new_flow (timestamp pkt)))).
    cbn [Benign.flows Benign.flow_meta].
    assert (Hidx : (Benign.MAX_PKTS_PER_SUBFLOW * S i)%nat = n) by lia.
    rewrite Hidx, <- Hts.
    unfold Benign.MAX_PKTS_PER_SUBFLOW in *.
    repeat split; try reflexivity; try lia; try assumption.
    + rewrite map_app, Hkeys, seq_S, map_app. reflexivity.
    + apply Forall_app. split; [exact Hfull|].
      constructor; [|constructor]. simpl. split; lia.
  - (* room left in the subflow *)
    rewrite rotate_keeps; [| |simpl; lia].
    2:{ simpl. rewrite Hts, Hn. apply Hgap; lia. }
    cbn [Benign.idx Benign.start_ts Benign.pkt_count].
    assert (Hfresh : ~ In (base, i) (map fst full))
      by (apply (subflow_key_fresh base i i full Hkeys); lia).
    unfold Benign.setdefault, dict_mem.
    rewrite (dict_get_app_fresh Benign.Key_eqb Key_eqb_eq _ _ _ Hfresh).
    rewrite (dict_get_one Benign.Key_eqb Key_eqb_eq).
    cbn [is_some].
    rewrite (dict_get_app_fresh Benign.Key_eqb Key_eqb_eq _ _ _ Hfresh).
    rewrite (dict_get_one Benign.Key_eqb Key_eqb_eq).
    rewrite (dict_set_app_fresh Benign.Key_eqb Key_eqb_eq _ _ _ _ Hfresh).
    rewrite (dict_set_one Benign.Key_eqb Key_eqb_eq).
    destruct (flow_packets_accumulate pkt (timestamp pkt) f Hwf) as [Hl1 Hp1].
    exists i, (S c), full, (snd (accumulate pkt (timestamp pkt) true f)).
    cbn [Benign.flows Benign.flow_meta].
    unfold Benign.MAX_PKTS_PER_SUBFLOW in *.
    repeat split; try reflexivity; try lia; try assumption.
Qed.

Lemma subflow_inv_fold (base : BaseKey) (stamps : list Q) :
  within_duration stamps ->
  forall (todo done : list Packet) (st : Benign.State),
    stamps = map timestamp (done ++ todo) ->
    subflow_inv base stamps (length done) st ->
    (forall pkt, In pkt todo -> well_formed pkt = true /\ carries base pkt) ->
    subflow_inv base stamps (length done + length todo)
      (fold_left Benign.process_packet todo st).
Proof.
  intros Hgap todo.
  induction todo as [|pkt todo IH]; intros done st Hst Hinv Hall; simpl.
  - now rewrite Nat.add_0_r.
  - replace (length done + S (length todo))%nat
      with (length (done ++ [pkt]) + length todo)%nat
      by (rewrite length_app; simpl; lia).
    destruct (Hall pkt (or_introl eq_refl)) as (Hwf & Hc).
    apply IH.
    + rewrite <- app_assoc. exact Hst.
    + rewrite length_app. simpl. rewrite Nat.add_1_r.
      apply subflow_inv_step; try assumption.
      * rewrite Hst, length_map, length_app. simpl. lia.
      * rewrite Hst, map_app. simpl.
        rewrite <- (length_map timestamp done). now rewrite nth_middle.
    + intros p Hp. apply Hall. now right.
Qed.

(** C8: a subflow is rotated when the time since its recorded start
    exceeds the maximum duration or its packet count has reached the
    maximum of 20, the new subflow starting at the current packet with a
    count of 0; a conversation of 45 well-formed packets under one base
    key in which rotation by duration never fires ends up in exactly
    three accumulators, subflows 0, 1 and 2, holding 20, 20 and 5
    packets. *)
Theorem conversation_of_45_splits_20_20_5 :
  Benign.MAX_PKTS_PER_SUBFLOW = 20%nat
  /\ (forall meta ts,
        Benign.must_rotate meta ts = true
        <-> (Benign.MAX_FLOW_DURATION < ts - Benign.start_ts meta
             \/ (Benign.MAX_PKTS_PER_SUBFLOW <= Benign.pkt_count meta)%nat))
  /\ (forall meta ts,
        Benign.rotate meta ts
        = if Benign.must_rotate meta ts
          then Benign.mkMeta (S (Benign.idx meta)) ts 0
          else meta)
  /\ (forall (base : BaseKey) (cap : list Packet),
        length cap = 45%nat ->
        (forall pkt, In pkt cap -> well_formed pkt = true /\ carries base pkt) ->
        within_duration (map timestamp cap) ->
        exists f0 f1 f2 : Flow,
          Benign.flows (Benign.ingest cap)
            = [((base, 0%nat), f0); ((base, 1%nat), f1); ((base, 2%nat), f2)]
          /\ length (times f0) = 20%nat /\ flow_packets f0 = 20%nat
          /\ length (times f1) = 20%nat /\ flow_packets f1 = 20%nat
          /\ length (times f2) = 5%nat /\ flow_packets f2 = 5%nat).
Proof.
  split; [reflexivity|]. split; [exact must_rotate_iff|].
  split; [reflexivity|].
  intros base cap Hlen Hall Hgap.
  destruct cap as [|pkt cap]; [discriminate Hlen|].
  assert (H1 : subflow_inv base (map timestamp (pkt :: cap)) (length [pkt])
                 (Benign.process_packet Benign.init pkt)).
  { destruct (Hall pkt (or_introl eq_refl)) as [Hwf Hc].
    apply subflow_inv_first; [exact Hwf|exact Hc|reflexivity]. }
  pose proof (subflow_inv_fold base _ Hgap cap [pkt] _ eq_refl H1) as H.
  destruct H as (i & c & full & f & Hn & Hc & _ & Hflows
                 & Hkeys & Hfull & Hl & Hp).
  { intros p Hp. apply Hall. now right. }
  simpl in Hlen. injection Hlen as Hlen. rewrite Hlen in Hn.
  unfold Benign.MAX_PKTS_PER_SUBFLOW in *. simpl length in Hn.
  assert (Hi : i = 2%nat) by lia. assert (Hc5 : c = 5%nat) by lia.
  subst i. simpl in Hkeys.
  destruct full as [|[k0 f0] [|[k1 f1] [|x full]]]; try discriminate Hkeys.
  simpl in Hkeys. injection Hkeys as -> ->.
  inversion Hfull as [|? ? [Ha0 Hb0] Hfull1]; subst.
  inversion Hfull1 as [|? ? [Ha1 Hb1] _]; subst.
  exists f0, f1, f.
  unfold Benign.ingest. simpl fold_left. rewrite Hflows.
  repeat split; try assumption; lia.
Qed.

Lemma conversation45_within_duration :
  within_duration (map timestamp conversation45).
Proof.
  intros i c Hc Hlt.
  unfold Benign.MAX_PKTS_PER_SUBFLOW in *.
  change (length (map timestamp conversation45)) with 45%nat in Hlt.
  assert (Hi : (i <= 2)%nat) by lia.
  apply Qle_bool_iff.
  destruct i as [|[|[|i]]]; [| | |lia];
    do 20 (destruct c as [|c]; [vm_compute; reflexivity|]); lia.
Qed.

Lemma conversation_of_45_splits_20_20_5_witness :
  length conversation45 = 45%nat
  /\ exists f0 f1 f2 : Flow,
       Benign.flows (Benign.ingest conversation45)
         = [((request_key, 0%nat), f0); ((request_key, 1%nat), f1);
            ((request_key, 2%nat), f2)]
       /\ length (times f0) = 20%nat /\ flow_packets f0 = 20%nat
       /\ length (times f1) = 20%nat /\ flow_packets f1 = 20%nat
       /\ length (times f2) = 5%nat /\ flow_packets f2 = 5%nat.
Proof.
  split; [reflexivity|].
  apply (proj2 (proj2 (proj2 conversation_of_45_splits_20_20_5))).
  - reflexivity.
  - intros pkt Hin. unfold conversation45 in Hin.
    apply in_map_iff in Hin. destruct Hin as (k & <- & _).
    split; [reflexivity|].
    unfold carries. do 5 eexists. split; reflexivity.
  - exact conversation45_within_duration.
Defined.

(** ** Bulk detection: the loop against the runs *)

Lemma skipn_length_app {A : Type} (l1 l2 : list A) :
  skipn (length l1) (l1 ++ l2) = l2.
Proof. induction l1 as [|a l1 IH]; simpl; [reflexivity|exact IH]. Qed.

Lemma firstn_length_app {A : Type} (l1 l2 : list A) :
  firstn (length l1) (l1 ++ l2) = l1.
Proof. induction l1 as [|a l1 IH]; simpl; [reflexivity|now rewrite IH]. Qed.

Lemma slice_middle {A : Type} (pre cur rest : list A) (a b : nat) :
  a = length pre -> b = (length pre + length cur)%nat ->
  slice (pre ++ cur ++ rest) a b = cur.
Proof.
  intros -> ->. unfold slice.
  rewrite skipn_length_app.
  replace (length pre + length cur - length pre)%nat with (length cur) by lia.
  apply firstn_length_app.
Qed.

Lemma nth_after {A : Type} (pre rest : list A) (x d : A) (i : nat) :
  i = length pre -> nth i (pre ++ x :: rest) d = x.
Proof. intros ->. apply nth_middle. Qed.

Lemma run_first_snoc (cur0 : list (Q * Z)) (c : (Q * Z)) (rest : list (Q * Z)) :
  hd 0 (map fst (cur0 ++ c :: rest)) = run_first (cur0 ++ [c]).
Proof. unfold run_first. destruct cur0; reflexivity. Qed.

Lemma run_last_snoc (cur0 : list (Q * Z)) (c : (Q * Z)) :
  run_last (cur0 ++ [c]) = fst c.
Proof. unfold run_last. rewrite map_app. simpl. apply last_last. Qed.

Lemma nth_hd_app (pre l : list Q) (i : nat) :
  i = length pre -> l <> [] -> nth i (pre ++ l) 0 = hd 0 l.
Proof.
  intros -> Hl. destruct l as [|x l]; [contradiction|]. apply nth_middle.
Qed.

Lemma collect_bulks_final (ts : list Q) (ls : list Z) (mp mb : Z) (thr : Q) :
  collect_bulks ts ls mp mb thr
  = final_segment ts ls mp mb (bulk_loop ts ls mp mb thr (np_diff ts) 0 [] 0).
Proof.
  unfold collect_bulks, final_segment.
  destruct (bulk_loop ts ls mp mb thr (np_diff ts) 0 [] 0). reflexivity.
Qed.

Lemma qualifies_run (mp mb : Z) (r : list (Q * Z)) :
  qualifies mp mb (run_packets r) (run_bytes r) = run_qualifies mp mb r.
Proof. reflexivity. Qed.

Lemma mk_bulk_run (r : list (Q * Z)) :
  mk_bulk (run_packets r) (run_bytes r) (run_last r) (run_first r)
  = bulk_of_run r.
Proof. reflexivity. Qed.

Lemma bulk_loop_cons (ts : list Q) (ls : list Z) (mp mb : Z) (thr dt : Q)
    (rest : list Q) (i : nat) (bulks : list Bulk) (s : nat) :
  bulk_loop ts ls mp mb thr (dt :: rest) i bulks s
  = if Qge_bool dt thr
    then bulk_loop ts ls mp mb thr rest (S i)
           (if qualifies mp mb (Z.of_nat i - Z.of_nat s + 1)%Z
                 (Zsum (slice ls s (i + 1)))
            then bulks ++ [mk_bulk (Z.of_nat i - Z.of_nat s + 1)%Z
                             (Zsum (slice ls s (i + 1)))
                             (nth i ts 0) (nth s ts 0)]
            else bulks)
           (S i)
    else bulk_loop ts ls mp mb thr rest (S i) bulks s.
Proof. reflexivity. Qed.

Lemma runs_from_cons (thr : Q) (cur : list (Q * Z)) (prev : Q) (p : Q * Z)
    (rest : list (Q * Z)) :
  runs_from thr cur prev (p :: rest)
  = if Qge_bool (fst p - prev) thr
    then cur :: runs_from thr [p] (fst p) rest
    else runs_from thr (cur ++ [p]) (fst p) rest.
Proof. reflexivity. Qed.

(** The loop, resumed at sample [c] with the samples of [cur0 ++ [c]]
    pending since [start], records the qualifying runs that
    [runs_from] cuts out of the rest of the stream. *)
Lemma bulk_loop_runs (mp mb : Z) (thr : Q) (stream : list (Q * Z)) :
  forall (rest pre cur0 : list (Q * Z)) (c : (Q * Z))
         (bulks : list Bulk) (i s : nat),
    stream = pre ++ (cur0 ++ [c]) ++ rest ->
    s = length pre ->
    i = (length pre + length cur0)%nat ->
    final_segment (map fst stream) (map snd stream) mp mb
      (bulk_loop (map fst stream) (map snd stream) mp mb thr
         (np_diff (fst c :: map fst rest)) i bulks s)
    = Some (bulks ++
            map bulk_of_run
              (filter (run_qualifies mp mb)
                 (runs_from thr (cur0 ++ [c]) (fst c) rest))).
Proof.
  induction rest as [|p rest IH]; intros pre cur0 c bulks i s Hs Hst Hi.
  - (* the stream ends: the final segment *)
    simpl np_diff. simpl bulk_loop. simpl runs_from. unfold final_segment.
    rewrite app_nil_r in Hs.
    assert (Hcount : (Z.of_nat (length (map fst stream)) - Z.of_nat s)%Z
                     = run_packets (cur0 ++ [c])).
    { unfold run_packets. rewrite length_map, Hs, !length_app, Hst. lia. }
    assert (Hsum : Zsum (skipn s (map snd stream)) = run_bytes (cur0 ++ [c])).
    { unfold run_bytes. rewrite Hs, map_app, Hst.
      rewrite <- (length_map snd pre). now rewrite skipn_length_app. }
    assert (Hlast : last (map fst stream) 0 = run_last (cur0 ++ [c])).
    { rewrite run_last_snoc, Hs, app_assoc, map_app. simpl. apply last_last. }
    assert (Hfirst : nth s (map fst stream) 0 = run_first (cur0 ++ [c])).
    { rewrite Hs, map_app. unfold run_first.
      apply nth_hd_app; [now rewrite length_map|].
      rewrite map_app. simpl. intro Hc. now apply app_eq_nil in Hc. }
    rewrite Hcount, Hsum, Hlast, Hfirst, qualifies_run.
    simpl filter.
    destruct (run_qualifies mp mb (cur0 ++ [c])).
    + destruct (map fst stream) eqn:E.
      * rewrite Hs, map_app, map_app in E. simpl in E.
        apply app_eq_nil in E. destruct E as [_ E].
        apply app_eq_nil in E. destruct E as [_ E]. discriminate E.
      * rewrite mk_bulk_run. reflexivity.
    + simpl. now rewrite app_nil_r.
  - (* one more delta *)
    change (np_diff (fst c :: map fst (p :: rest)))
      with ((fst p - fst c) :: np_diff (fst p :: map fst rest)).
    rewrite bulk_loop_cons, runs_from_cons.
    destruct (Qge_bool (fst p - fst c) thr).
    + assert (Hcount : (Z.of_nat i - Z.of_nat s + 1)%Z = run_packets (cur0 ++ [c])).
      { unfold run_packets. rewrite length_app, Hst, Hi. cbn [length]. lia. }
      assert (Hsum : Zsum (slice (map snd stream) s (i + 1))
                     = run_bytes (cur0 ++ [c])).
      { unfold run_bytes. rewrite Hs, !map_app. f_equal.
        apply slice_middle; rewrite ?length_app, ?length_map; [exact Hst|].
        cbn [length]. lia. }
      assert (Hend : nth i (map fst stream) 0 = run_last (cur0 ++ [c])).
      { rewrite run_last_snoc, Hs.
        replace (pre ++ (cur0 ++ [c]) ++ p :: rest)
          with ((pre ++ cur0) ++ c :: p :: rest)
          by (rewrite <- !app_assoc; reflexivity).
        rewrite map_app. simpl map.
        apply nth_after. rewrite length_map, length_app. exact Hi. }
      assert (Hfirst : nth s (map fst stream) 0 = run_first (cur0 ++ [c])).
      { rewrite Hs, map_app. unfold run_first.
        rewrite (nth_hd_app (map fst pre)); [|now rewrite length_map|].
        - rewrite <- app_assoc. rewrite !map_app.
          destruct cur0; reflexivity.
        - rewrite !map_app. simpl. intro Hc.
          apply app_eq_nil in Hc. destruct Hc as [Hc _].
          now apply app_eq_nil in Hc. }
      rewrite Hcount, Hsum, Hend, Hfirst, qualifies_run, mk_bulk_run.
      rewrite (IH (pre ++ cur0 ++ [c]) [] p _ (S i) (S i)).
      * simpl filter.
        destruct (run_qualifies mp mb (cur0 ++ [c])); simpl.
        -- now rewrite <- app_assoc.
        -- reflexivity.
      * rewrite Hs. rewrite <- !app_assoc. reflexivity.
      * rewrite !length_app. simpl. lia.
      * rewrite !length_app. simpl. lia.
    + rewrite (IH pre (cur0 ++ [c]) p bulks (S i) s).
      * reflexivity.
      * rewrite Hs. rewrite <- !app_assoc. reflexivity.
      * exact Hst.
      * rewrite length_app. simpl. lia.
Qed.

(** *** The runs partition the stream *)

Lemma runs_from_concat (thr : Q) (rest : list (Q * Z)) :
  forall (cur : list (Q * Z)) (prev : Q),
    concat (runs_from thr cur prev rest) = cur ++ rest.
Proof.
  induction rest as [|p rest IH]; intros cur prev.
  - simpl. now rewrite app_nil_r.
  - rewrite runs_from_cons. destruct (Qge_bool (fst p - prev) thr).
    + simpl. now rewrite IH.
    + rewrite IH. now rewrite <- app_assoc.
Qed.

Lemma split_runs_concat (thr : Q) (stream : list (Q * Z)) :
  concat (split_runs thr stream) = stream.
Proof.
  destruct stream as [|p rest]; [reflexivity|].
  unfold split_runs. now rewrite runs_from_concat.
Qed.

Lemma last_cons_default {A : Type} (l : list A) :
  forall a d : A, last (a :: l) d = last l a.
Proof.
  induction l as [|b l IH]; intros a d; [reflexivity|].
  change (last (a :: b :: l) d) with (last (b :: l) d).
  now rewrite (IH b d), (IH b a).
Qed.

Lemma gaps_below_snoc (thr : Q) (p : Q * Z) (t : list (Q * Z)) :
  forall x : Q,
    gaps_below thr x t ->
    fst p - last (map fst t) x < thr ->
    gaps_below thr x (t ++ [p]).
Proof.
  induction t as [|a t IH]; intros x Ht Hp.
  - simpl in *. split; [exact Hp|exact I].
  - destruct Ht as [Ha Ht]. simpl. split; [exact Ha|].
    apply IH; [exact Ht|].
    simpl map in Hp. now rewrite last_cons_default in Hp.
Qed.

Lemma run_tight_snoc (thr : Q) (cur : list (Q * Z)) (p : Q * Z) :
  run_tight thr cur -> fst p - run_last cur < thr -> run_tight thr (cur ++ [p]).
Proof.
  destruct cur as [|a t]; [intros []|].
  intros Ht Hp. simpl. apply gaps_below_snoc; [exact Ht|].
  unfold run_last in Hp. simpl map in Hp.
  now rewrite last_cons_default in Hp.
Qed.

Lemma Qge_bool_false (a b : Q) : Qge_bool a b = false -> a < b.
Proof.
  intro H. apply Qnot_le_lt. intro Hle.
  apply Qge_bool_iff in Hle. congruence.
Qed.

Lemma runs_from_tight (thr : Q) (rest : list (Q * Z)) :
  forall (cur : list (Q * Z)) (prev : Q),
    run_tight thr cur -> run_last cur = prev ->
    Forall (run_tight thr) (runs_from thr cur prev rest).
Proof.
  induction rest as [|p rest IH]; intros cur prev Ht Hl.
  - constructor; [exact Ht|constructor].
  - rewrite runs_from_cons.
    destruct (Qge_bool (fst p - prev) thr) eqn:E.
    + constructor; [exact Ht|]. apply IH; [exact I|reflexivity].
    + apply IH.
      * apply run_tight_snoc; [exact Ht|].
        rewrite Hl. now apply Qge_bool_false.
      * apply run_last_snoc.
Qed.

Lemma runs_from_head (thr : Q) (rest : list (Q * Z)) :
  forall (cur : list (Q * Z)) (prev : Q),
    cur <> [] ->
    exists r rs,
      runs_from thr cur prev rest = r :: rs /\ run_first r = run_first cur.
Proof.
  induction rest as [|p rest IH]; intros cur prev Hne.
  - exists cur, []. split; reflexivity.
  - rewrite runs_from_cons. destruct (Qge_bool (fst p - prev) thr).
    + eexists; eexists. split; reflexivity.
    + destruct (IH (cur ++ [p]) (fst p)) as (r & rs & Hr & Hf).
      { intro Hc. now apply app_eq_nil in Hc. }
      exists r, rs. split; [exact Hr|]. rewrite Hf.
      unfold run_first. destruct cur; [contradiction|reflexivity].
Qed.

Lemma runs_from_separated (thr : Q) (rest : list (Q * Z)) :
  forall (cur : list (Q * Z)) (prev : Q),
    run_last cur = prev ->
    runs_separated thr (runs_from thr cur prev rest).
Proof.
  induction rest as [|p rest IH]; intros cur prev Hl.
  - exact I.
  - rewrite runs_from_cons.
    destruct (Qge_bool (fst p - prev) thr) eqn:E.
    + destruct (runs_from_head thr rest [p] (fst p)) as (r & rs & Hr & Hf);
        [discriminate|].
      specialize (IH [p] (fst p) eq_refl).
      rewrite Hr in *. simpl. split; [|exact IH].
      rewrite Hf, Hl. apply Qge_bool_iff in E. exact E.
    + apply IH. apply run_last_snoc.
Qed.

Lemma split_runs_partition (thr : Q) (stream : list (Q * Z)) :
  concat (split_runs thr stream) = stream
  /\ Forall (run_tight thr) (split_runs thr stream)
  /\ runs_separated thr (split_runs thr stream).
Proof.
  split; [apply split_runs_concat|].
  destruct stream as [|p rest]; [split; [constructor|exact I]|].
  unfold split_runs. split.
  - apply runs_from_tight; [exact I|reflexivity].
  - apply runs_from_separated. reflexivity.
Qed.

Lemma in_concat_length {A : Type} (rs : list (list A)) (r : list A) :
  In r rs -> (length r <= length (concat rs))%nat.
Proof.
  induction rs as [|r0 rs IH]; intros [].
  - subst. simpl. rewrite length_app. lia.
  - simpl. rewrite length_app. specialize (IH H). lia.
Qed.

(** With fewer samples than [min_pkts] no run can qualify. *)
Lemma short_stream_no_run (mp mb : Z) (thr : Q) (stream : list (Q * Z)) :
  (Z.of_nat (length stream) < mp)%Z ->
  qualifying_runs mp mb thr stream = [].
Proof.
  intro Hlt. unfold qualifying_runs.
  assert (H : forall r, In r (split_runs thr stream) ->
                        run_qualifies mp mb r = false).
  { intros r Hin. apply in_concat_length in Hin.
    rewrite split_runs_concat in Hin.
    unfold run_qualifies, run_packets.
    apply andb_false_iff. left. apply Z.leb_gt. lia. }
  induction (split_runs thr stream) as [|r rs IH]; [reflexivity|].
  simpl. rewrite (H r (or_introl eq_refl)). apply IH.
  intros r' Hr'. apply H. now right.
Qed.

Lemma map_fst_combine {A B : Type} (l1 : list A) :
  forall l2 : list B, length l2 = length l1 -> map fst (combine l1 l2) = l1.
Proof.
  induction l1 as [|a l1 IH]; intros [|b l2] H; try discriminate H;
    [reflexivity|].
  simpl. f_equal. apply IH. now injection H.
Qed.

Lemma map_snd_combine {A B : Type} (l1 : list A) :
  forall l2 : list B, length l2 = length l1 -> map snd (combine l1 l2) = l2.
Proof.
  induction l1 as [|a l1 IH]; intros [|b l2] H; try discriminate H;
    [reflexivity|].
  simpl. f_equal. apply IH. now injection H.
Qed.

(** On a stream that is not empty the detector records exactly the
    qualifying runs, in order. *)
Lemma collect_bulks_runs (ts : list Q) (ls : list Z) (mp mb : Z) (thr : Q) :
  length ls = length ts -> ts <> [] ->
  collect_bulks ts ls mp mb thr
  = Some (map bulk_of_run (qualifying_runs mp mb thr (combine ts ls))).
Proof.
  intros Hlen Hne.
  rewrite collect_bulks_final.
  pose proof (map_fst_combine ts ls Hlen) as Hf.
  pose proof (map_snd_combine ts ls Hlen) as Hsn.
  destruct (combine ts ls) as [|c rest] eqn:Hst.
  - simpl in Hf. subst ts. contradiction.
  - rewrite <- Hf, <- Hsn.
    change (map fst (c :: rest)) with (fst c :: map fst rest) at 3.
    rewrite (bulk_loop_runs mp mb thr (c :: rest) rest [] [] c [] 0 0);
      reflexivity.
Qed.

Lemma collect_bulks_empty (mp mb : Z) (thr : Q) :
  (0 < mp \/ 0 < mb)%Z -> collect_bulks [] [] mp mb thr = Some [].
Proof.
  intro H. unfold collect_bulks. simpl. unfold qualifies.
  destruct (mp <=? 0)%Z eqn:E1; [|reflexivity].
  destruct (mb <=? 0)%Z eqn:E2; [|reflexivity].
  apply Z.leb_le in E1, E2. lia.
Qed.

(** The number of recorded bulks is the number of qualifying runs. *)
Lemma qualifying_bulks_runs (ts : list Q) (ls : list Z) (mp mb : Z) (thr : Q) :
  length ls = length ts ->
  (ts <> [] \/ (0 < mp)%Z \/ (0 < mb)%Z) ->
  qualifying_bulks ts ls mp mb thr
  = Some (length (qualifying_runs mp mb thr (combine ts ls))).
Proof.
  intros Hlen Hdom. unfold qualifying_bulks.
  destruct (Z.of_nat (length ts) <? mp)%Z eqn:E.
  - apply Z.ltb_lt in E. rewrite short_stream_no_run; [reflexivity|].
    rewrite <- (length_map fst), map_fst_combine; assumption.
  - destruct ts as [|t ts].
    + destruct ls; [|discriminate Hlen].
      rewrite collect_bulks_empty; [reflexivity|].
      destruct Hdom as [Hc|Hdom]; [contradiction|exact Hdom].
    + rewrite collect_bulks_runs; [|exact Hlen|discriminate].
      simpl. now rewrite length_map.
Qed.

Lemma mean_of_list (x : Q) (l : list Q) :
  safe_stat (PyList (x :: l)) np_mean 0 = arithmetic_mean (x :: l).
Proof. reflexivity. Qed.

Lemma compute_bulk_metrics_spec (ts : list Q) (ls : list Z) (mp mb : Z) (thr : Q) :
  length ls = length ts ->
  (ts <> [] \/ (0 < mp)%Z \/ (0 < mb)%Z) ->
  compute_bulk_metrics ts ls mp mb thr
  = Some (spec_bulk_metrics ts ls mp mb thr).
Proof.
  intros Hlen Hdom. unfold compute_bulk_metrics, spec_bulk_metrics.
  destruct (Z.of_nat (length ts) <? mp)%Z eqn:E.
  - apply Z.ltb_lt in E. rewrite short_stream_no_run; [reflexivity|].
    rewrite <- (length_map fst), map_fst_combine; assumption.
  - assert (Hc : collect_bulks ts ls mp mb thr
                 = Some (map bulk_of_run
                           (qualifying_runs mp mb thr (combine ts ls)))).
    { destruct ts as [|t ts].
      - destruct ls; [|discriminate Hlen].
        rewrite collect_bulks_empty; [reflexivity|].
        destruct Hdom as [Hc|Hdom]; [contradiction|exact Hdom].
      - apply collect_bulks_runs; [exact Hlen|discriminate]. }
    rewrite Hc.
    destruct (qualifying_runs mp mb thr (combine ts ls)) as [|r q];
      [reflexivity|].
    cbn [map]. rewrite !mean_of_list.
    change (inject_Z (bulk_bytes_of (bulk_of_run r))) with (inject_Z (run_bytes r)).
    change (inject_Z (bulk_count_of (bulk_of_run r)))
      with (inject_Z (run_packets r)).
    change (bulk_rate_of (bulk_of_run r)) with (run_rate r).
    rewrite !map_map. reflexivity.
Qed.

(** C5: on aligned samples the detector cuts the stream into contiguous
    runs, a new run starting at every gap that reaches the threshold; it
    records a run when the run has at least [min_pkts] packets and at
    least [min_bytes] bytes, with rate byte sum over
    [max(duration, 1e-4)]; its three outputs are the arithmetic means of
    byte sum, packet count and rate over the recorded runs, and are 0
    when there are fewer than [min_pkts] samples or when no run
    qualifies.  Four packets of 600 bytes at seconds 0, 0.1, 0.2, 0.3
    with minimums 4 and 500 make one qualifying run, with 2400 bytes and
    4 packets on average. *)
Theorem bulk_metrics_are_means_over_qualifying_runs :
  (forall (ts : list Q) (ls : list Z) (mp mb : Z) (thr : Q),
      length ls = length ts ->
      (ts <> [] \/ (0 < mp)%Z \/ (0 < mb)%Z) ->
      (concat (split_runs thr (combine ts ls)) = combine ts ls
       /\ Forall (run_tight thr) (split_runs thr (combine ts ls))
       /\ runs_separated thr (split_runs thr (combine ts ls)))
      /\ collect_bulks ts ls mp mb thr
         = Some (map (fun r => (run_packets r, run_bytes r,
                                inject_Z (run_bytes r)
                                / Qmax (run_duration r) (1 # 10000)))
                     (filter (fun r => (mp <=? run_packets r)%Z
                                       && (mb <=? run_bytes r)%Z)
                             (split_runs thr (combine ts ls))))
      /\ compute_bulk_metrics ts ls mp mb thr
         = Some (spec_bulk_metrics ts ls mp mb thr)
      /\ ((Z.of_nat (length ts) < mp)%Z ->
          compute_bulk_metrics ts ls mp mb thr = Some no_bulk)
      /\ (qualifying_runs mp mb thr (combine ts ls) = [] ->
          compute_bulk_metrics ts ls mp mb thr = Some no_bulk))
  /\ (qualifying_runs BULK_MIN_PKTS BULK_MIN_BYTES IDLE_THRESHOLD
        (combine bulk_times bulk_lengths)
      = [combine bulk_times bulk_lengths]
      /\ exists m,
           compute_bulk_metrics bulk_times bulk_lengths
             BULK_MIN_PKTS BULK_MIN_BYTES IDLE_THRESHOLD = Some m
           /\ avg_bytes m == 2400 /\ avg_packets m == 4
           /\ avg_rate m == 8000).
Proof.
  split.
  - intros ts ls mp mb thr Hlen Hdom.
    split; [apply split_runs_partition|].
    split.
    { destruct ts as [|t ts].
      - destruct ls; [|discriminate Hlen].
        rewrite collect_bulks_empty; [reflexivity|].
        destruct Hdom as [Hc|Hdom]; [contradiction|exact Hdom].
      - apply collect_bulks_runs; [exact Hlen|discriminate]. }
    split; [now apply compute_bulk_metrics_spec|].
    split.
    + intro Hlt. unfold compute_bulk_metrics.
      apply Z.ltb_lt in Hlt. now rewrite Hlt.
    + intro Hq. rewrite compute_bulk_metrics_spec by assumption.
      unfold spec_bulk_metrics. now rewrite Hq.
  - split; [reflexivity|].
    eexists. split; [vm_compute; reflexivity|].
    repeat split; reflexivity.
Qed.

Lemma bulk_metrics_are_means_over_qualifying_runs_witness :
  length bulk_lengths = length bulk_times
  /\ compute_bulk_metrics bulk_times bulk_lengths
       BULK_MIN_PKTS BULK_MIN_BYTES IDLE_THRESHOLD
     = Some (spec_bulk_metrics bulk_times bulk_lengths
               BULK_MIN_PKTS BULK_MIN_BYTES IDLE_THRESHOLD).
Proof.
  split; [reflexivity|].
  apply (proj1 bulk_metrics_are_means_over_qualifying_runs
           bulk_times bulk_lengths BULK_MIN_PKTS BULK_MIN_BYTES IDLE_THRESHOLD).
  - reflexivity.
  - left. discriminate.
Defined.

Lemma filter_length_le {A : Type} (f g : A -> bool) (l : list A) :
  (forall x, f x = true -> g x = true) ->
  (length (filter f l) <= length (filter g l))%nat.
Proof.
  intro Hfg. induction l as [|a l IH]; simpl; [lia|].
  destruct (f a) eqn:Ef.
  - rewrite (Hfg a Ef). simpl. lia.
  - destruct (g a); simpl; lia.
Qed.

(** C6: on aligned samples and a fixed threshold, raising [min_pkts] or
    [min_bytes] (or both) never raises the number of runs recorded as
    bulks, the early return counting as none. *)
Theorem raising_minimums_never_adds_bulks :
  forall (ts : list Q) (ls : list Z) (thr : Q) (mp mb mp' mb' : Z),
    length ls = length ts ->
    (ts <> [] \/ (0 < mp)%Z \/ (0 < mb)%Z) ->
    (mp <= mp')%Z -> (mb <= mb')%Z ->
    exists n n' : nat,
      qualifying_bulks ts ls mp mb thr = Some n
      /\ qualifying_bulks ts ls mp' mb' thr = Some n'
      /\ (n' <= n)%nat.
Proof.
  intros ts ls thr mp mb mp' mb' Hlen Hdom Hmp Hmb.
  rewrite !qualifying_bulks_runs; try assumption.
  - do 2 eexists. split; [reflexivity|]. split; [reflexivity|].
    apply filter_length_le. intros r Hr.
    unfold run_qualifies in *. apply andb_true_iff in Hr.
    destruct Hr as [H1 H2]. apply Z.leb_le in H1, H2.
    apply andb_true_iff. split; apply Z.leb_le; lia.
  - destruct Hdom as [H|[H|H]]; [now left|right; left; lia|right; right; lia].
Qed.

Lemma raising_minimums_never_adds_bulks_witness :
  length bulk_lengths = length bulk_times
  /\ (BULK_MIN_PKTS <= 5)%Z /\ (BULK_MIN_BYTES <= 500)%Z
  /\ qualifying_bulks bulk_times bulk_lengths 4 500 IDLE_THRESHOLD = Some 1%nat
  /\ qualifying_bulks bulk_times bulk_lengths 5 500 IDLE_THRESHOLD = Some 0%nat
  /\ exists n n' : nat,
       qualifying_bulks bulk_times bulk_lengths
         BULK_MIN_PKTS BULK_MIN_BYTES IDLE_THRESHOLD = Some n
       /\ qualifying_bulks bulk_times bulk_lengths 5 500 IDLE_THRESHOLD
          = Some n'
       /\ (n' <= n)%nat.
Proof.
  split; [reflexivity|]. split; [discriminate|]. split; [discriminate|].
  split; [reflexivity|]. split; [reflexivity|].
  apply (raising_minimums_never_adds_bulks bulk_times bulk_lengths
           IDLE_THRESHOLD BULK_MIN_PKTS BULK_MIN_BYTES 5 500).
  - reflexivity.
  - left. discriminate.
  - discriminate.
  - discriminate.
Defined.

(* ================================================================== *)
(** * Further properties of the extraction code *)

(** ** The flag decoder *)

Lemma land_1_mod (v : Z) : Z.land v 1 = (v mod 2)%Z.
Proof. change 1%Z with (Z.ones 1). apply Z.land_ones. lia. Qed.

Lemma flag_bit_mod (v k : Z) :
  (0 <= k)%Z -> flag_bit v k = ((v / 2 ^ k) mod 2)%Z.
Proof.
  intro Hk. unfold flag_bit. rewrite land_1_mod, Z.shiftr_div_pow2 by exact Hk.
  reflexivity.
Qed.

Lemma flag_bit_01 (v k : Z) : (0 <= k)%Z -> (0 <= flag_bit v k <= 1)%Z.
Proof.
  intro Hk. rewrite flag_bit_mod by exact Hk.
  pose proof (Z.mod_pos_bound (v / 2 ^ k) 2). lia.
Qed.

Lemma div_pow2_succ (v k : Z) :
  (0 <= k)%Z -> (v / 2 ^ (k + 1) = v / 2 ^ k / 2)%Z.
Proof.
  intro Hk. rewrite Z.pow_add_r by lia. change (2 ^ 1)%Z with 2%Z.
  rewrite Z.div_div by lia. reflexivity.
Qed.

Lemma byte_digits (v : Z) :
  (0 <= v < 256)%Z ->
  (v = v mod 2 + 2 * ((v / 2 ^ 1) mod 2) + 4 * ((v / 2 ^ 2) mod 2)
       + 8 * ((v / 2 ^ 3) mod 2) + 16 * ((v / 2 ^ 4) mod 2)
       + 32 * ((v / 2 ^ 5) mod 2) + 64 * ((v / 2 ^ 6) mod 2)
       + 128 * ((v / 2 ^ 7) mod 2))%Z.
Proof.
  intro Hv.
  pose proof (Z.div_mod v 2 ltac:(lia)) as H0.
  pose proof (Z.div_mod (v / 2 ^ 1) 2 ltac:(lia)) as H1.
  pose proof (Z.div_mod (v / 2 ^ 2) 2 ltac:(lia)) as H2.
  pose proof (Z.div_mod (v / 2 ^ 3) 2 ltac:(lia)) as H3.
  pose proof (Z.div_mod (v / 2 ^ 4) 2 ltac:(lia)) as H4.
  pose proof (Z.div_mod (v / 2 ^ 5) 2 ltac:(lia)) as H5.
  pose proof (Z.div_mod (v / 2 ^ 6) 2 ltac:(lia)) as H6.
  pose proof (Z.div_mod (v / 2 ^ 7) 2 ltac:(lia)) as H7.
  rewrite <- (div_pow2_succ v 1) in H1 by lia.
  rewrite <- (div_pow2_succ v 2) in H2 by lia.
  rewrite <- (div_pow2_succ v 3) in H3 by lia.
  rewrite <- (div_pow2_succ v 4) in H4 by lia.
  rewrite <- (div_pow2_succ v 5) in H5 by lia.
  rewrite <- (div_pow2_succ v 6) in H6 by lia.
  rewrite <- (div_pow2_succ v 7) in H7 by lia.
  change (2 ^ 1)%Z with 2%Z in *.
  cbn [Z.add Pos.add Pos.succ] in *.
  assert (H8 : (v / 2 ^ 8 = 0)%Z) by (apply Z.div_small; cbn; lia).
  rewrite H8 in H7.
  lia.
Qed.

(** X1: the eight bits decoded from one flag value are each 0 or 1,
    whatever the integer; for a value of one byte they are its binary
    digits, FIN the lowest and CWR the highest. *)
Theorem flag_bits_decode_a_byte :
  forall v : Z,
    let c := Aggregate.count_flags [Some v] in
    ((0 <= Aggregate.fin c <= 1) /\ (0 <= Aggregate.syn c <= 1)
     /\ (0 <= Aggregate.rst c <= 1) /\ (0 <= Aggregate.psh c <= 1)
     /\ (0 <= Aggregate.ack c <= 1) /\ (0 <= Aggregate.urg c <= 1)
     /\ (0 <= Aggregate.ece c <= 1) /\ (0 <= Aggregate.cwr c <= 1))%Z
    /\ ((0 <= v < 256)%Z ->
        v = (Aggregate.fin c + 2 * Aggregate.syn c + 4 * Aggregate.rst c
             + 8 * Aggregate.psh c + 16 * Aggregate.ack c
             + 32 * Aggregate.urg c + 64 * Aggregate.ece c
             + 128 * Aggregate.cwr c)%Z).
Proof.
  intro v.
  cbv [Aggregate.count_flags fold_left Aggregate.count_step Aggregate.no_flags
       Aggregate.fin Aggregate.syn Aggregate.rst Aggregate.psh Aggregate.ack
       Aggregate.urg Aggregate.ece Aggregate.cwr].
  rewrite !Z.add_0_l.
  rewrite land_1_mod, !flag_bit_mod by lia.
  split.
  - repeat split;
      match goal with
      | |- context [(?a mod 2)%Z] => pose proof (Z.mod_pos_bound a 2); lia
      end.
  - intro Hv. exact (byte_digits v Hv).
Qed.

Lemma flag_bits_decode_a_byte_witness :
  (0 <= 24 < 256)%Z
  /\ 24%Z = (let c := Aggregate.count_flags [Some 24%Z] in
             Aggregate.fin c + 2 * Aggregate.syn c + 4 * Aggregate.rst c
             + 8 * Aggregate.psh c + 16 * Aggregate.ack c
             + 32 * Aggregate.urg c + 64 * Aggregate.ece c
             + 128 * Aggregate.cwr c)%Z.
Proof.
  split; [lia|].
  apply (proj2 (flag_bits_decode_a_byte 24)). lia.
Defined.

Lemma count_flags_snoc (l : list (option Z)) (x : option Z) :
  Aggregate.count_flags (l ++ [x])
  = Aggregate.count_step (Aggregate.count_flags l) x.
Proof. unfold Aggregate.count_flags. now rewrite fold_left_app. Qed.

Lemma count_step_bounds (c : Aggregate.Cnts) (x : option Z) (n : Z) :
  (0 <= Aggregate.fin c <= n /\ 0 <= Aggregate.syn c <= n
   /\ 0 <= Aggregate.rst c <= n /\ 0 <= Aggregate.psh c <= n
   /\ 0 <= Aggregate.ack c <= n /\ 0 <= Aggregate.urg c <= n
   /\ 0 <= Aggregate.ece c <= n /\ 0 <= Aggregate.cwr c <= n)%Z ->
  let c' := Aggregate.count_step c x in
  (0 <= Aggregate.fin c' <= n + 1 /\ 0 <= Aggregate.syn c' <= n + 1
   /\ 0 <= Aggregate.rst c' <= n + 1 /\ 0 <= Aggregate.psh c' <= n + 1
   /\ 0 <= Aggregate.ack c' <= n + 1 /\ 0 <= Aggregate.urg c' <= n + 1
   /\ 0 <= Aggregate.ece c' <= n + 1 /\ 0 <= Aggregate.cwr c' <= n + 1)%Z.
Proof.
  intro H. destruct x as [v|];
    cbv [Aggregate.count_step Aggregate.fin Aggregate.syn Aggregate.rst
         Aggregate.psh Aggregate.ack Aggregate.urg Aggregate.ece Aggregate.cwr]
      in *.
  - destruct c. pose proof (land_1_mod v) as H0.
    pose proof (Z.mod_pos_bound v 2).
    pose proof (flag_bit_01 v 1). pose proof (flag_bit_01 v 2).
    pose proof (flag_bit_01 v 3). pose proof (flag_bit_01 v 4).
    pose proof (flag_bit_01 v 5). pose proof (flag_bit_01 v 6).
    pose proof (flag_bit_01 v 7). lia.
  - destruct c. lia.
Qed.

(** X2: each of the eight flag totals of a row lies between 0 and the
    number of recorded flag entries, and an entry that does not parse
    leaves all eight totals unchanged. *)
Theorem flag_totals_bounded :
  forall flags : list (option Z),
    let c := Aggregate.count_flags flags in
    let n := Z.of_nat (length flags) in
    (0 <= Aggregate.fin c <= n /\ 0 <= Aggregate.syn c <= n
     /\ 0 <= Aggregate.rst c <= n /\ 0 <= Aggregate.psh c <= n
     /\ 0 <= Aggregate.ack c <= n /\ 0 <= Aggregate.urg c <= n
     /\ 0 <= Aggregate.ece c <= n /\ 0 <= Aggregate.cwr c <= n)%Z
    /\ Aggregate.count_flags (flags ++ [None]) = c.
Proof.
  intro flags. cbv zeta. split; [|now rewrite count_flags_snoc].
  induction flags as [|x flags IH] using rev_ind.
  - cbv. repeat split; discriminate.
  - rewrite count_flags_snoc, length_app. cbn [length].
    replace (Z.of_nat (length flags + 1)) with (Z.of_nat (length flags) + 1)%Z
      by lia.
    apply count_step_bounds. exact IH.
Qed.

(** ** Idle gaps and active spans *)

Lemma active_idle_loop_idle (ts : list Q) (thr : Q) :
  forall (deltas : list Q) (i : nat) (active idle : list Q) (s : nat),
    snd (fst (active_idle_loop ts thr deltas i active idle s))
    = idle ++ filter (fun dt => Qge_bool dt thr) deltas.
Proof.
  induction deltas as [|dt rest IH]; intros i active idle s; simpl.
  - now rewrite app_nil_r.
  - destruct (Qge_bool dt thr).
    + rewrite IH. now rewrite <- app_assoc.
    + apply IH.
Qed.

Lemma np_diff_short (ts : list Q) : (length ts < 2)%nat -> np_diff ts = [].
Proof. destruct ts as [|a [|b t]]; simpl; intros; [reflexivity..|lia]. Qed.

(** X3: the idle sequence is the sequence of consecutive differences
    that reach the threshold, in order; in particular every idle gap is
    at least the threshold. *)
Theorem idle_gaps_are_the_large_deltas :
  forall (ts : list Q) (thr : Q),
    snd (compute_active_idle ts thr)
    = filter (fun dt => Qge_bool dt thr) (np_diff ts)
    /\ Forall (fun gap => thr <= gap) (snd (compute_active_idle ts thr)).
Proof.
  intros ts thr.
  assert (H : snd (compute_active_idle ts thr)
              = filter (fun dt => Qge_bool dt thr) (np_diff ts)).
  { unfold compute_active_idle.
    destruct (length ts <? 2)%nat eqn:E.
    - apply Nat.ltb_lt in E. now rewrite np_diff_short.
    - pose proof (active_idle_loop_idle ts thr (np_diff ts) 0 [] [] 0) as H.
      destruct (active_idle_loop ts thr (np_diff ts) 0 [] [] 0)
        as [[active idle] s].
      exact H. }
  split; [exact H|].
  rewrite H. apply Forall_forall. intros x Hx.
  apply filter_In in Hx. destruct Hx as [_ Hx]. now apply Qge_bool_iff.
Qed.

Lemma ascending_tail (a : Q) (l : list Q) : ascending (a :: l) -> ascending l.
Proof. destruct l; simpl; tauto. Qed.

Lemma ascending_nth_le (l : list Q) :
  ascending l ->
  forall i j : nat, (i <= j < length l)%nat -> nth i l 0 <= nth j l 0.
Proof.
  induction l as [|a l IH]; intros Hasc i j Hij; [simpl in Hij; lia|].
  assert (Hhd : forall j, (j < length (a :: l))%nat -> a <= nth j (a :: l) 0).
  { clear i j Hij. intros j. revert a Hasc IH.
    induction j as [|j IHj]; intros a Hasc IH Hj; [simpl; lra|].
    destruct l as [|b l]; [simpl in Hj; lia|].
    destruct Hasc as [Hab Hasc]. simpl nth.
    apply Qle_trans with b; [exact Hab|].
    apply (IH Hasc 0%nat j). simpl in *. lia. }
  destruct i as [|i].
  - apply Hhd. lia.
  - destruct j as [|j]; [lia|]. simpl nth.
    apply IH; [now apply ascending_tail in Hasc|]. simpl in Hij. lia.
Qed.

Lemma last_nth (l : list Q) : last l 0 = nth (length l - 1) l 0.
Proof.
  induction l as [|a l IH]; [reflexivity|].
  destruct l as [|b l]; [reflexivity|].
  change (last (a :: b :: l) 0) with (last (b :: l) 0).
  rewrite IH. simpl. now rewrite Nat.sub_0_r.
Qed.

Lemma active_idle_loop_nonneg (ts : list Q) (thr : Q) :
  ascending ts ->
  forall (deltas : list Q) (i : nat) (active idle : list Q) (s : nat),
    (s <= i)%nat -> (i + length deltas < length ts)%nat ->
    Forall (fun span => 0 <= span) active ->
    let '(active', _, s') := active_idle_loop ts thr deltas i active idle s in
    Forall (fun span => 0 <= span) active' /\ (s' < length ts)%nat.
Proof.
  intros Hasc. induction deltas as [|dt rest IH];
    intros i active idle s Hsi Hlen Hact.
  - simpl. split; [exact Hact|simpl in Hlen; lia].
  - simpl. simpl in Hlen. destruct (Qge_bool dt thr).
    + apply IH; [lia|lia|].
      apply Forall_app. split; [exact Hact|].
      constructor; [|constructor].
      pose proof (ascending_nth_le ts Hasc s i ltac:(lia)). lra.
    + apply IH; [lia|lia|exact Hact].
Qed.

(** X4: on timestamps in ascending order every active span is
    non-negative. *)
Theorem active_spans_nonnegative :
  forall (ts : list Q) (thr : Q),
    ascending ts ->
    Forall (fun span => 0 <= span) (fst (compute_active_idle ts thr)).
Proof.
  intros ts thr Hasc. unfold compute_active_idle.
  destruct (length ts <? 2)%nat eqn:E; [constructor|].
  apply Nat.ltb_ge in E.
  pose proof (active_idle_loop_nonneg ts thr Hasc (np_diff ts) 0 [] [] 0) as H.
  destruct (active_idle_loop ts thr (np_diff ts) 0 [] [] 0)
    as [[active idle] s].
  destruct H as [Hact Hs]; [lia|rewrite np_diff_length; lia|constructor|].
  simpl. apply Forall_app. split; [exact Hact|].
  constructor; [|constructor].
  rewrite last_nth.
  pose proof (ascending_nth_le ts Hasc s (length ts - 1) ltac:(lia)). lra.
Qed.

Lemma active_spans_nonnegative_witness :
  ascending scenario_times
  /\ Forall (fun span => 0 <= span)
            (fst (compute_active_idle scenario_times IDLE_THRESHOLD)).
Proof.
  assert (H : ascending scenario_times).
  { simpl. repeat split; apply Qle_bool_iff; reflexivity. }
  split; [exact H|].
  apply (active_spans_nonnegative scenario_times IDLE_THRESHOLD H).
Defined.

(** ** [sorted] *)

Lemma Qle_bool_false_le (a b : Q) : Qle_bool a b = false -> b <= a.
Proof.
  intro H. apply Qlt_le_weak, Qnot_le_lt. intro Hle.
  apply Qle_bool_iff in Hle. congruence.
Qed.

Lemma insert_sorted_ascending (x : Q) (l : list Q) :
  ascending l -> ascending (insert_sorted x l).
Proof.
  induction l as [|y t IH]; intro Hasc; [exact I|].
  simpl. destruct (Qle_bool y x) eqn:E.
  - apply Qle_bool_iff in E.
    specialize (IH (ascending_tail _ _ Hasc)).
    destruct t as [|z t]; simpl in *.
    + split; [exact E|exact I].
    + destruct (Qle_bool z x) eqn:E2.
      * split; [tauto|exact IH].
      * split; [exact E|exact IH].
  - apply Qle_bool_false_le in E. split; [exact E|exact Hasc].
Qed.

Lemma sorted_fold_ascending (l acc : list Q) :
  ascending acc ->
  ascending (fold_left (fun a x => insert_sorted x a) l acc).
Proof.
  revert acc. induction l as [|x l IH]; intros acc H; simpl; [exact H|].
  apply IH, insert_sorted_ascending, H.
Qed.

Lemma sorted_ascending (l : list Q) : ascending (sorted l).
Proof. apply sorted_fold_ascending. exact I. Qed.

(** X5: in every row the active spans are non-negative and the idle
    gaps are at least one second, whatever the order in which the
    timestamps were recorded: the aggregator analyses the sorted
    timestamps. *)
Theorem row_active_nonnegative_idle_large :
  forall f : Flow,
    Forall (fun span => 0 <= span) (fst (Aggregate.active_idle f))
    /\ Forall (fun gap => 1 <= gap) (snd (Aggregate.active_idle f)).
Proof.
  intro f. unfold Aggregate.active_idle. split.
  - pose proof (sorted_ascending (times f)) as Hasc.
    pose proof (active_idle_loop_nonneg (sorted (times f)) IDLE_THRESHOLD Hasc
                  (np_diff (sorted (times f))) 0 [] [] 0) as H.
    unfold compute_active_idle.
    destruct (length (sorted (times f)) <? 2)%nat eqn:E; [constructor|].
    apply Nat.ltb_ge in E.
    destruct (active_idle_loop _ _ _ 0 [] [] 0) as [[active idle] s].
    destruct H as [Hact Hs]; [lia|rewrite np_diff_length; lia|constructor|].
    simpl. apply Forall_app. split; [exact Hact|].
    constructor; [|constructor].
    rewrite last_nth.
    pose proof (ascending_nth_le _ Hasc s (length (sorted (times f)) - 1)
                  ltac:(lia)).
    lra.
  - pose proof (active_idle_loop_idle (sorted (times f)) IDLE_THRESHOLD
                  (np_diff (sorted (times f))) 0 [] [] 0) as H.
    unfold compute_active_idle.
    destruct (length (sorted (times f)) <? 2)%nat; [constructor|].
    destruct (active_idle_loop _ _ _ 0 [] [] 0) as [[active idle] s].
    simpl in *. rewrite H. apply Forall_forall. intros x Hx.
    apply filter_In in Hx. destruct Hx as [_ Hx].
    apply Qge_bool_iff in Hx. exact Hx.
Qed.

(** ** Totals and averages of a row *)

Lemma np_diff_sum (l : list Q) :
  l <> [] -> Qsum (np_diff l) == last l 0 - hd 0 l.
Proof.
  induction l as [|a l IH]; intro Hne; [contradiction|].
  destruct l as [|b l].
  - simpl. ring.
  - change (np_diff (a :: b :: l)) with ((b - a) :: np_diff (b :: l)).
    change (last (a :: b :: l) 0) with (last (b :: l) 0).
    simpl Qsum. rewrite IH by discriminate. simpl hd. ring.
Qed.

(** X6: 'fwd iat total' is the span of the forward timestamps, the last
    of the sorted timestamps minus the first, when the flow has two or
    more forward packets, and 0 otherwise; likewise 'bwd iat total'. *)
Theorem iat_total_is_the_span :
  forall f : Flow,
    Aggregate.fwd_iat_total f
    == (if (1 <? length (fwd_times f))%nat
        then last (sorted (fwd_times f)) 0 - hd 0 (sorted (fwd_times f))
        else 0)
    /\ Aggregate.bwd_iat_total f
       == (if (1 <? length (bwd_times f))%nat
           then last (sorted (bwd_times f)) 0 - hd 0 (sorted (bwd_times f))
           else 0).
Proof.
  intro f. unfold Aggregate.fwd_iat_total, Aggregate.bwd_iat_total,
    Row.f_iats, Row.b_iats.
  split.
  - destruct (1 <? length (fwd_times f))%nat eqn:E; [|simpl; ring].
    simpl items. apply np_diff_sum. intro H.
    apply Nat.ltb_lt in E. rewrite <- sorted_length, H in E. simpl in E. lia.
  - destruct (1 <? length (bwd_times f))%nat eqn:E; [|simpl; ring].
    simpl items. apply np_diff_sum. intro H.
    apply Nat.ltb_lt in E. rewrite <- sorted_length, H in E. simpl in E. lia.
Qed.

Lemma Qsum_inject_Z (l : list Z) : Qsum (map inject_Z l) == inject_Z (Zsum l).
Proof.
  induction l as [|a l IH]; simpl; [reflexivity|].
  rewrite IH, inject_Z_plus. reflexivity.
Qed.

Lemma mean_of_ints (l : list Z) :
  Row.M (Aggregate.int_list l)
  == inject_Z (Zsum l) / inject_Z (Z.max (Z.of_nat (length l)) 1).
Proof.
  unfold Row.M, Aggregate.int_list.
  destruct l as [|a l].
  - simpl. reflexivity.
  - change (safe_stat (PyList (map inject_Z (a :: l))) np_mean 0)
      with (Qsum (map inject_Z (a :: l))
            / inject_Z (Z.of_nat (length (map inject_Z (a :: l))))).
    rewrite Qsum_inject_Z, length_map.
    replace (Z.max (Z.of_nat (length (a :: l))) 1)
      with (Z.of_nat (length (a :: l))) by (simpl length; lia).
    reflexivity.
Qed.

(** X7: 'average packet size' equals 'packet length mean', 'avg fwd
    segment size' equals 'fwd packet length mean' and 'avg bwd segment
    size' equals 'bwd packet length mean', for every flow, the empty
    sides included (both are 0 there). *)
Theorem average_sizes_are_the_means :
  forall f : Flow,
    Aggregate.average_packet_size f == Aggregate.packet_length_mean f
    /\ Aggregate.avg_fwd_segment_size f == Aggregate.fwd_packet_length_mean f
    /\ Aggregate.avg_bwd_segment_size f == Aggregate.bwd_packet_length_mean f.
Proof.
  intro f.
  unfold Aggregate.average_packet_size, Aggregate.packet_length_mean,
    Aggregate.avg_fwd_segment_size, Aggregate.fwd_packet_length_mean,
    Aggregate.avg_bwd_segment_size, Aggregate.bwd_packet_length_mean,
    Aggregate.tb, Aggregate.tp, Aggregate.tfb, Aggregate.tfp,
    Aggregate.tbb, Aggregate.tbp.
  rewrite !mean_of_ints. repeat split; reflexivity.
Qed.

(** ** The loop body in one assignment *)

Section Overwrite.
Context {K : Type}.
Variable eqb : K -> K -> bool.
Hypothesis eqb_eq : forall a b, eqb a b = true <-> a = b.

Lemma dict_set_set {V : Type} (d : list (K * V)) (k : K) (v v' : V) :
  dict_set eqb (dict_set eqb d k v) k v' = dict_set eqb d k v'.
Proof.
  induction d as [|[k0 v0] d IH]; simpl.
  - now rewrite (proj2 (eqb_eq k k) eq_refl).
  - destruct (eqb k k0) eqn:E; simpl.
    + now rewrite (proj2 (eqb_eq k k) eq_refl).
    + rewrite E. now rewrite IH.
Qed.

Lemma dict_get_In {V : Type} (d : list (K * V)) (k : K) (v : V) :
  dict_get eqb d k = Some v -> In (k, v) d.
Proof.
  induction d as [|[k0 v0] d IH]; simpl; [discriminate|].
  destruct (eqb k k0) eqn:E.
  - intro H. injection H as <-. apply eqb_eq in E. subst. now left.
  - intro H. right. now apply IH.
Qed.

Lemma dict_get_keys {V : Type} (d : list (K * V)) (k : K) :
  dict_get eqb d k = None -> ~ In k (map fst d).
Proof.
  induction d as [|[k0 v0] d IH]; simpl; [tauto|].
  destruct (eqb k k0) eqn:E; [discriminate|].
  intros H [Hc|Hc].
  - subst. rewrite (proj2 (eqb_eq k k) eq_refl) in E. discriminate.
  - now apply IH.
Qed.

(** Creating the accumulator when it is missing and then replacing it
    by what the loop body made of it is one assignment to [flows[key]]. *)
Lemma file_normal_form (flows : list (K * Flow)) (key : K) (ts : Q)
    (g : Flow -> Flow) :
  match
    dict_get eqb
      (if dict_mem eqb flows key then flows
       else dict_set eqb flows key (new_flow ts)) key
  with
  | Some f =>
      dict_set eqb
        (if dict_mem eqb flows key then flows
         else dict_set eqb flows key (new_flow ts)) key (g f)
  | None =>
      if dict_mem eqb flows key then flows
      else dict_set eqb flows key (new_flow ts)
  end
  = dict_set eqb flows key (g (flow_or_new eqb flows key ts)).
Proof.
  unfold dict_mem, flow_or_new.
  destruct (dict_get eqb flows key) as [f|] eqn:Hget; simpl.
  - now rewrite Hget.
  - rewrite (dict_get_set_same eqb eqb_eq). apply dict_set_set.
Qed.
End Overwrite.

Lemma attack_process_packet_eq (flows : Attack.Flows) (pkt : Packet) :
  Attack.process_packet flows pkt
  = match endpoints pkt with
    | None => flows
    | Some (ts, ep) =>
        dict_set BaseKey_eqb flows (fst (Attack.assign flows ep))
          (snd (accumulate pkt ts (is_fwd (snd (Attack.assign flows ep)))
                  (flow_or_new BaseKey_eqb flows
                     (fst (Attack.assign flows ep)) ts)))
    end.
Proof.
  unfold Attack.process_packet.
  destruct (endpoints pkt) as [[ts ep]|]; [|reflexivity].
  destruct (Attack.assign flows ep) as [key dir]. cbv beta iota.
  unfold Attack.Flows in *.
  apply (file_normal_form BaseKey_eqb BaseKey_eqb_eq flows key ts
           (fun f => snd (accumulate pkt ts (is_fwd dir) f))).
Qed.

Lemma benign_process_packet_eq (st : Benign.State) (pkt : Packet) :
  Benign.process_packet st pkt
  = match endpoints pkt with
    | None => st
    | Some (ts, (src, sport, dst, dport)) =>
        let base := (src, sport, dst, dport, transport_layer pkt) in
        let meta := meta_for st base ts in
        let key := (base, Benign.idx meta) in
        Benign.mkState
          (dict_set BaseKey_eqb (Benign.flow_meta st) base
             (Benign.mkMeta (Benign.idx meta) (Benign.start_ts meta)
                (S (Benign.pkt_count meta))))
          (dict_set Benign.Key_eqb (Benign.flows st) key
             (snd (accumulate pkt ts true
                     (flow_or_new Benign.Key_eqb (Benign.flows st) key ts))))
    end.
Proof.
  unfold Benign.process_packet.
  destruct (endpoints pkt) as [[ts [[[src sport] dst] dport]]|]; [|reflexivity].
  rewrite direction_test_true. cbv zeta. unfold Benign.setdefault.
  fold (meta_for st (src, sport, dst, dport, transport_layer pkt) ts).
  set (key := (_, Benign.idx _)).
  pose proof (file_normal_form Benign.Key_eqb Key_eqb_eq (Benign.flows st)
                key ts (fun f => snd (accumulate pkt ts true f))) as H.
  cbv beta in H.
  destruct (dict_get Benign.Key_eqb
              (if dict_mem Benign.Key_eqb (Benign.flows st) key
               then Benign.flows st
               else dict_set Benign.Key_eqb (Benign.flows st) key (new_flow ts))
              key); now rewrite <- H.
Qed.

(** A property of accumulators that new accumulators have and the loop
    body keeps holds throughout both flow tables. *)
Lemma attack_ingest_Forall (P : Flow -> Prop) :
  (forall ts, P (new_flow ts)) ->
  (forall pkt ts fw f, P f -> P (snd (accumulate pkt ts fw f))) ->
  forall cap, Forall (fun kf => P (snd kf)) (Attack.ingest cap).
Proof.
  intros Hnew Hacc cap. unfold Attack.ingest.
  assert (H0 : Forall (fun kf : BaseKey * Flow => P (snd kf)) []) by constructor.
  revert H0. generalize (@nil (BaseKey * Flow)).
  induction cap as [|pkt cap IH]; intros flows Hf; simpl; [exact Hf|].
  apply IH. rewrite attack_process_packet_eq.
  destruct (endpoints pkt) as [[ts ep]|]; [|exact Hf].
  apply dict_set_Forall; [exact Hf|]. simpl. apply Hacc.
  unfold flow_or_new.
  destruct (dict_get BaseKey_eqb flows _) as [f|] eqn:Hget; [|apply Hnew].
  apply (dict_get_Forall BaseKey_eqb BaseKey_eqb_eq
           (fun kf => P (snd kf)) _ _ _ Hf Hget).
Qed.

Lemma benign_ingest_Forall (P : Flow -> Prop) :
  (forall ts, P (new_flow ts)) ->
  (forall pkt ts f, P f -> P (snd (accumulate pkt ts true f))) ->
  forall cap, Forall (fun kf => P (snd kf)) (Benign.flows (Benign.ingest cap)).
Proof.
  intros Hnew Hacc cap. unfold Benign.ingest.
  assert (H0 : Forall (fun kf : Benign.Key * Flow => P (snd kf))
                      (Benign.flows Benign.init)) by constructor.
  revert H0. generalize Benign.init.
  induction cap as [|pkt cap IH]; intros st Hf; simpl; [exact Hf|].
  apply IH. rewrite benign_process_packet_eq.
  destruct (endpoints pkt) as [[ts [[[src sport] dst] dport]]|]; [|exact Hf].
  cbv zeta. cbn [Benign.flows].
  apply dict_set_Forall; [exact Hf|]. simpl. apply Hacc.
  unfold flow_or_new.
  destruct (dict_get Benign.Key_eqb (Benign.flows st) _) as [f|] eqn:Hget;
    [|apply Hnew].
  apply (dict_get_Forall Benign.Key_eqb Key_eqb_eq
           (fun kf => P (snd kf)) _ _ _ Hf Hget).
Qed.

(** ** What one run of the loop body does to an accumulator *)

Arguments flag_bit : simpl never.
Arguments Aggregate.count_flags : simpl never.

Ltac accumulate_cases pkt f fw :=
  destruct pkt as [t0 s0 d0 sp dp tl len hdr win fl];
  destruct f as [a b c e g h i j k l m n o p q iwf iwb];
  destruct len as [| |len]; destruct hdr as [| |hdr];
  destruct win as [| |win]; destruct fl as [| |fl];
  destruct iwf as [iwf|]; destruct iwb as [iwb|]; destruct fw;
  cbn.

(** Whatever the packet, the loop body keeps [start], sets [end] to the
    packet's timestamp, appends at most that timestamp to [times], and
    never changes an initial window that is already recorded. *)
Lemma accumulate_frame (pkt : Packet) (ts : Q) (fw : bool) (f : Flow) :
  let f' := snd (accumulate pkt ts fw f) in
  start f' = start f
  /\ end_ f' = ts
  /\ (times f' = times f \/ times f' = times f ++ [ts])
  /\ (forall w, init_win_fwd f = Some w -> init_win_fwd f' = Some w)
  /\ (forall w, init_win_bwd f = Some w -> init_win_bwd f' = Some w).
Proof.
  accumulate_cases pkt f fw; repeat split; intros; try discriminate; auto.
Qed.

Lemma accumulate_aligned (pkt : Packet) (ts : Q) (fw : bool) (f : Flow) :
  aligned f -> aligned (snd (accumulate pkt ts fw f)).
Proof.
  unfold aligned.
  accumulate_cases pkt f fw; rewrite ?length_app; cbn [length];
    intros (H1 & H2 & H3 & H4 & H5 & H6 & H7); repeat split; lia.
Qed.

Lemma accumulate_flags_agree (pkt : Packet) (ts : Q) (fw : bool) (f : Flow) :
  flags_agree f -> flags_agree (snd (accumulate pkt ts fw f)).
Proof.
  unfold flags_agree.
  accumulate_cases pkt f fw; rewrite ?count_flags_snoc;
    cbn [Aggregate.count_step Aggregate.psh Aggregate.urg];
    intros [H1 H2]; split; lia.
Qed.

(** ** Invariants of the flow tables *)

Lemma new_flow_aligned (ts : Q) : aligned (new_flow ts).
Proof. unfold aligned. simpl. repeat split; lia. Qed.

Lemma attack_ingest_aligned (cap : list Packet) :
  Forall (fun kf => aligned (snd kf)) (Attack.ingest cap).
Proof.
  apply attack_ingest_Forall; [exact new_flow_aligned|].
  intros pkt ts fw f. apply accumulate_aligned.
Qed.

Lemma benign_ingest_aligned (cap : list Packet) :
  Forall (fun kf => aligned (snd kf)) (Benign.flows (Benign.ingest cap)).
Proof.
  apply benign_ingest_Forall; [exact new_flow_aligned|].
  intros pkt ts f. apply accumulate_aligned.
Qed.

(** X8: after any capture, malformed packets included, every
    accumulator of either script has as many lengths as timestamps, as
    many forward lengths and forward headers as forward timestamps, the
    same on the backward side, no more per-direction entries than
    timestamps and no more flag entries than per-direction entries. *)
Theorem accumulator_lists_stay_aligned :
  forall cap : list Packet,
    Forall (fun kf => aligned (snd kf)) (Attack.ingest cap)
    /\ Forall (fun kf => aligned (snd kf)) (Benign.flows (Benign.ingest cap)).
Proof.
  intro cap. split; [apply attack_ingest_aligned|apply benign_ingest_aligned].
Qed.

Lemma aligned_bulk_columns (f : Flow) :
  aligned f ->
  Aggregate.bulk_f f
  = Some (spec_bulk_metrics (sorted (fwd_times f)) (fwd_lengths f)
            BULK_MIN_PKTS BULK_MIN_BYTES IDLE_THRESHOLD)
  /\ Aggregate.bulk_b f
     = Some (spec_bulk_metrics (sorted (bwd_times f)) (bwd_lengths f)
               BULK_MIN_PKTS BULK_MIN_BYTES IDLE_THRESHOLD).
Proof.
  intros (_ & Hf & _ & Hb & _).
  unfold Aggregate.bulk_f, Aggregate.bulk_b. split.
  - apply compute_bulk_metrics_spec.
    + now rewrite sorted_length.
    + right. left. reflexivity.
  - apply compute_bulk_metrics_spec.
    + now rewrite sorted_length.
    + right. left. reflexivity.
Qed.

(** X9: for every accumulator either script builds from any capture,
    the two calls of the bulk detector made for its row return without
    raising, and the six bulk columns are the means over the qualifying
    runs of that side's sorted timestamps paired with its lengths. *)
Theorem bulk_columns_are_defined :
  forall cap : list Packet,
    Forall (fun kf =>
              Aggregate.bulk_f (snd kf)
              = Some (spec_bulk_metrics (sorted (fwd_times (snd kf)))
                        (fwd_lengths (snd kf))
                        BULK_MIN_PKTS BULK_MIN_BYTES IDLE_THRESHOLD)
              /\ Aggregate.bulk_b (snd kf)
                 = Some (spec_bulk_metrics (sorted (bwd_times (snd kf)))
                           (bwd_lengths (snd kf))
                           BULK_MIN_PKTS BULK_MIN_BYTES IDLE_THRESHOLD))
           (Attack.ingest cap)
    /\ Forall (fun kf =>
                 Aggregate.bulk_f (snd kf)
                 = Some (spec_bulk_metrics (sorted (fwd_times (snd kf)))
                           (fwd_lengths (snd kf))
                           BULK_MIN_PKTS BULK_MIN_BYTES IDLE_THRESHOLD)
                 /\ Aggregate.bulk_b (snd kf)
                    = Some (spec_bulk_metrics (sorted (bwd_times (snd kf)))
                              (bwd_lengths (snd kf))
                              BULK_MIN_PKTS BULK_MIN_BYTES IDLE_THRESHOLD))
              (Benign.flows (Benign.ingest cap)).
Proof.
  intro cap. split.
  - eapply Forall_impl; [|apply attack_ingest_Forall with (P := aligned)].
    + intros kf H. now apply aligned_bulk_columns.
    + exact new_flow_aligned.
    + intros pkt ts fw f. apply accumulate_aligned.
  - eapply Forall_impl; [|apply benign_ingest_Forall with (P := aligned)].
    + intros kf H. now apply aligned_bulk_columns.
    + exact new_flow_aligned.
    + intros pkt ts f. apply accumulate_aligned.
Qed.

Lemma new_flow_flags_agree (ts : Q) : flags_agree (new_flow ts).
Proof. split; reflexivity. Qed.

(** X10: after any capture, in every accumulator of either script the
    PSH total decoded from the recorded flag entries is the sum of the
    forward and backward PSH counters, and the URG total is the sum of
    the forward and backward URG counters: 'psh flag count' = 'fwd psh
    flags' + 'bwd psh flags', and the same for URG. *)
Theorem flag_totals_match_direction_counters :
  forall cap : list Packet,
    Forall (fun kf => flags_agree (snd kf)) (Attack.ingest cap)
    /\ Forall (fun kf => flags_agree (snd kf))
              (Benign.flows (Benign.ingest cap)).
Proof.
  intro cap. split.
  - apply attack_ingest_Forall; [exact new_flow_flags_agree|].
    intros pkt ts fw f. apply accumulate_flags_agree.
  - apply benign_ingest_Forall; [exact new_flow_flags_agree|].
    intros pkt ts f. apply accumulate_flags_agree.
Qed.

(** X11: packets whose timestamp or endpoints cannot be read leave no
    trace: either script ends in the same state as on the capture with
    those packets removed. *)
Theorem unreadable_packets_leave_no_trace :
  forall cap : list Packet,
    Attack.ingest cap = Attack.ingest (filter readable cap)
    /\ Benign.ingest cap = Benign.ingest (filter readable cap).
Proof.
  intro cap. unfold Attack.ingest, Benign.ingest. split.
  - generalize (@nil (BaseKey * Flow)).
    induction cap as [|pkt cap IH]; intro flows; [reflexivity|].
    simpl. unfold readable at 1.
    destruct (endpoints pkt) as [e|] eqn:E; simpl.
    + apply IH.
    + rewrite (attack_skips_without_endpoints flows pkt E). apply IH.
  - generalize Benign.init.
    induction cap as [|pkt cap IH]; intro st; [reflexivity|].
    simpl. unfold readable at 1.
    destruct (endpoints pkt) as [e|] eqn:E; simpl.
    + apply IH.
    + rewrite (benign_skips_without_endpoints st pkt E). apply IH.
Qed.

(** ** Start and end of a flow *)

Section EndsBy.
Context {K : Type}.
Variable eqb : K -> K -> bool.
Hypothesis eqb_eq : forall a b, eqb a b = true <-> a = b.

Lemma ends_by_step (T ts : Q) (flows : list (K * Flow)) (key : K)
    (pkt : Packet) (fw : bool) :
  ends_by T flows -> T <= ts ->
  ends_by ts
    (dict_set eqb flows key
       (snd (accumulate pkt ts fw (flow_or_new eqb flows key ts)))).
Proof.
  intros Hf HT. unfold ends_by in *.
  apply dict_set_Forall.
  - eapply Forall_impl; [|exact Hf]. intros kf [H1 H2]. split; [exact H1|lra].
  - simpl.
    destruct (accumulate_frame pkt ts fw (flow_or_new eqb flows key ts))
      as (Hs & He & _).
    rewrite Hs, He. split; [|lra].
    unfold flow_or_new.
    destruct (dict_get eqb flows key) as [f|] eqn:Hget.
    + pose proof (dict_get_Forall eqb eqb_eq _ _ _ _ Hf Hget) as [H1 H2].
      simpl in *. lra.
    + simpl. lra.
Qed.
End EndsBy.

Lemma readable_stamps_cons (pkt : Packet) (cap : list Packet) :
  readable_stamps (pkt :: cap)
  = match endpoints pkt with
    | Some (ts, _) => ts :: readable_stamps cap
    | None => readable_stamps cap
    end.
Proof.
  unfold readable_stamps. simpl.
  destruct (endpoints pkt) as [[ts ep]|]; reflexivity.
Qed.

Lemma attack_ends_by_fold (cap : list Packet) :
  forall (flows : Attack.Flows) (T : Q),
    ends_by T flows -> ascending (T :: readable_stamps cap) ->
    exists T', ends_by T' (fold_left Attack.process_packet cap flows).
Proof.
  induction cap as [|pkt cap IH]; intros flows T Hf Hasc.
  - exists T. exact Hf.
  - simpl. rewrite attack_process_packet_eq.
    rewrite readable_stamps_cons in Hasc.
    destruct (endpoints pkt) as [[ts ep]|].
    + destruct Hasc as [HT Hasc].
      apply (IH _ ts); [|exact Hasc].
      now apply (ends_by_step BaseKey_eqb BaseKey_eqb_eq T).
    + now apply (IH flows T).
Qed.

Lemma benign_ends_by_fold (cap : list Packet) :
  forall (st : Benign.State) (T : Q),
    ends_by T (Benign.flows st) -> ascending (T :: readable_stamps cap) ->
    exists T', ends_by T'
                 (Benign.flows (fold_left Benign.process_packet cap st)).
Proof.
  induction cap as [|pkt cap IH]; intros st T Hf Hasc.
  - exists T. exact Hf.
  - simpl. rewrite benign_process_packet_eq.
    rewrite readable_stamps_cons in Hasc.
    destruct (endpoints pkt) as [[ts [[[src sport] dst] dport]]|].
    + destruct Hasc as [HT Hasc].
      apply (IH _ ts); [|exact Hasc]. cbv zeta. cbn [Benign.flows].
      now apply (ends_by_step Benign.Key_eqb Key_eqb_eq T).
    + now apply (IH st T).
Qed.

Lemma ascending_from_head (l : list Q) : ascending l -> ascending (hd 0 l :: l).
Proof. destruct l as [|a l]; intro H; [exact I|]. simpl. split; [lra|exact H]. Qed.

(** X12: when the readable timestamps of a capture never go back, every
    accumulator of either script has [start <= end], so the duration
    before the floor, [end - start], is never negative. *)
Theorem flows_start_before_they_end :
  forall cap : list Packet,
    ascending (readable_stamps cap) ->
    Forall (fun kf => start (snd kf) <= end_ (snd kf)) (Attack.ingest cap)
    /\ Forall (fun kf => start (snd kf) <= end_ (snd kf))
              (Benign.flows (Benign.ingest cap)).
Proof.
  intros cap Hasc. apply ascending_from_head in Hasc. split.
  - destruct (attack_ends_by_fold cap [] _ (Forall_nil _) Hasc) as [T' H].
    eapply Forall_impl; [|exact H]. intros kf [H1 _]. exact H1.
  - destruct (benign_ends_by_fold cap Benign.init _ (Forall_nil _) Hasc)
      as [T' H].
    eapply Forall_impl; [|exact H]. intros kf [H1 _]. exact H1.
Qed.

Lemma flows_start_before_they_end_witness :
  ascending (readable_stamps exchange)
  /\ Forall (fun kf => start (snd kf) <= end_ (snd kf)) (Attack.ingest exchange).
Proof.
  assert (H : ascending (readable_stamps exchange)).
  { simpl. split; [apply Qle_bool_iff; reflexivity|exact I]. }
  split; [exact H|].
  exact (proj1 (flows_start_before_they_end exchange H)).
Defined.

(** ** Orientation in the whole-flow script *)

Lemma dict_mem_set (flows : Attack.Flows) (k k' : BaseKey) (v : Flow) :
  dict_mem BaseKey_eqb (dict_set BaseKey_eqb flows k v) k'
  = BaseKey_eqb k' k || dict_mem BaseKey_eqb flows k'.
Proof.
  unfold dict_mem. destruct (BaseKey_eqb k' k) eqn:E.
  - apply BaseKey_eqb_eq in E. subst.
    now rewrite (dict_get_set_same BaseKey_eqb BaseKey_eqb_eq).
  - rewrite (dict_get_set_other BaseKey_eqb BaseKey_eqb_eq); [reflexivity|].
    intro H. apply BaseKey_eqb_eq in H. congruence.
Qed.

Lemma reverse_key_involutive (k : BaseKey) : reverse_key (reverse_key k) = k.
Proof. destruct k as [[[[a pa] b] pb] proto]. reflexivity. Qed.

Lemma assign_cases (flows : Attack.Flows) (ep : string * string * string * string) :
  (dict_mem BaseKey_eqb flows (reverse_key (attack_key ep)) = true
   /\ Attack.assign flows ep = (reverse_key (attack_key ep), Bwd))
  \/ (dict_mem BaseKey_eqb flows (reverse_key (attack_key ep)) = false
      /\ Attack.assign flows ep = (attack_key ep, Fwd)).
Proof.
  destruct ep as [[[src sport] dst] dport]. unfold Attack.assign. simpl.
  destruct (dict_mem BaseKey_eqb flows (dst, dport, src, sport, "TCP"%string));
    [left|right]; split; reflexivity.
Qed.

Lemma one_orientation_step (flows : Attack.Flows) (pkt : Packet) :
  one_orientation flows -> one_orientation (Attack.process_packet flows pkt).
Proof.
  intro Hinv. rewrite attack_process_packet_eq.
  destruct (endpoints pkt) as [[ts ep]|]; [|exact Hinv].
  destruct (assign_cases flows ep) as [[Hmem ->]|[Hmem ->]]; simpl fst.
  - intros k. rewrite !dict_mem_set. intros H1 H2.
    apply Hinv.
    + apply orb_true_iff in H1. destruct H1 as [H1|H1]; [|exact H1].
      apply BaseKey_eqb_eq in H1. now subst.
    + apply orb_true_iff in H2. destruct H2 as [H2|H2]; [|exact H2].
      apply BaseKey_eqb_eq in H2. now rewrite H2.
  - intros k. rewrite !dict_mem_set. intros H1 H2.
    apply orb_true_iff in H1, H2.
    destruct H1 as [H1|H1], H2 as [H2|H2].
    + apply BaseKey_eqb_eq in H1, H2. congruence.
    + apply BaseKey_eqb_eq in H1. subst k. congruence.
    + apply BaseKey_eqb_eq in H2.
      rewrite <- H2, reverse_key_involutive in Hmem. congruence.
    + now apply Hinv.
Qed.

Lemma one_orientation_ingest (cap : list Packet) :
  one_orientation (Attack.ingest cap).
Proof.
  unfold Attack.ingest.
  assert (H0 : one_orientation []) by (intros k H; discriminate H).
  revert H0. generalize (@nil (BaseKey * Flow)).
  induction cap as [|pkt cap IH]; intros flows H; simpl; [exact H|].
  apply IH, one_orientation_step, H.
Qed.

(** X13: direction is stable in the whole-flow script.  Once a flow is
    in the table under a key whose two endpoints differ, the table does
    not hold the reversed key, a later packet with the key's endpoints
    is filed under that key as forward and a packet with the reversed
    endpoints is filed under the same key as backward. *)
Theorem direction_is_stable :
  forall (cap : list Packet) (ep : string * string * string * string),
    dict_mem BaseKey_eqb (Attack.ingest cap) (attack_key ep) = true ->
    attack_key ep <> reverse_key (attack_key ep) ->
    dict_mem BaseKey_eqb (Attack.ingest cap) (reverse_key (attack_key ep))
      = false
    /\ Attack.assign (Attack.ingest cap) ep = (attack_key ep, Fwd)
    /\ Attack.assign (Attack.ingest cap) (reverse_endpoints ep)
       = (attack_key ep, Bwd).
Proof.
  intros cap ep Hmem Hne.
  assert (Hrev : dict_mem BaseKey_eqb (Attack.ingest cap)
                   (reverse_key (attack_key ep)) = false).
  { destruct (dict_mem BaseKey_eqb (Attack.ingest cap)
                (reverse_key (attack_key ep))) eqn:E; [|reflexivity].
    exfalso. apply Hne. now apply (one_orientation_ingest cap). }
  split; [exact Hrev|]. split.
  - destruct (assign_cases (Attack.ingest cap) ep) as [[H _]|[_ H]];
      [congruence|exact H].
  - destruct (assign_cases (Attack.ingest cap) (reverse_endpoints ep))
      as [[_ H]|[H _]].
    + rewrite H. destruct ep as [[[a pa] b] pb]. reflexivity.
    + destruct ep as [[[a pa] b] pb]. simpl in *. congruence.
Qed.

Lemma direction_is_stable_witness :
  dict_mem BaseKey_eqb (Attack.ingest exchange) request_key = true
  /\ Attack.assign (Attack.ingest exchange)
       (server, "80"%string, client, "40000"%string)
     = (request_key, Bwd).
Proof.
  split; [reflexivity|].
  apply (direction_is_stable exchange
           (client, "40000"%string, server, "80"%string)).
  - reflexivity.
  - discriminate.
Defined.

(** X14: the whole-flow script never splits a conversation.  When every
    readable packet of a capture carries the endpoints of one key or of
    its reverse, the table ends with at most one accumulator, under one
    of the two orientations. *)
Theorem one_conversation_one_flow :
  forall (cap : list Packet) (k : BaseKey),
    (forall pkt ts ep,
        In pkt cap -> endpoints pkt = Some (ts, ep) ->
        attack_key ep = k \/ attack_key ep = reverse_key k) ->
    (length (Attack.ingest cap) <= 1)%nat
    /\ forall key f, In (key, f) (Attack.ingest cap) ->
                     key = k \/ key = reverse_key k.
Proof.
  intros cap k Hconv. unfold Attack.ingest.
  assert (Hgen : forall flows : Attack.Flows,
             (flows = [] \/ exists k0 f, flows = [(k0, f)]
                                         /\ (k0 = k \/ k0 = reverse_key k)) ->
             let r := fold_left Attack.process_packet cap flows in
             r = [] \/ exists k0 f, r = [(k0, f)]
                                    /\ (k0 = k \/ k0 = reverse_key k)).
  { induction cap as [|pkt cap IH]; intros flows Hf; [exact Hf|].
    simpl. apply IH.
    { intros p ts ep Hp. apply Hconv. now right. }
    rewrite attack_process_packet_eq.
    destruct (endpoints pkt) as [[ts ep]|] eqn:Hep; [|exact Hf].
    right.
    pose proof (Hconv pkt ts ep (or_introl eq_refl) Hep) as Hk.
    destruct Hf as [->|(k0 & f & -> & Hk0)].
    - destruct (assign_cases [] ep) as [[H _]|[_ ->]]; [discriminate H|].
      simpl. eexists; eexists. split; [reflexivity|exact Hk].
    - assert (Hkey : fst (Attack.assign [(k0, f)] ep) = k0).
      { destruct (assign_cases [(k0, f)] ep) as [[H ->]|[H ->]]; simpl fst.
        - unfold dict_mem in H. simpl in H.
          destruct (BaseKey_eqb _ k0) eqn:E; [|discriminate H].
          now apply BaseKey_eqb_eq in E.
        - unfold dict_mem in H. simpl in H.
          destruct (BaseKey_eqb (reverse_key (attack_key ep)) k0) eqn:E;
            [discriminate H|].
          destruct Hk as [Hk|Hk], Hk0 as [Hk0|Hk0]; try congruence.
          + exfalso. rewrite Hk, <- Hk0 in E.
            rewrite (proj2 (BaseKey_eqb_eq k0 k0) eq_refl) in E. discriminate.
          + exfalso. rewrite Hk, reverse_key_involutive, <- Hk0 in E.
            rewrite (proj2 (BaseKey_eqb_eq k0 k0) eq_refl) in E. discriminate. }
      rewrite Hkey. rewrite (dict_set_one BaseKey_eqb BaseKey_eqb_eq).
      eexists; eexists. split; [reflexivity|exact Hk0]. }
  specialize (Hgen [] (or_introl eq_refl)). cbv zeta in Hgen.
  destruct Hgen as [->|(k0 & f & -> & Hk0)].
  - split; [simpl; lia|]. intros key f [].
  - split; [simpl; lia|].
    intros key f' [H|[]]. injection H as <- <-. exact Hk0.
Qed.

Lemma one_conversation_one_flow_witness :
  (length (Attack.ingest exchange) <= 1)%nat.
Proof.
  apply (one_conversation_one_flow exchange request_key).
  intros pkt ts ep [<-|[<-|[]]] H; injection H as <- <-; [left|right];
    reflexivity.
Defined.

(** ** Bounds on every subflow *)

Section Membership.
Context {K V : Type}.
Variable eqb : K -> K -> bool.
Hypothesis eqb_eq : forall a b, eqb a b = true <-> a = b.

Lemma dict_get_set (d : list (K * V)) (k k' : K) (v : V) :
  dict_get eqb (dict_set eqb d k v) k'
  = if eqb k' k then Some v else dict_get eqb d k'.
Proof.
  destruct (eqb k' k) eqn:E.
  - apply eqb_eq in E. subst. apply (dict_get_set_same eqb eqb_eq).
  - apply (dict_get_set_other eqb eqb_eq).
    intro H. apply eqb_eq in H. congruence.
Qed.

Lemma dict_mem_set_keeps (d : list (K * V)) (k k' : K) (v : V) :
  dict_mem eqb d k' = true -> dict_mem eqb (dict_set eqb d k v) k' = true.
Proof.
  unfold dict_mem. rewrite dict_get_set.
  destruct (eqb k' k); [reflexivity|tauto].
Qed.
End Membership.

Lemma rotate_facts (m : Benign.Meta) (ts : Q) :
  (Benign.pkt_count (Benign.rotate m ts) < Benign.MAX_PKTS_PER_SUBFLOW)%nat
  /\ ts - Benign.start_ts (Benign.rotate m ts) <= Benign.MAX_FLOW_DURATION
  /\ (Benign.idx m <= Benign.idx (Benign.rotate m ts))%nat
  /\ (Benign.idx (Benign.rotate m ts) = Benign.idx m ->
      Benign.rotate m ts = m).
Proof.
  unfold Benign.rotate.
  destruct (Benign.must_rotate m ts) eqn:E.
  - cbn [Benign.pkt_count Benign.start_ts Benign.idx].
    unfold Benign.MAX_PKTS_PER_SUBFLOW, Benign.MAX_FLOW_DURATION.
    split; [lia|]. split; [lra|]. split; lia.
  - assert (H : ~ (Benign.MAX_FLOW_DURATION < ts - Benign.start_ts m
                   \/ (Benign.MAX_PKTS_PER_SUBFLOW <= Benign.pkt_count m)%nat)).
    { intro H. apply must_rotate_iff in H. congruence. }
    split; [lia|]. split; [apply Qnot_lt_le; tauto|].
    split; [lia|reflexivity].
Qed.

Lemma meta_for_facts (st : Benign.State) (b : BaseKey) (ts : Q) :
  (Benign.pkt_count (meta_for st b ts) < Benign.MAX_PKTS_PER_SUBFLOW)%nat
  /\ ts - Benign.start_ts (meta_for st b ts) <= Benign.MAX_FLOW_DURATION
  /\ (forall m0,
         dict_get BaseKey_eqb (Benign.flow_meta st) b = Some m0 ->
         (Benign.idx m0 <= Benign.idx (meta_for st b ts))%nat
         /\ (Benign.idx (meta_for st b ts) = Benign.idx m0 ->
             meta_for st b ts = m0))
  /\ (dict_get BaseKey_eqb (Benign.flow_meta st) b = None ->
      meta_for st b ts = Benign.mkMeta 0 ts 0).
Proof.
  unfold meta_for.
  destruct (dict_get BaseKey_eqb (Benign.flow_meta st) b) as [m0|].
  - destruct (rotate_facts m0 ts) as (H1 & H2 & H3 & H4).
    split; [exact H1|]. split; [exact H2|]. split; [|discriminate].
    intros m [= <-]. split; [exact H3|exact H4].
  - destruct (rotate_facts (Benign.mkMeta 0 ts 0) ts) as (H1 & H2 & H3 & H4).
    split; [exact H1|]. split; [exact H2|]. split; [discriminate|].
    intros _. apply rotate_keeps; simpl.
    + unfold Benign.MAX_FLOW_DURATION. lra.
    + unfold Benign.MAX_PKTS_PER_SUBFLOW. lia.
Qed.

Lemma accumulate_times_length (pkt : Packet) (ts : Q) (fw : bool) (f : Flow) :
  (length (times (snd (accumulate pkt ts fw f))) <= S (length (times f)))%nat.
Proof.
  destruct (accumulate_frame pkt ts fw f) as (_ & _ & [H|H] & _); rewrite H.
  - lia.
  - rewrite length_app. simpl. lia.
Qed.

Lemma subflow_bounds_step (st : Benign.State) (pkt : Packet) :
  subflow_bounds st -> subflow_bounds (Benign.process_packet st pkt).
Proof.
  intros [Hmeta Hflows]. rewrite benign_process_packet_eq.
  destruct (endpoints pkt) as [[ts [[[src sport] dst] dport]]|];
    [|split; assumption].
  cbv zeta.
  set (b := (src, sport, dst, dport, transport_layer pkt)).
  destruct (meta_for_facts st b ts) as (Hcount & Hdur & Hold & Hnew).
  set (m1 := meta_for st b ts) in *.
  set (key := (b, Benign.idx m1)).
  set (f0 := flow_or_new Benign.Key_eqb (Benign.flows st) key ts).
  (* the accumulator the loop body starts from *)
  assert (Hf0 : (length (times f0) <= Benign.pkt_count m1)%nat
                /\ start f0 = Benign.start_ts m1).
  { unfold f0, flow_or_new.
    destruct (dict_get Benign.Key_eqb (Benign.flows st) key) as [f|] eqn:Hget.
    - pose proof (dict_get_Forall Benign.Key_eqb Key_eqb_eq _ _ _ _ Hflows Hget)
        as (m & Hm & Hj & _ & _ & Hcur).
      simpl in Hm, Hj, Hcur.
      destruct (Hold m Hm) as [Hle Heq].
      assert (Hidx : Benign.idx m1 = Benign.idx m) by lia.
      rewrite (Heq Hidx) in *. now apply Hcur.
    - simpl. split; [lia|].
      destruct (dict_get BaseKey_eqb (Benign.flow_meta st) b) as [m0|] eqn:Hm0.
      + destruct (Hold m0 eq_refl) as [Hle Heq].
        destruct (Nat.eq_dec (Benign.idx m1) (Benign.idx m0)) as [Hidx|Hidx].
        * exfalso. destruct (Hmeta b m0 Hm0) as [_ Hmem].
          rewrite <- Hidx in Hmem.
          change (is_some (dict_get Benign.Key_eqb (Benign.flows st) key) = true)
            in Hmem.
          rewrite Hget in Hmem. discriminate Hmem.
        * unfold m1, meta_for. rewrite Hm0. unfold Benign.rotate.
          destruct (Benign.must_rotate m0 ts) eqn:E; [reflexivity|].
          exfalso. apply Hidx. unfold m1, meta_for. rewrite Hm0.
          unfold Benign.rotate. now rewrite E.
      + now rewrite (Hnew eq_refl). }
  destruct Hf0 as [Hlen0 Hstart0].
  destruct (accumulate_frame pkt ts true f0) as (Hs & He & _).
  pose proof (accumulate_times_length pkt ts true f0) as Hlen.
  set (f' := snd (accumulate pkt ts true f0)) in *.
  set (m2 := Benign.mkMeta (Benign.idx m1) (Benign.start_ts m1)
               (S (Benign.pkt_count m1))).
  split; cbn [Benign.flow_meta Benign.flows].
  - (* the records *)
    intros b' m. rewrite (dict_get_set BaseKey_eqb BaseKey_eqb_eq).
    destruct (BaseKey_eqb b' b) eqn:E.
    + apply BaseKey_eqb_eq in E. subst b'. intros [= <-]. simpl. split; [lia|].
      unfold dict_mem.
      now rewrite (dict_get_set_same Benign.Key_eqb Key_eqb_eq).
    + intro Hm. destruct (Hmeta b' m Hm) as [H1 H2]. split; [exact H1|].
      now apply (dict_mem_set_keeps Benign.Key_eqb Key_eqb_eq).
  - (* the accumulators *)
    apply dict_set_Forall.
    + eapply Forall_impl; [|exact Hflows].
      intros [[b' j] f] (m & Hm & Hj & Hn & Hd & Hcur). simpl in *.
      unfold subflow_entry_ok. simpl.
      rewrite (dict_get_set BaseKey_eqb BaseKey_eqb_eq).
      destruct (BaseKey_eqb b' b) eqn:E.
      * apply BaseKey_eqb_eq in E. subst b'.
        destruct (Hold m Hm) as [Hle Heq].
        exists m2. unfold m2.
        cbn [fst snd Benign.idx Benign.start_ts Benign.pkt_count].
        split; [reflexivity|]. split; [lia|]. split; [exact Hn|].
        split; [exact Hd|].
        intro Hjm. assert (Hidx : Benign.idx m1 = Benign.idx m) by lia.
        pose proof (Heq Hidx) as Hm1.
        destruct (Hcur ltac:(lia)) as [Hc1 Hc2].
        rewrite Hm1. split; [lia|exact Hc2].
      * exists m. split; [exact Hm|]. split; [exact Hj|]. split; [exact Hn|].
        split; [exact Hd|exact Hcur].
    + exists m2. unfold key, m2.
      cbn [fst snd Benign.idx Benign.start_ts Benign.pkt_count].
      rewrite (dict_get_set_same BaseKey_eqb BaseKey_eqb_eq).
      rewrite Hs, He, Hstart0.
      split; [reflexivity|]. split; [lia|]. split; [lia|].
      split; [exact Hdur|]. intros _. split; [lia|reflexivity].
Qed.

Lemma subflow_bounds_ingest (cap : list Packet) :
  subflow_bounds (Benign.ingest cap).
Proof.
  unfold Benign.ingest.
  assert (H0 : subflow_bounds Benign.init).
  { split; [intros b m H; discriminate H|constructor]. }
  revert H0. generalize Benign.init.
  induction cap as [|pkt cap IH]; intros st H; simpl; [exact H|].
  apply IH, subflow_bounds_step, H.
Qed.

(** X15: in the subflow-bounded script, after any capture, no
    accumulator holds more than 20 timestamps or more than 20 counted
    packets (forward plus backward), and none spans more than 30
    seconds from [start] to [end]. *)
Theorem subflows_are_bounded :
  forall cap : list Packet,
    Forall (fun kf =>
              (length (times (snd kf)) <= 20)%nat
              /\ (flow_packets (snd kf) <= 20)%nat
              /\ end_ (snd kf) - start (snd kf) <= 30)
           (Benign.flows (Benign.ingest cap)).
Proof.
  intro cap.
  destruct (subflow_bounds_ingest cap) as [_ Hb].
  pose proof (benign_ingest_aligned cap) as Ha.
  rewrite Forall_forall in *. intros kf Hin.
  destruct (Hb kf Hin) as (m & _ & _ & Hn & Hd & _).
  destruct (Ha kf Hin) as (_ & H2 & _ & H4 & _ & H6 & _).
  unfold Benign.MAX_PKTS_PER_SUBFLOW, Benign.MAX_FLOW_DURATION in *.
  unfold flow_packets, total_fwd_packets, total_backward_packets.
  repeat split; try assumption; lia.
Qed.

(** ** Rows of the subflow-bounded script *)

Lemma benign_ingest_no_backward (cap : list Packet) :
  Forall (fun kf => no_backward (snd kf)) (Benign.flows (Benign.ingest cap)).
Proof.
  apply benign_ingest_Forall; [exact new_flow_no_backward|].
  intros pkt ts f. apply accumulate_forward_no_backward.
Qed.

Lemma no_backward_columns (f : Flow) :
  no_backward f -> backward_columns_zero f.
Proof.
  intros (Ht & Hl & Hh & Hp & Hu & Hw).
  unfold backward_columns_zero, Aggregate.tbp, Aggregate.tbb,
    Aggregate.down_up_ratio, Aggregate.bwd_packet_length_mean,
    Aggregate.bwd_packet_length_max, Aggregate.bwd_packet_length_min,
    Aggregate.bwd_header_length, Aggregate.avg_bwd_segment_size,
    Aggregate.bwd_iat_total, Aggregate.bulk_b,
    Aggregate.init_win_bytes_backward, Aggregate.tbp, Aggregate.tbb,
    Row.b_iats.
  rewrite Ht, Hl, Hh, Hw.
  repeat split; try reflexivity; try assumption.
  destruct (0 <? Aggregate.tfp f)%Z; [|reflexivity].
  simpl. unfold Qdiv. apply Qmult_0_l.
Qed.

(** X16: every row of the subflow-bounded script has all its backward
    columns at zero, whatever the capture: no backward packets or
    bytes, down/up ratio 0, backward length statistics, header length,
    segment size, inter-arrival total and statistics 0, no backward
    bulk, backward initial window 0 and no backward PSH or URG. *)
Theorem benign_rows_have_zero_backward_columns :
  forall cap : list Packet,
    Forall (fun kf => backward_columns_zero (snd kf))
           (Benign.flows (Benign.ingest cap)).
Proof.
  intro cap. eapply Forall_impl; [|apply benign_ingest_no_backward].
  intros kf H. now apply no_backward_columns.
Qed.

(** ** What later packets cannot undo *)

Section Kept.
Context {K : Type}.
Variable eqb : K -> K -> bool.
Hypothesis eqb_eq : forall a b, eqb a b = true <-> a = b.

Lemma kept_by_assignment (flows : list (K * Flow)) (key k : K) (f : Flow)
    (pkt : Packet) (ts : Q) (fw : bool) :
  dict_get eqb flows key = Some f ->
  exists f',
    dict_get eqb
      (dict_set eqb flows k
         (snd (accumulate pkt ts fw (flow_or_new eqb flows k ts)))) key
    = Some f'
    /\ start f' = start f
    /\ (forall w, init_win_fwd f = Some w -> init_win_fwd f' = Some w)
    /\ (forall w, init_win_bwd f = Some w -> init_win_bwd f' = Some w).
Proof.
  intro Hget. rewrite (dict_get_set eqb eqb_eq).
  destruct (eqb key k) eqn:E.
  - apply eqb_eq in E. subst k. unfold flow_or_new. rewrite Hget.
    destruct (accumulate_frame pkt ts fw f) as (Hs & _ & _ & Hf & Hb).
    eexists. split; [reflexivity|]. split; [exact Hs|]. split; assumption.
  - exists f. split; [exact Hget|]. split; [reflexivity|]. split; auto.
Qed.
End Kept.

(** X17: once an accumulator is in the table of either script, the
    packets that follow never remove it, never change its [start], and
    never change an initial window size, forward or backward, that it
    has recorded. *)
Theorem start_and_initial_windows_are_kept :
  (forall (cap : list Packet) (flows : Attack.Flows) (key : BaseKey) (f : Flow),
      dict_get BaseKey_eqb flows key = Some f ->
      exists f',
        dict_get BaseKey_eqb (fold_left Attack.process_packet cap flows) key
        = Some f'
        /\ start f' = start f
        /\ (forall w, init_win_fwd f = Some w -> init_win_fwd f' = Some w)
        /\ (forall w, init_win_bwd f = Some w -> init_win_bwd f' = Some w))
  /\ (forall (cap : list Packet) (st : Benign.State) (key : Benign.Key)
             (f : Flow),
        dict_get Benign.Key_eqb (Benign.flows st) key = Some f ->
        exists f',
          dict_get Benign.Key_eqb
            (Benign.flows (fold_left Benign.process_packet cap st)) key
          = Some f'
          /\ start f' = start f
          /\ (forall w, init_win_fwd f = Some w -> init_win_fwd f' = Some w)
          /\ (forall w, init_win_bwd f = Some w -> init_win_bwd f' = Some w)).
Proof.
  split.
  - induction cap as [|pkt cap IH]; intros flows key f Hget.
    + exists f. split; [exact Hget|]. split; [reflexivity|]. split; auto.
    + simpl.
      assert (Hstep : exists f1,
                 dict_get BaseKey_eqb (Attack.process_packet flows pkt) key
                 = Some f1
                 /\ start f1 = start f
                 /\ (forall w, init_win_fwd f = Some w ->
                               init_win_fwd f1 = Some w)
                 /\ (forall w, init_win_bwd f = Some w ->
                               init_win_bwd f1 = Some w)).
      { rewrite attack_process_packet_eq.
        destruct (endpoints pkt) as [[ts ep]|].
        - now apply (kept_by_assignment BaseKey_eqb BaseKey_eqb_eq).
        - exists f. split; [exact Hget|]. split; [reflexivity|]. split; auto. }
      destruct Hstep as (f1 & Hget1 & Hs1 & Hf1 & Hb1).
      destruct (IH _ key f1 Hget1) as (f' & Hget' & Hs' & Hf' & Hb').
      exists f'. split; [exact Hget'|]. split; [congruence|]. split; auto.
  - induction cap as [|pkt cap IH]; intros st key f Hget.
    + exists f. split; [exact Hget|]. split; [reflexivity|]. split; auto.
    + simpl.
      assert (Hstep : exists f1,
                 dict_get Benign.Key_eqb
                   (Benign.flows (Benign.process_packet st pkt)) key
                 = Some f1
                 /\ start f1 = start f
                 /\ (forall w, init_win_fwd f = Some w ->
                               init_win_fwd f1 = Some w)
                 /\ (forall w, init_win_bwd f = Some w ->
                               init_win_bwd f1 = Some w)).
      { rewrite benign_process_packet_eq.
        destruct (endpoints pkt) as [[ts [[[src sport] dst] dport]]|].
        - cbv zeta. cbn [Benign.flows].
          now apply (kept_by_assignment Benign.Key_eqb Key_eqb_eq).
        - exists f. split; [exact Hget|]. split; [reflexivity|]. split; auto. }
      destruct Hstep as (f1 & Hget1 & Hs1 & Hf1 & Hb1).
      destruct (IH _ key f1 Hget1) as (f' & Hget' & Hs' & Hf' & Hb').
      exists f'. split; [exact Hget'|]. split; [congruence|]. split; auto.
Qed.

Lemma start_and_initial_windows_are_kept_witness :
  exists f',
    dict_get BaseKey_eqb
      (fold_left Attack.process_packet [reply 1; garbled_flags]
         (Attack.ingest [request 0])) request_key = Some f'
    /\ start f' = 0
    /\ init_win_fwd f' = Some 512%Z.
Proof.
  destruct (dict_get BaseKey_eqb (Attack.ingest [request 0]) request_key)
    as [f|] eqn:E; [|vm_compute in E; discriminate E].
  destruct (proj1 start_and_initial_windows_are_kept [reply 1; garbled_flags]
              (Attack.ingest [request 0]) request_key f E)
    as (f' & Hget & Hs & Hf & _).
  exists f'. split; [exact Hget|].
  vm_compute in E. injection E as <-.
  split; [exact Hs|]. apply Hf. reflexivity.
Defined.

(** ** What the detector records *)







(** ** Numbering of subflows *)

Lemma rotate_idx (m : Benign.Meta) (ts : Q) :
  Benign.idx (Benign.rotate m ts) = Benign.idx m
  \/ Benign.idx (Benign.rotate m ts) = S (Benign.idx m).
Proof.
  unfold Benign.rotate. destruct (Benign.must_rotate m ts); [right|left];
    reflexivity.
Qed.

Lemma meta_for_idx (st : Benign.State) (b : BaseKey) (ts : Q) :
  match dict_get BaseKey_eqb (Benign.flow_meta st) b with
  | Some m0 =>
      Benign.idx (meta_for st b ts) = Benign.idx m0
      \/ Benign.idx (meta_for st b ts) = S (Benign.idx m0)
  | None => Benign.idx (meta_for st b ts) = 0%nat
  end.
Proof.
  pose proof (meta_for_facts st b ts) as (_ & _ & _ & Hnew).
  unfold meta_for in *.
  destruct (dict_get BaseKey_eqb (Benign.flow_meta st) b) as [m0|].
  - apply rotate_idx.
  - now rewrite (Hnew eq_refl).
Qed.

Lemma subflows_consecutive_step (st : Benign.State) (pkt : Packet) :
  subflows_consecutive st -> subflows_consecutive (Benign.process_packet st pkt).
Proof.
  intro Hinv. rewrite benign_process_packet_eq.
  destruct (endpoints pkt) as [[ts [[[src sport] dst] dport]]|]; [|exact Hinv].
  cbv zeta.
  set (b := (src, sport, dst, dport, transport_layer pkt)).
  pose proof (meta_for_idx st b ts) as Hidx.
  set (m1 := meta_for st b ts) in *.
  intros b' j. cbn [Benign.flow_meta Benign.flows].
  unfold dict_mem.
  rewrite (dict_get_set Benign.Key_eqb Key_eqb_eq).
  rewrite (dict_get_set BaseKey_eqb BaseKey_eqb_eq).
  specialize (Hinv b' j). unfold dict_mem in Hinv.
  unfold Benign.Key_eqb at 1. cbn [fst snd].
  destruct (BaseKey_eqb b' b) eqn:Eb; cbn [andb].
  - apply BaseKey_eqb_eq in Eb. subst b'.
    destruct (Nat.eqb j (Benign.idx m1)) eqn:Ek.
    + apply Nat.eqb_eq in Ek. subst j.
      split; [|intros _; reflexivity].
      intros _. eexists. split; [reflexivity|]. simpl. lia.
    + apply Nat.eqb_neq in Ek.
      rewrite Hinv. split.
      * intros (m0 & Hm0 & Hle). rewrite Hm0 in Hidx.
        eexists. split; [reflexivity|]. simpl. lia.
      * intros (m & Hm & Hle). injection Hm as <-. simpl in Hle.
        destruct (dict_get BaseKey_eqb (Benign.flow_meta st) b) as [m0|].
        -- exists m0. split; [reflexivity|]. lia.
        -- exfalso. lia.
  - exact Hinv.
Qed.

(** X19: in the subflow-bounded script the subflows of a conversation
    are numbered consecutively from 0: after any capture an accumulator
    exists under (base, j) exactly when the conversation has a record
    and j is at most the record's current index. *)
Theorem subflows_are_numbered_consecutively :
  forall cap : list Packet, subflows_consecutive (Benign.ingest cap).
Proof.
  intro cap. unfold Benign.ingest.
  assert (H0 : subflows_consecutive Benign.init).
  { intros b j. split; [discriminate|]. intros (m & Hm & _). discriminate Hm. }
  revert H0. generalize Benign.init.
  induction cap as [|pkt cap IH]; intros st H; simpl; [exact H|].
  apply IH, subflows_consecutive_step, H.
Qed.

(** ** Captures of well-formed packets *)

Lemma accumulate_well_formed_effect (pkt : Packet) (ts : Q) (fw : bool)
    (f : Flow) :
  well_formed pkt = true ->
  let f' := snd (accumulate pkt ts fw f) in
  times f' = times f ++ [ts]
  /\ start f' = start f
  /\ end_ f' = ts
  /\ length (flags_hex f') = S (length (flags_hex f))
  /\ (length (fwd_times f') + length (bwd_times f')
      = S (length (fwd_times f) + length (bwd_times f)))%nat.
Proof.
  intro Hwf.
  destruct pkt as [t0 s0 d0 sp dp tl len hdr win fl].
  unfold well_formed in Hwf. simpl in Hwf.
  rewrite !andb_true_iff in Hwf.
  destruct Hwf as [[[[[[[[_ _] _] _] _] Hlen] Hhdr] Hwin] Hfl].
  destruct len as [| |len]; try discriminate Hlen.
  destruct fl as [| |fl]; try discriminate Hfl.
  destruct f as [a b c e g h i j k l m n o p q iwf iwb].
  destruct fw, hdr as [| |hdr]; try discriminate Hhdr;
    destruct iwf as [iwf|], iwb as [iwb|], win as [| |win];
    try discriminate Hwin;
    cbn; rewrite ?length_app; cbn; repeat split; lia.
Qed.

Lemma hd_app_nonempty (l : list Q) (x : Q) : l <> [] -> hd 0 (l ++ [x]) = hd 0 l.
Proof. destruct l; [contradiction|reflexivity]. Qed.

Lemma accumulate_complete (pkt : Packet) (ts : Q) (fw : bool) (f : Flow) :
  well_formed pkt = true ->
  (f = new_flow ts \/ complete f) ->
  complete (snd (accumulate pkt ts fw f)).
Proof.
  intros Hwf Hf.
  destruct (accumulate_well_formed_effect pkt ts fw f Hwf)
    as (Ht & Hs & He & Hfl & Hside).
  unfold complete. rewrite Ht, Hs, He, Hfl, Hside, length_app, last_last.
  cbn [length].
  destruct Hf as [->|(Hne & Hst & Hen & Hsum & Hflags)].
  - simpl. repeat split; try reflexivity. discriminate.
  - rewrite hd_app_nonempty by exact Hne.
    repeat split; try assumption; try lia.
    intro Hc. now apply app_eq_nil in Hc.
Qed.

Lemma flow_or_new_complete {K : Type} (eqb : K -> K -> bool)
    (eqb_eq : forall a b, eqb a b = true <-> a = b)
    (flows : list (K * Flow)) (key : K) (ts : Q) :
  Forall (fun kf => complete (snd kf)) flows ->
  flow_or_new eqb flows key ts = new_flow ts
  \/ complete (flow_or_new eqb flows key ts).
Proof.
  intro Hf. unfold flow_or_new.
  destruct (dict_get eqb flows key) as [f|] eqn:Hget; [right|now left].
  apply (dict_get_Forall eqb eqb_eq (fun kf => complete (snd kf)) _ _ _ Hf Hget).
Qed.

Lemma attack_ingest_complete (cap : list Packet) :
  forallb well_formed cap = true ->
  Forall (fun kf => complete (snd kf)) (Attack.ingest cap).
Proof.
  unfold Attack.ingest.
  assert (H0 : Forall (fun kf : BaseKey * Flow => complete (snd kf)) [])
    by constructor.
  revert H0. generalize (@nil (BaseKey * Flow)).
  induction cap as [|pkt cap IH]; intros flows Hf Hwf; simpl; [exact Hf|].
  simpl in Hwf. apply andb_true_iff in Hwf. destruct Hwf as [Hp Hc].
  apply IH; [|exact Hc]. rewrite attack_process_packet_eq.
  destruct (endpoints pkt) as [[ts ep]|]; [|exact Hf].
  apply dict_set_Forall; [exact Hf|]. simpl.
  apply accumulate_complete; [exact Hp|].
  now apply (flow_or_new_complete BaseKey_eqb BaseKey_eqb_eq).
Qed.

Lemma benign_ingest_complete (cap : list Packet) :
  forallb well_formed cap = true ->
  Forall (fun kf => complete (snd kf)) (Benign.flows (Benign.ingest cap)).
Proof.
  unfold Benign.ingest.
  assert (H0 : Forall (fun kf : Benign.Key * Flow => complete (snd kf))
                      (Benign.flows Benign.init)) by constructor.
  revert H0. generalize Benign.init.
  induction cap as [|pkt cap IH]; intros st Hf Hwf; simpl; [exact Hf|].
  simpl in Hwf. apply andb_true_iff in Hwf. destruct Hwf as [Hp Hc].
  apply IH; [|exact Hc]. rewrite benign_process_packet_eq.
  destruct (endpoints pkt) as [[ts [[[src sport] dst] dport]]|]; [|exact Hf].
  cbv zeta. cbn [Benign.flows].
  apply dict_set_Forall; [exact Hf|]. simpl.
  apply accumulate_complete; [exact Hp|].
  now apply (flow_or_new_complete Benign.Key_eqb Key_eqb_eq).
Qed.

(** X20: after a capture of well-formed packets every accumulator of
    either script holds at least one timestamp, has [start] equal to
    its first recorded timestamp and [end] equal to its last, has
    [len(times) = len(fwd_times) + len(bwd_times)] (so the packet count
    of the row is the forward count plus the backward count), and has
    one flag entry per packet. *)
Theorem well_formed_captures_give_complete_flows :
  forall cap : list Packet,
    forallb well_formed cap = true ->
    Forall (fun kf => complete (snd kf)) (Attack.ingest cap)
    /\ Forall (fun kf => complete (snd kf)) (Benign.flows (Benign.ingest cap)).
Proof.
  intros cap Hwf. split;
    [now apply attack_ingest_complete|now apply benign_ingest_complete].
Qed.

Lemma well_formed_captures_give_complete_flows_witness :
  forallb well_formed exchange = true
  /\ Forall (fun kf => complete (snd kf)) (Attack.ingest exchange).
Proof.
  split; [reflexivity|].
  exact (proj1 (well_formed_captures_give_complete_flows exchange eq_refl)).
Defined.

(** ** Captures in time order *)

Lemma ascending_snoc (l : list Q) (x : Q) :
  ascending l -> Forall (fun t => t <= x) l -> ascending (l ++ [x]).
Proof.
  induction l as [|a l IH]; intros Hasc Hall; [exact I|].
  inversion Hall as [|? ? Ha Hl]; subst.
  destruct l as [|b l].
  - simpl. split; [exact Ha|exact I].
  - destruct Hasc as [Hab Hasc]. split; [exact Hab|].
    apply IH; assumption.
Qed.

Lemma accumulate_times_by (pkt : Packet) (ts T : Q) (fw : bool) (f : Flow) :
  T <= ts -> times_by T f -> times_by ts (snd (accumulate pkt ts fw f)).
Proof.
  intros HT [Hasc Hall].
  assert (Hall' : Forall (fun t => t <= ts) (times f)).
  { eapply Forall_impl; [|exact Hall]. intros t Ht. simpl in Ht. lra. }
  unfold times_by.
  destruct (accumulate_frame pkt ts fw f) as (_ & _ & [H|H] & _); rewrite H.
  - split; assumption.
  - split; [now apply ascending_snoc|].
    apply Forall_app. split; [exact Hall'|].
    constructor; [lra|constructor].
Qed.

Section TimesBy.
Context {K : Type}.
Variable eqb : K -> K -> bool.
Hypothesis eqb_eq : forall a b, eqb a b = true <-> a = b.

Lemma times_by_step (T ts : Q) (flows : list (K * Flow)) (key : K)
    (pkt : Packet) (fw : bool) :
  Forall (fun kf => times_by T (snd kf)) flows -> T <= ts ->
  Forall (fun kf => times_by ts (snd kf))
    (dict_set eqb flows key
       (snd (accumulate pkt ts fw (flow_or_new eqb flows key ts)))).
Proof.
  intros Hf HT. apply dict_set_Forall.
  - eapply Forall_impl; [|exact Hf]. intros kf [H1 H2]. split; [exact H1|].
    eapply Forall_impl; [|exact H2]. intros t Ht. simpl in Ht. lra.
  - simpl. apply (accumulate_times_by pkt ts T); [exact HT|].
    unfold flow_or_new.
    destruct (dict_get eqb flows key) as [f|] eqn:Hget.
    + apply (dict_get_Forall eqb eqb_eq (fun kf => times_by T (snd kf))
               _ _ _ Hf Hget).
    + split; [exact I|constructor].
Qed.
End TimesBy.

Lemma attack_times_by_fold (cap : list Packet) :
  forall (flows : Attack.Flows) (T : Q),
    Forall (fun kf => times_by T (snd kf)) flows ->
    ascending (T :: readable_stamps cap) ->
    exists T', Forall (fun kf => times_by T' (snd kf))
                 (fold_left Attack.process_packet cap flows).
Proof.
  induction cap as [|pkt cap IH]; intros flows T Hf Hasc.
  - exists T. exact Hf.
  - simpl. rewrite attack_process_packet_eq.
    rewrite readable_stamps_cons in Hasc.
    destruct (endpoints pkt) as [[ts ep]|].
    + destruct Hasc as [HT Hasc].
      apply (IH _ ts); [|exact Hasc].
      now apply (times_by_step BaseKey_eqb BaseKey_eqb_eq T).
    + now apply (IH flows T).
Qed.

Lemma benign_times_by_fold (cap : list Packet) :
  forall (st : Benign.State) (T : Q),
    Forall (fun kf => times_by T (snd kf)) (Benign.flows st) ->
    ascending (T :: readable_stamps cap) ->
    exists T', Forall (fun kf => times_by T' (snd kf))
                 (Benign.flows (fold_left Benign.process_packet cap st)).
Proof.
  induction cap as [|pkt cap IH]; intros st T Hf Hasc.
  - exists T. exact Hf.
  - simpl. rewrite benign_process_packet_eq.
    rewrite readable_stamps_cons in Hasc.
    destruct (endpoints pkt) as [[ts [[[src sport] dst] dport]]|].
    + destruct Hasc as [HT Hasc].
      apply (IH _ ts); [|exact Hasc]. cbv zeta. cbn [Benign.flows].
      now apply (times_by_step Benign.Key_eqb Key_eqb_eq T).
    + now apply (IH st T).
Qed.

Lemma insert_sorted_at_end (x : Q) (l : list Q) :
  Forall (fun t => t <= x) l -> insert_sorted x l = l ++ [x].
Proof.
  induction 1 as [|y l Hy Hl IH]; [reflexivity|].
  simpl. apply Qle_bool_iff in Hy. rewrite Hy. now rewrite IH.
Qed.

Lemma ascending_all_le_last (l : list Q) (x : Q) :
  ascending (l ++ [x]) -> Forall (fun t => t <= x) l.
Proof.
  induction l as [|a l IH]; intro H; [constructor|].
  assert (Hl : Forall (fun t => t <= x) l).
  { apply IH. now apply ascending_tail in H. }
  constructor; [|exact Hl].
  destruct l as [|b l].
  - simpl in H. tauto.
  - simpl in H. destruct H as [Hab _].
    inversion Hl as [|? ? Hb _]; subst. lra.
Qed.

Lemma sorted_fold_of_ascending (l : list Q) :
  forall acc : list Q,
    ascending (acc ++ l) ->
    fold_left (fun a x => insert_sorted x a) l acc = acc ++ l.
Proof.
  induction l as [|x l IH]; intros acc H; simpl.
  - now rewrite app_nil_r.
  - assert (Hacc : ascending ((acc ++ [x]) ++ l))
      by (now rewrite <- app_assoc).
    rewrite insert_sorted_at_end.
    + rewrite (IH _ Hacc). now rewrite <- app_assoc.
    + apply ascending_all_le_last.
      clear IH H. revert Hacc. generalize (acc ++ [x]).
      intro l0. revert l. induction l0 as [|a l0 IH0]; intros l H.
      * exact I.
      * destruct l0 as [|b l0]; [exact I|].
        simpl in H. destruct H as [Hab H]. split; [exact Hab|].
        now apply (IH0 l).
Qed.

(** [sorted] leaves a list that is already in ascending order as it
    is. *)
Lemma sorted_of_ascending (l : list Q) : ascending l -> sorted l = l.
Proof. intro H. unfold sorted. now rewrite sorted_fold_of_ascending. Qed.

Lemma active_idle_sum (ts : list Q) (thr : Q) :
  (2 <= length ts)%nat ->
  Qsum (fst (compute_active_idle ts thr)) + Qsum (snd (compute_active_idle ts thr))
  == last ts 0 - hd 0 ts.
Proof.
  intro Hlen. unfold compute_active_idle.
  assert (Hge : (length ts <? 2)%nat = false) by (now apply Nat.ltb_ge).
  rewrite Hge.
  pose proof (active_idle_loop_inv ts thr (np_diff ts) 0 [] [] 0) as H.
  destruct (active_idle_loop ts thr (np_diff ts) 0 [] [] 0)
    as [[active idle] s].
  destruct H as [Hsum _]; [reflexivity|simpl; ring|reflexivity|].
  simpl fst. simpl snd. rewrite Qsum_snoc, last_nth_hd. lra.
Qed.

Lemma complete_duration (f : Flow) :
  complete f -> ascending (times f) ->
  Aggregate.active_idle f = compute_active_idle (times f) IDLE_THRESHOLD
  /\ end_ f - start f
     == Qsum (fst (Aggregate.active_idle f))
        + Qsum (snd (Aggregate.active_idle f)).
Proof.
  intros (Hne & Hs & He & _) Hasc.
  unfold Aggregate.active_idle. rewrite (sorted_of_ascending _ Hasc).
  split; [reflexivity|]. rewrite Hs, He.
  destruct (times f) as [|a [|b l]] eqn:E; [contradiction| |].
  - simpl. ring.
  - rewrite active_idle_sum by (simpl; lia). reflexivity.
Qed.

(** X21: for a capture of well-formed packets whose timestamps never go
    back, in every accumulator of either script the recorded timestamps
    are already in ascending order, and the time from [start] to [end]
    is the sum of the active spans and the idle gaps the aggregator
    computes for the row. *)
Theorem duration_is_active_plus_idle :
  forall cap : list Packet,
    forallb well_formed cap = true ->
    ascending (readable_stamps cap) ->
    Forall (fun kf =>
              sorted (times (snd kf)) = times (snd kf)
              /\ end_ (snd kf) - start (snd kf)
                 == Qsum (fst (Aggregate.active_idle (snd kf)))
                    + Qsum (snd (Aggregate.active_idle (snd kf))))
           (Attack.ingest cap)
    /\ Forall (fun kf =>
                 sorted (times (snd kf)) = times (snd kf)
                 /\ end_ (snd kf) - start (snd kf)
                    == Qsum (fst (Aggregate.active_idle (snd kf)))
                       + Qsum (snd (Aggregate.active_idle (snd kf))))
              (Benign.flows (Benign.ingest cap)).
Proof.
  intros cap Hwf Hasc. apply ascending_from_head in Hasc. split.
  - destruct (attack_times_by_fold cap [] _ (Forall_nil _) Hasc) as [T' Ht].
    pose proof (attack_ingest_complete cap Hwf) as Hc.
    unfold Attack.ingest in *. rewrite Forall_forall in *.
    intros kf Hin. destruct (Ht kf Hin) as [Ha _].
    split; [now apply sorted_of_ascending|].
    now apply complete_duration; [apply Hc|].
  - destruct (benign_times_by_fold cap Benign.init _ (Forall_nil _) Hasc)
      as [T' Ht].
    pose proof (benign_ingest_complete cap Hwf) as Hc.
    unfold Benign.ingest in *. rewrite Forall_forall in *.
    intros kf Hin. destruct (Ht kf Hin) as [Ha _].
    split; [now apply sorted_of_ascending|].
    now apply complete_duration; [apply Hc|].
Qed.

Lemma duration_is_active_plus_idle_witness :
  forallb well_formed three_requests = true
  /\ ascending (readable_stamps three_requests)
  /\ Forall (fun kf =>
               sorted (times (snd kf)) = times (snd kf)
               /\ end_ (snd kf) - start (snd kf)
                  == Qsum (fst (Aggregate.active_idle (snd kf)))
                     + Qsum (snd (Aggregate.active_idle (snd kf))))
            (Attack.ingest three_requests).
Proof.
  assert (H : ascending (readable_stamps three_requests)).
  { simpl. repeat split; apply Qle_bool_iff; reflexivity. }
  split; [reflexivity|]. split; [exact H|].
  exact (proj1 (duration_is_active_plus_idle three_requests eq_refl H)).
Defined.
